(** * Name matching in the DineoutVancouverHalal loaders

    A shallow embedding of the entity-resolution code of
    [scripts/load_vancouver_foodies.py], [scripts/load_google_maps_list.py]
    and [scripts/update_google_maps_from_html.py], with the Python builtins
    they call ([str] methods, [re.sub], [difflib.SequenceMatcher]).

    Conventions.
    - A Python [str] is the list of its code points ([pystr]).
    - A Python [float] score is the exact rational it stands for: every
      score in these scripts is a literal ([0.9], [0.93], [0.95], [1.0],
      [0.0]) or the quotient of two integers, and the comparisons the code
      makes ([>], [>=], [<], [max]) agree on the doubles and on the
      rationals for names shorter than 2^26 characters; a threshold is the
      decimal number given on the command line ([0.86] and [0.88] by
      default).
    - A [dict] used as a map is a [gmap]; a [dict] used as a record is a
      [Record]; a [dict] whose order is observed ([list(d.values())]) is
      the list of its items in insertion order ([odict]).
    - A request to the database is left out; what is modelled of a
      function that sends one is what it computes before: the rows, and
      the batches it posts when no request fails. *)

From Stdlib Require Import QArith Qreduction.
From Stdlib Require Import Strings.String Strings.Ascii.
From stdpp Require Import base option list sorting gmap pretty.

Local Open Scope bool_scope.
Local Open Scope nat_scope.

(** ** Python builtins *)
Module Py.

(** [str]: the sequence of Unicode code points. *)
Definition pystr : Type := list N.

(** An ASCII literal as a [pystr]. *)
Definition str (s : string) : pystr :=
  map N_of_ascii (list_ascii_of_string s).

Definition in_range (lo hi c : N) : bool := ((lo <=? c) && (c <=? hi))%N.

(** [str.isspace] on one code point; [\s] of [re] and the separators of
    [str.split()] and [str.strip()] are the same set. *)
Definition is_space (c : N) : bool :=
  in_range 9 13 c || in_range 28 32 c || (c =? 133)%N || (c =? 160)%N
  || (c =? 5760)%N || in_range 8192 8202 c || (c =? 8232)%N
  || (c =? 8233)%N || (c =? 8239)%N || (c =? 8287)%N || (c =? 12288)%N.

(** [str.lower] on one code point.  ASCII and Latin-1 are covered in full,
    and so are the only two wider code points whose lower-case form reaches
    ASCII: U+0130 (to [i] and U+0307) and U+212A, the Kelvin sign (to [k]).
    Every other wide code point is kept: its lower-case form stays outside
    [[a-z0-9\s]], so [normalize_name] turns it into a space in both cases. *)
Definition lower_cp (c : N) : list N :=
  if in_range 65 90 c then [(c + 32)%N]
  else if in_range 192 222 c && negb (c =? 215)%N then [(c + 32)%N]
  else if (c =? 304)%N then [105%N; 775%N]
  else if (c =? 8490)%N then [107%N]
  else [c].

(** [s.lower()] *)
Definition lower (s : pystr) : pystr := flat_map lower_cp s.

(** [s.lstrip(chars)], [s.rstrip(chars)], [s.strip(chars)] for the set of
    characters [chars]; without an argument the set is [is_space]. *)
Fixpoint lstrip_of (chars : N -> bool) (s : pystr) : pystr :=
  match s with
  | c :: s' => if chars c then lstrip_of chars s' else s
  | [] => []
  end.

Definition rstrip_of (chars : N -> bool) (s : pystr) : pystr :=
  rev (lstrip_of chars (rev s)).

Definition strip_of (chars : N -> bool) (s : pystr) : pystr :=
  rstrip_of chars (lstrip_of chars s).

Definition strip (s : pystr) : pystr := strip_of is_space s.

(** [s.replace(c, new)] for a one-character pattern [c]. *)
Definition replace_char (c : N) (new : pystr) (s : pystr) : pystr :=
  flat_map (fun x => if (x =? c)%N then new else [x]) s.

(** [re.sub(cls, new, s)] for a one-character class [cls]. *)
Definition re_sub_class (cls : N -> bool) (new : pystr) (s : pystr) : pystr :=
  flat_map (fun x => if cls x then new else [x]) s.

(** [s.split()]: the maximal runs of non-space characters, in order.
    [cur] holds the characters of the run being read, last one first. *)
Fixpoint split_from (cur : pystr) (s : pystr) : list pystr :=
  match s with
  | [] => match cur with [] => [] | _ => [rev cur] end
  | c :: s' =>
      if is_space c
      then match cur with
           | [] => split_from [] s'
           | _ => rev cur :: split_from [] s'
           end
      else split_from (c :: cur) s'
  end.

Definition split (s : pystr) : list pystr := split_from [] s.

(** [sep.join(parts)] *)
Fixpoint join (sep : pystr) (parts : list pystr) : pystr :=
  match parts with
  | [] => []
  | [p] => p
  | p :: rest => p ++ sep ++ join sep rest
  end.

(** [re.sub(cls+, new, s)]: every maximal run of characters of the class
    becomes one [new]; [in_run] tells that the previous character was in
    the class. *)
Fixpoint re_sub_runs_from (cls : N -> bool) (new : pystr) (in_run : bool)
    (s : pystr) : pystr :=
  match s with
  | [] => []
  | c :: s' =>
      if cls c
      then (if in_run then [] else new) ++ re_sub_runs_from cls new true s'
      else c :: re_sub_runs_from cls new false s'
  end.

Definition re_sub_runs (cls : N -> bool) (new : pystr) (s : pystr) : pystr :=
  re_sub_runs_from cls new false s.

(** The class [[^a-z0-9\s]] of [normalize_name]. *)
Definition not_alnum_space (c : N) : bool :=
  negb (in_range 97 122 c || in_range 48 57 c || is_space c).

(** [f"{n}"] for a natural number. *)
Definition decimal (n : nat) : pystr := str (pretty n).

(** [s.split(sep)] for a one-character separator: the pieces between the
    separators, the empty ones too.  [cur] holds the piece being read, last
    character first. *)
Fixpoint split_on_from (sep : N) (cur : pystr) (s : pystr) : list pystr :=
  match s with
  | [] => [rev cur]
  | c :: s' =>
      if (c =? sep)%N then rev cur :: split_on_from sep [] s'
      else split_on_from sep (c :: cur) s'
  end.

Definition split_on (sep : N) (s : pystr) : list pystr := split_on_from sep [] s.

(** [s.startswith(p)] and [sub in s]. *)
Fixpoint startswith (p s : pystr) : bool :=
  match p, s with
  | [], _ => true
  | x :: p', y :: s' => (x =? y)%N && startswith p' s'
  | _ :: _, [] => false
  end.

Fixpoint contains (sub s : pystr) : bool :=
  startswith sub s
  || match s with
     | [] => false
     | _ :: s' => contains sub s'
     end.

(** A [dict] whose order is observed: its items, in the order in which the
    keys were first set.  [dict_upsert f k d] is [d[k] = f(d.get(k))]: a key
    the dict holds keeps its place, a new key goes last. *)
Definition odict (K V : Type) : Type := list (K * V).

Fixpoint dict_upsert {K V : Type} `{EqDecision K} (f : option V -> V) (k : K)
    (d : odict K V) : odict K V :=
  match d with
  | [] => [(k, f None)]
  | (k', v) :: d' =>
      if decide (k' = k) then (k', f (Some v)) :: d'
      else (k', v) :: dict_upsert f k d'
  end.

(** [d[k] = v] *)
Definition dict_set {K V : Type} `{EqDecision K} (k : K) (v : V)
    (d : odict K V) : odict K V :=
  dict_upsert (fun _ => v) k d.

(** [list(d.values())] *)
Definition dict_values {K V : Type} (d : odict K V) : list V := d.*2.

(** [range(0, stop, step)] for a positive [step], and the slices
    [rows[i : i + size] for i in range(0, len(rows), size)]. *)
Definition range_step (stop step : nat) : list nat :=
  (fun q => q * step) <$> seq 0 ((stop + step - 1) / step).

Definition batches {A : Type} (size : nat) (rows : list A) : list (list A) :=
  (fun i => take size (drop i rows)) <$> range_step (length rows) size.

End Py.

(** ** difflib.SequenceMatcher, as [SequenceMatcher(None, a, b)] builds it *)
Module Difflib.

Import Py.

(** A [Match(a, b, size)] triple and a queue entry [(alo, ahi, blo, bhi)]. *)
Definition Match : Type := nat * nat * nat.
Definition region : Type := nat * nat * nat * nat.

Definition size_of (m : Match) : nat := m.2.

(** [isjunk] is [None]: the junk set stays empty. *)
Definition bjunk : gset N := ∅.
Definition isbjunk (c : N) : bool := bool_decide (c ∈ bjunk).

(** [__chain_b]: [b2j] maps each element of [b] to the ascending list of its
    positions; when [b] has 200 elements or more, the elements that occur
    more than [n // 100 + 1] times are deleted from it. *)
Definition index_elements (b : pystr) : gmap N (list nat) :=
  foldl (fun (b2j : gmap N (list nat)) '(i, elt) =>
           <[elt := default [] (b2j !! elt) ++ [i]]> b2j)
        ∅ (imap pair b).

Definition chain_b (b : pystr) : gmap N (list nat) :=
  let b2j := index_elements b in
  let n := length b in
  if 200 <=? n
  then let ntest := n / 100 + 1 in
       filter (fun kv : N * list nat => length kv.2 <= ntest) b2j
  else b2j.

(** [j2lenget(j-1, 0)]: the key [-1] is never present. *)
Definition j2lenget_pred (j2len : gmap nat nat) (j : nat) : nat :=
  match j with
  | O => 0
  | S j' => default 0 (j2len !! j')
  end.

(** The inner loop of [find_longest_match], [for j in b2j.get(a[i], nothing)],
    on the state [(newj2len, (besti, bestj, bestsize))]. *)
Fixpoint scan_row (i blo bhi : nat) (j2len : gmap nat nat) (js : list nat)
    (newj2len : gmap nat nat) (best : Match) : gmap nat nat * Match :=
  match js with
  | [] => (newj2len, best)
  | j :: js' =>
      if j <? blo then scan_row i blo bhi j2len js' newj2len best
      else if bhi <=? j then (newj2len, best)
      else
        let k := j2lenget_pred j2len j + 1 in
        let newj2len := <[j := k]> newj2len in
        let best := if size_of best <? k then (i + 1 - k, j + 1 - k, k) else best in
        scan_row i blo bhi j2len js' newj2len best
  end.

(** One pass of the outer loop, [for i in range(alo, ahi)]. *)
Definition row_step (a : pystr) (b2j : gmap N (list nat)) (blo bhi : nat)
    (st : gmap nat nat * Match) (i : nat) : gmap nat nat * Match :=
  let js := from_option (fun x => default [] (b2j !! x)) [] (a !! i) in
  scan_row i blo bhi st.1 js ∅ st.2.

(** [a[i] == b[j]], both in range. *)
Definition same_at (a b : pystr) (i j : nat) : bool :=
  match a !! i, b !! j with
  | Some x, Some y => (x =? y)%N
  | _, _ => false
  end.

Definition junk_at (b : pystr) (j : nat) : bool :=
  from_option isbjunk false (b !! j).

(** [while besti > alo and bestj > blo and isbjunk(b[bestj-1]) == junk and
    a[besti-1] == b[bestj-1]: besti, bestj, bestsize = besti-1, bestj-1,
    bestsize+1] *)
Fixpoint extend_back (junk : bool) (a b : pystr) (alo blo : nat)
    (besti bestj bestsize : nat) {struct besti} : Match :=
  match besti, bestj with
  | S i', S j' =>
      if (alo <? besti) && (blo <? bestj)
         && Bool.eqb (junk_at b j') junk && same_at a b i' j'
      then extend_back junk a b alo blo i' j' (bestsize + 1)
      else (besti, bestj, bestsize)
  | _, _ => (besti, bestj, bestsize)
  end.

(** [while besti+bestsize < ahi and bestj+bestsize < bhi and
    isbjunk(b[bestj+bestsize]) == junk and
    a[besti+bestsize] == b[bestj+bestsize]: bestsize += 1];
    [room] is [ahi - (besti + bestsize)]. *)
Fixpoint extend_fwd (junk : bool) (a b : pystr) (bhi : nat)
    (besti bestj : nat) (room : nat) (bestsize : nat) : nat :=
  match room with
  | O => bestsize
  | S room' =>
      if (bestj + bestsize <? bhi)
         && Bool.eqb (junk_at b (bestj + bestsize)) junk
         && same_at a b (besti + bestsize) (bestj + bestsize)
      then extend_fwd junk a b bhi besti bestj room' (bestsize + 1)
      else bestsize
  end.

Definition extend (junk : bool) (a b : pystr) (alo ahi blo bhi : nat)
    (m : Match) : Match :=
  let '(besti, bestj, bestsize) := m in
  let '(besti, bestj, bestsize) :=
    extend_back junk a b alo blo besti bestj bestsize in
  (besti, bestj,
   extend_fwd junk a b bhi besti bestj (ahi - (besti + bestsize)) bestsize).

Definition find_longest_match (a b : pystr) (b2j : gmap N (list nat))
    (alo ahi blo bhi : nat) : Match :=
  let st := foldl (row_step a b2j blo bhi) (∅, (alo, blo, 0))
                  (seq alo (ahi - alo)) in
  extend true a b alo ahi blo bhi (extend false a b alo ahi blo bhi st.2).

(** The [while queue] loop of [get_matching_blocks].  The Python list
    [queue] is kept with its last element first, so that [queue.pop()] takes
    the head; [None] when [fuel] passes run out before the queue is empty. *)
Fixpoint blocks_loop (a b : pystr) (b2j : gmap N (list nat)) (fuel : nat)
    (queue : list region) (matching_blocks : list Match)
    : option (list Match) :=
  match queue with
  | [] => Some matching_blocks
  | (alo, ahi, blo, bhi) :: queue =>
      match fuel with
      | O => None
      | S fuel =>
          let x := find_longest_match a b b2j alo ahi blo bhi in
          let '(i, j, k) := x in
          if k =? 0 then blocks_loop a b b2j fuel queue matching_blocks
          else
            let queue :=
              if (alo <? i) && (blo <? j) then (alo, i, blo, j) :: queue
              else queue in
            let queue :=
              if (i + k <? ahi) && (j + k <? bhi)
              then (i + k, ahi, j + k, bhi) :: queue
              else queue in
            blocks_loop a b b2j fuel queue (matching_blocks ++ [x])
      end
  end.

(** The order of [matching_blocks.sort()] on triples. *)
Definition Match_le (x y : Match) : Prop :=
  let '(i1, j1, k1) := x in
  let '(i2, j2, k2) := y in
  i1 < i2 \/ (i1 = i2 /\ (j1 < j2 \/ (j1 = j2 /\ k1 <= k2))).

#[global] Instance Match_le_dec : RelDecision Match_le.
Proof.
  intros [[i1 j1] k1] [[i2 j2] k2]. unfold Match_le. apply _.
Defined.

(** The loop that merges adjacent blocks, on the state
    [((i1, j1, k1), non_adjacent)]. *)
Definition collapse_step (st : Match * list Match) (x : Match)
    : Match * list Match :=
  let '((i1, j1, k1), non_adjacent) := st in
  let '(i2, j2, k2) := x in
  if (i1 + k1 =? i2) && (j1 + k1 =? j2)
  then ((i1, j1, k1 + k2), non_adjacent)
  else ((i2, j2, k2),
        if k1 =? 0 then non_adjacent else non_adjacent ++ [(i1, j1, k1)]).

Definition collapse (la lb : nat) (matching_blocks : list Match) : list Match :=
  let '((i1, j1, k1), non_adjacent) :=
    foldl collapse_step ((0, 0, 0), []) matching_blocks in
  let non_adjacent :=
    if k1 =? 0 then non_adjacent else non_adjacent ++ [(i1, j1, k1)] in
  non_adjacent ++ [(la, lb, 0)].

(** Each pass that finds a block uses up one element of [a], so
    [2 * len(a) + 2] passes empty the queue ([blocks_loop_terminates]). *)
Definition get_matching_blocks (a b : pystr) : option (list Match) :=
  let la := length a in
  let lb := length b in
  blocks ← blocks_loop a b (chain_b b) (2 * la + 2) [(0, la, 0, lb)] [];
  Some (collapse la lb (merge_sort Match_le blocks)).

(** [_calculate_ratio] *)
Definition calculate_ratio (matches length : nat) : Q :=
  if length =? 0 then 1%Q
  else Qred (Z.of_nat (2 * matches) # Pos.of_nat length).

(** [SequenceMatcher(None, a, b).ratio()] *)
Definition ratio (a b : pystr) : Q :=
  let matches := sum_list_with size_of (default [] (get_matching_blocks a b)) in
  calculate_ratio matches (length a + length b).

End Difflib.

Import Py.

(** ** Floats and [max] *)
Module Score.

(** [x > y] on scores. *)
Definition gt (x y : Q) : bool := negb (Qle_bool x y).

(** [max(x, y, z)]: the first of the largest arguments. *)
Definition max3 (x y z : Q) : Q :=
  let m := if gt y x then y else x in
  if gt z m then z else m.

Definition in_unit (x : Q) : Prop := (0 <= x)%Q /\ (x <= 1)%Q.

End Score.

(** ** scripts/load_vancouver_foodies.py *)
Module Foodies.

(** The fifth entry is spelled with the two code points U+00C3 U+00A9 in
    this file. *)
Definition STOPWORDS : gset pystr :=
  list_to_set
    [ str "restaurant"; str "restaurants"; str "bar"; str "cafe";
      str "caf" ++ [195%N; 169%N]; str "bistro"; str "kitchen"; str "grill";
      str "grille"; str "pub"; str "the"; str "and"; str "&"; str "lounge";
      str "house"; str "eatery" ].

Definition normalize_name (text : pystr) : pystr :=
  let text := lower text in
  let text := replace_char 38 (str " and ") text in
  let text := re_sub_class not_alnum_space (str " ") text in
  let tokens :=
    filter (fun t => t <> [] /\ t ∉ STOPWORDS) (split text) in
  join (str " ") tokens.

Definition tokenize_name (text : pystr) : list pystr :=
  split (normalize_name text).

Definition similarity (a b : pystr) : Q := Difflib.ratio a b.

Definition prefix_match_score (a_tokens b_tokens : list pystr) : Q :=
  if bool_decide (a_tokens = []) || bool_decide (b_tokens = []) then 0%Q
  else
    let a_prefix := take 3 a_tokens in
    let b_prefix := take 3 b_tokens in
    if bool_decide (a_prefix = b_prefix) && (2 <=? length a_prefix)
    then (93 # 100)%Q
    else if (2 <=? length a_tokens) && (2 <=? length b_tokens)
            && bool_decide (take 2 a_tokens = take 2 b_tokens)
    then (9 # 10)%Q
    else 0%Q.

Definition token_overlap_score (a_tokens b_tokens : list pystr) : Q :=
  if (length a_tokens <? 2) || (length b_tokens <? 2) then 0%Q
  else
    let overlap : gset pystr := list_to_set a_tokens ∩ list_to_set b_tokens in
    let ratio :=
      (Z.of_nat (size overlap)
       # Pos.of_nat (length a_tokens `min` length b_tokens))%Q in
    if Qle_bool (3 # 4) ratio then (9 # 10)%Q else 0%Q.

(** A card of [parse_listing_cards]. *)
Record listing : Type := Listing {
  name : pystr;
  url : pystr;
  badges : list pystr;
  halal_certified : bool;
  alcohol_served : bool
}.

(** A value of a decoded JSON row of [match_overrides]. *)
Inductive json : Type :=
  | JNull
  | JBool (b : bool)
  | JNumber (n : Z)
  | JString (s : pystr).

Inductive exn : Type :=
  | KeyError (key : pystr)
  | AttributeError.

Inductive result (A : Type) : Type :=
  | Ok (x : A)
  | Raise (e : exn).
Arguments Ok {A} x.
Arguments Raise {A} e.

Definition bind {A B : Type} (r : result A) (f : A -> result B) : result B :=
  match r with
  | Ok x => f x
  | Raise e => Raise e
  end.

(** [row[key].strip().lower()]: [KeyError] without the key, [AttributeError]
    on a value that is not a string. *)
Definition field_key (row : gmap pystr json) (key : pystr) : result pystr :=
  match row !! key with
  | None => Raise (KeyError key)
  | Some (JString s) => Ok (lower (strip s))
  | Some _ => Raise AttributeError
  end.

(** The loop of [fetch_overrides] over the decoded rows; the right-hand side
    of the assignment is evaluated before the subscript. *)
Fixpoint fetch_overrides_from (overrides : gmap pystr pystr)
    (rows : list (gmap pystr json)) : result (gmap pystr pystr) :=
  match rows with
  | [] => Ok overrides
  | row :: rows =>
      bind (field_key row (str "vancouverfoodies_name")) (fun target =>
      bind (field_key row (str "dineout_name")) (fun key =>
      fetch_overrides_from (<[key := target]> overrides) rows))
  end.

Definition fetch_overrides (rows : list (gmap pystr json))
    : result (gmap pystr pystr) :=
  fetch_overrides_from ∅ rows.

(** The score the last loop of [match_listing] gives to a pair of names. *)
Definition pair_score (dineout_name listing_name : pystr) : Q :=
  let dineout_norm := normalize_name dineout_name in
  let dineout_tokens := tokenize_name dineout_name in
  let norm := normalize_name listing_name in
  let listing_tokens := tokenize_name listing_name in
  let score := similarity dineout_norm norm in
  Score.max3 score (prefix_match_score dineout_tokens listing_tokens)
             (token_overlap_score dineout_tokens listing_tokens).

Definition fuzzy_score (dineout_name : pystr) (l : listing) : Q :=
  pair_score dineout_name (name l).

(** One pass of that loop on [(best, best_score)]. *)
Definition fuzzy_step (dineout_name : pystr) (st : option listing * Q)
    (l : listing) : option listing * Q :=
  let score := fuzzy_score dineout_name l in
  if Score.gt score st.2 then (Some l, score) else st.

(** The override lookup at the head of [match_listing]. *)
Definition override_hit (dineout_name : pystr) (listings : list listing)
    (overrides : gmap pystr pystr) : option listing :=
  let override_key := lower (strip dineout_name) in
  match overrides !! override_key with
  | Some target =>
      find (fun l => bool_decide (lower (strip (name l)) = target)) listings
  | None => None
  end.

Definition match_listing (dineout_name : pystr) (listings : list listing)
    (overrides : gmap pystr pystr) : option listing * Q * string :=
  match override_hit dineout_name listings overrides with
  | Some l => (Some l, 1%Q, "override"%string)
  | None =>
      let dineout_norm := normalize_name dineout_name in
      match find (fun l => bool_decide (dineout_norm <> [])
                           && bool_decide (dineout_norm = normalize_name (name l)))
                 listings with
      | Some l => (Some l, (19 # 20)%Q, "exact"%string)
      | None =>
          let '(best, best_score) :=
            foldl (fuzzy_step dineout_name) (None, 0%Q) listings in
          (best, best_score, "fuzzy"%string)
      end
  end.

(** The tail of [fetch_all_listings], from the cards parsed on each page it
    fetched: [listings] is the first page extended by the others, and
    [unique_by_url] keeps one card for each url. *)
Definition fetch_all_listings (pages : list (list listing)) : list listing :=
  let listings := concat pages in
  let unique_by_url :=
    foldl (fun d l => dict_set (url l) l d) ([] : odict pystr listing)
          listings in
  dict_values unique_by_url.

(** A row of [fetch_restaurants], with the columns [main] reads. *)
Record restaurant : Type := MkRestaurant {
  restaurant_id : pystr;
  restaurant_name : pystr
}.

(** A row of [halal_sources]; its [confidence], [round(score, 3)], is left
    out. *)
Record source_row : Type := SourceRow {
  row_restaurant_id : pystr;
  row_source_name : pystr;
  row_source_url : pystr;
  row_status : pystr;
  row_evidence_snippet : pystr
}.

(** [matched], [unmatched] and [rows] of [main]. *)
Record main_state : Type := MainState {
  matched : nat;
  unmatched : list (pystr * Q);
  rows : list source_row
}.

Definition evidence_of (l : listing) : pystr :=
  let evidence := str "Vancouver Foodies listing" in
  match badges l with
  | [] => evidence
  | _ :: _ => evidence ++ str ": " ++ join (str "; ") (badges l)
  end.

(** One pass of the loop [for restaurant in restaurants]; a card is a
    [dict] with five keys, so [not listing] holds for [None] only, and
    [score < threshold] is [threshold > score]. *)
Definition main_step (threshold : Q) (listings : list listing)
    (overrides : gmap pystr pystr) (st : main_state) (r : restaurant)
    : main_state :=
  let '(found, score, match_type) :=
    match_listing (restaurant_name r) listings overrides in
  let skipped :=
    {| matched := matched st;
       unmatched := unmatched st ++ [(restaurant_name r, score)];
       rows := rows st |} in
  match found with
  | None => skipped
  | Some l =>
      if Score.gt threshold score then skipped
      else
        {| matched := matched st + 1;
           unmatched := unmatched st;
           rows := rows st ++
             [ {| row_restaurant_id := restaurant_id r;
                  row_source_name := str "Vancouver Foodies";
                  row_source_url := url l;
                  row_status :=
                    if halal_certified l then str "halal_certified"
                    else str "halal_listed";
                  row_evidence_snippet := evidence_of l |} ] |}
  end.

Definition main_loop (threshold : Q) (listings : list listing)
    (overrides : gmap pystr pystr) (restaurants : list restaurant)
    : main_state :=
  foldl (main_step threshold listings overrides)
        {| matched := 0; unmatched := []; rows := [] |} restaurants.

(** The batches [upsert_halal_sources] posts when no request fails. *)
Definition upsert_halal_sources (rows : list source_row)
    : list (list source_row) :=
  batches 100 rows.

End Foodies.

(** ** scripts/load_google_maps_list.py *)
Module MapsList.

Definition STOPWORDS : gset pystr :=
  list_to_set
    [ str "restaurant"; str "restaurants"; str "bar"; str "cafe";
      str "caf" ++ [233%N]; str "bistro"; str "kitchen"; str "grill";
      str "grille"; str "pub"; str "the"; str "and"; str "&"; str "lounge";
      str "house"; str "eatery" ].

Definition normalize_name (text : pystr) : pystr :=
  let text := lower text in
  let text := replace_char 38 (str " and ") text in
  let text := re_sub_class not_alnum_space (str " ") text in
  let tokens :=
    filter (fun t => t <> [] /\ t ∉ STOPWORDS) (split text) in
  join (str " ") tokens.

Definition tokenize_name (text : pystr) : list pystr :=
  split (normalize_name text).

(** [similarity], [prefix_match_score] and [token_overlap_score] have the
    text they have in load_vancouver_foodies.py. *)
Definition similarity := Foodies.similarity.
Definition prefix_match_score := Foodies.prefix_match_score.
Definition token_overlap_score := Foodies.token_overlap_score.

(** A row of [fetch_restaurants]. *)
Record restaurant : Type := Restaurant {
  id : pystr;
  name : pystr
}.

(** The score the loop of [match_name] gives to a pair of names. *)
Definition pair_score (target cand_name : pystr) : Q :=
  let target_norm := normalize_name target in
  let target_tokens := tokenize_name target in
  let cand_norm := normalize_name cand_name in
  let cand_tokens := tokenize_name cand_name in
  let score := similarity target_norm cand_norm in
  Score.max3 score (prefix_match_score target_tokens cand_tokens)
             (token_overlap_score target_tokens cand_tokens).

(** The loop of [match_name] on [(best, best_score)], with its early
    return. *)
Fixpoint match_name_from (target : pystr) (best : option restaurant)
    (best_score : Q) (candidates : list restaurant)
    : option restaurant * Q :=
  match candidates with
  | [] => (best, best_score)
  | cand :: candidates =>
      if bool_decide (normalize_name (name cand) = normalize_name target)
      then (Some cand, (19 # 20)%Q)
      else
        let score := pair_score target (name cand) in
        if Score.gt score best_score
        then match_name_from target (Some cand) score candidates
        else match_name_from target best best_score candidates
  end.

Definition match_name (target : pystr) (candidates : list restaurant)
    : option restaurant * Q :=
  if bool_decide (normalize_name target = []) then (None, 0%Q)
  else match_name_from target None 0%Q candidates.

(** The loop of [main] that fills [unique_names], on
    [(unique_names, seen)]. *)
Definition unique_names_step (st : list pystr * gset pystr) (name : pystr)
    : list pystr * gset pystr :=
  let key := lower name in
  if bool_decide (key ∈ st.2) then st
  else (st.1 ++ [name], {[key]} ∪ st.2).

Definition unique_names (names : list pystr) : list pystr :=
  (foldl unique_names_step ([], ∅) names).1.

Definition SOURCE_NAME : pystr := str "Google Maps List".

(** A row of [halal_sources]; its [source_url] is [None], and its
    [confidence], [round(score, 3)], is left out. *)
Record source_row : Type := SourceRow {
  row_restaurant_id : pystr;
  row_source_name : pystr;
  row_status : pystr;
  row_evidence_snippet : pystr
}.

(** [matched], [unmatched] and [rows] of [main]. *)
Record main_state : Type := MainState {
  matched : nat;
  unmatched : list (Q * pystr * option pystr);
  rows : list source_row
}.

(** One pass of the loop [for name in unique_names]; a restaurant is a
    [dict] with two keys, so [not match] holds for [None] only, and
    [score < threshold] is [threshold > score]. *)
Definition main_step (threshold : Q) (restaurants : list restaurant)
    (st : main_state) (list_name : pystr) : main_state :=
  let '(found, score) := match_name list_name restaurants in
  let skipped :=
    {| matched := matched st;
       unmatched := unmatched st ++ [(score, list_name, name <$> found)];
       rows := rows st |} in
  match found with
  | None => skipped
  | Some m =>
      if Score.gt threshold score then skipped
      else
        {| matched := matched st + 1;
           unmatched := unmatched st;
           rows := rows st ++
             [ {| row_restaurant_id := id m;
                  row_source_name := SOURCE_NAME;
                  row_status := str "halal_listed";
                  row_evidence_snippet := str "Google Maps list import" |} ] |}
  end.

Definition main_loop (threshold : Q) (names : list pystr)
    (restaurants : list restaurant) : main_state :=
  foldl (main_step threshold restaurants)
        {| matched := 0; unmatched := []; rows := [] |} (unique_names names).


(** The batches [upsert_halal_sources] posts when no request fails. *)
Definition upsert_halal_sources (rows : list source_row)
    : list (list source_row) :=
  batches 50 rows.

End MapsList.

(** ** scripts/update_google_maps_from_html.py *)
Module MapsHtml.

Definition STOPWORDS : gset pystr := MapsList.STOPWORDS.

(** The class [[\x00-\x1f\x7f]]. *)
Definition control_char (c : N) : bool := in_range 0 31 c || (c =? 127)%N.

Definition clean_text (value : pystr) : pystr :=
  if bool_decide (value = []) then value
  else strip (re_sub_class control_char [] value).

Definition normalize_name (text : pystr) : pystr :=
  let text := lower (clean_text text) in
  let text := replace_char 38 (str " and ") text in
  let text := re_sub_class not_alnum_space (str " ") text in
  let tokens :=
    filter (fun t => t <> [] /\ t ∉ STOPWORDS) (split text) in
  join (str " ") tokens.

(** The class [[^a-zA-Z0-9]]. *)
Definition not_alnum (c : N) : bool :=
  negb (in_range 97 122 c || in_range 65 90 c || in_range 48 57 c).

Definition is_dash (c : N) : bool := (c =? 45)%N.

Definition slugify (value : pystr) : pystr :=
  let cleaned := re_sub_runs not_alnum (str "-") (lower (strip value)) in
  let cleaned := strip_of is_dash (re_sub_runs is_dash (str "-") cleaned) in
  if bool_decide (cleaned = []) then str "restaurant" else cleaned.

(** The [while True] loop of [unique_slug], from [counter] on; [None] when
    [fuel] candidates were all taken. *)
Fixpoint unique_slug_from (base : pystr) (existing : gset pystr)
    (fuel counter : nat) : option pystr :=
  match fuel with
  | O => None
  | S fuel =>
      let candidate := base ++ str "-" ++ decimal counter in
      if bool_decide (candidate ∉ existing) then Some candidate
      else unique_slug_from base existing fuel (counter + 1)
  end.

(** One more candidate than [existing] has elements is enough
    ([unique_slug_total]). *)
Definition unique_slug (base : pystr) (existing : gset pystr) : option pystr :=
  if bool_decide (base ∉ existing) then Some base
  else unique_slug_from base existing (size existing + 1) 2.

(** A row of [fetch_existing], with the columns [main] reads. *)
Record existing_row : Type := ExistingRow {
  row_id : pystr;
  row_name : pystr;
  row_slug : option pystr
}.

(** An entry of [parse_list_entries]. *)
Record entry : Type := Entry {
  entry_name : pystr;
  normalized : pystr;
  rating : option Q;
  reviews_count : option Z;
  price : option pystr;
  category_name : option pystr;
  image_url : option pystr;
  permanently_closed : bool
}.

(** The [payload] of a matched update. *)
Record payload : Type := Payload {
  payload_category_name : option pystr;
  payload_price : option pystr;
  payload_rating : option Q;
  payload_reviews_count : option Z;
  payload_image_url : option pystr;
  payload_permanently_closed : bool
}.

Definition payload_of (e : entry) : payload :=
  {| payload_category_name := category_name e;
     payload_price := price e;
     payload_rating := rating e;
     payload_reviews_count := reviews_count e;
     payload_image_url := image_url e;
     payload_permanently_closed := permanently_closed e |}.

(** A row of [new_rows]; its [temporarily_closed] is always [None], and its
    [scraped_at], the time of the run, is left out. *)
Record new_row : Type := NewRow {
  new_name : pystr;
  new_slug : pystr;
  new_fields : payload;
  new_source : pystr
}.

(** The first loop of [main]: [existing_by_key] and [slugs_in_use]. *)
Definition index_step (st : gmap pystr (list existing_row) * gset pystr)
    (row : existing_row) : gmap pystr (list existing_row) * gset pystr :=
  let key := normalize_name (row_name row) in
  (<[key := default [] (st.1 !! key) ++ [row]]> st.1,
   match row_slug row with
   | Some slug => if bool_decide (slug = []) then st.2 else {[slug]} ∪ st.2
   | None => st.2
   end).

Definition index_existing (existing : list existing_row)
    : gmap pystr (list existing_row) * gset pystr :=
  foldl index_step (∅, ∅) existing.

(** The lists [main] fills, and [slugs_in_use]. *)
Record plan : Type := Plan {
  matched_updates : list (pystr * payload);
  new_rows : list new_row;
  ambiguous : list (pystr * list pystr);
  slugs_in_use : gset pystr
}.

(** One pass of the loop [for entry in entries]. *)
Definition plan_step (existing_by_key : gmap pystr (list existing_row))
    (st : plan) (e : entry) : option plan :=
  let key := normalized e in
  let matches := default [] (existing_by_key !! key) in
  match matches with
  | [] =>
      slug ← unique_slug (slugify (entry_name e)) (slugs_in_use st);
      Some {| matched_updates := matched_updates st;
              new_rows := new_rows st ++
                [ {| new_name := entry_name e;
                     new_slug := slug;
                     new_fields := payload_of e;
                     new_source := str "google_maps_list_html" |} ];
              ambiguous := ambiguous st;
              slugs_in_use := {[slug]} ∪ slugs_in_use st |}
  | [m] =>
      Some {| matched_updates :=
                matched_updates st ++ [(row_id m, payload_of e)];
              new_rows := new_rows st;
              ambiguous := ambiguous st;
              slugs_in_use := slugs_in_use st |}
  | _ :: _ :: _ =>
      Some {| matched_updates := matched_updates st;
              new_rows := new_rows st;
              ambiguous := ambiguous st ++ [(entry_name e, row_name <$> matches)];
              slugs_in_use := slugs_in_use st |}
  end.

Fixpoint plan_loop (existing_by_key : gmap pystr (list existing_row))
    (st : plan) (entries : list entry) : option plan :=
  match entries with
  | [] => Some st
  | e :: entries =>
      st ← plan_step existing_by_key st e;
      plan_loop existing_by_key st entries
  end.

(** [main], from [existing] and [entries] to the lists it prints and
    writes. *)
Definition plan_updates (existing : list existing_row) (entries : list entry)
    : option plan :=
  let '(existing_by_key, slugs_in_use) := index_existing existing in
  plan_loop existing_by_key
    {| matched_updates := []; new_rows := []; ambiguous := [];
       slugs_in_use := slugs_in_use |}
    entries.

(** [parse_price_and_category]; the separator is U+00B7. *)
Definition parse_price_and_category (info_line : pystr)
    : option pystr * option pystr :=
  if bool_decide (info_line = []) then (None, None)
  else if contains (str "Permanently closed") info_line then (None, None)
  else
    let parts :=
      filter (fun part => part <> []) (strip <$> split_on 183 info_line) in
    foldl (fun (st : option pystr * option pystr) part =>
             if contains (str "$") part then (Some part, st.2)
             else (st.1, Some part))
          (None, None) parts.

(** [value or 0] on a review count, and the truth value of an optional
    text. *)
Definition reviews_or_0 (e : entry) : Z := default 0%Z (reviews_count e).

Definition has_text (value : option pystr) : bool :=
  match value with
  | Some (_ :: _) => true
  | _ => false
  end.

(** The body of the loop of [consolidate_entries] for a key that [merged]
    holds: [current] afterwards.  [current.update(entry)] sets every key of
    [current], since the two hold the same keys. *)
Definition merge_entry (current e : entry) : entry :=
  if (reviews_or_0 current <? reviews_or_0 e)%Z then e
  else
    {| entry_name := entry_name current;
       normalized := normalized current;
       rating := rating current;
       reviews_count := reviews_count current;
       price :=
         if negb (has_text (price current)) && has_text (price e)
         then price e else price current;
       category_name :=
         if negb (has_text (category_name current))
            && has_text (category_name e)
         then category_name e else category_name current;
       image_url :=
         if negb (has_text (image_url current)) && has_text (image_url e)
         then image_url e else image_url current;
       permanently_closed :=
         if permanently_closed e then true else permanently_closed current |}.

Definition consolidate_step (merged : odict pystr entry) (e : entry)
    : odict pystr entry :=
  let key := normalized e in
  if bool_decide (key = []) then merged
  else
    dict_upsert (fun current =>
                   match current with
                   | None => e
                   | Some current => merge_entry current e
                   end) key merged.

Definition consolidate_entries (entries : list entry) : list entry :=
  dict_values (foldl consolidate_step [] entries).

(** The batches [upsert_rows] posts when no request fails. *)
Definition upsert_rows (rows : list new_row) : list (list new_row) :=
  batches 100 rows.

End MapsHtml.

(** * Vocabulary of the properties *)

(** ** Blocks and regions of difflib *)
Section BlockVocabulary.

Import Difflib.

(** A block that lies inside [a[alo:top]] and [b[blo:bhi]]. *)
Definition block_within (alo top blo bhi : nat) (m : Match) : Prop :=
  alo <= m.1.1 /\ m.1.1 + m.2 <= top /\ blo <= m.1.2 /\ m.1.2 + m.2 <= bhi.

(** Every run length recorded in a [j2len] after [n] rows. *)
Definition lens_within (blo bhi n : nat) (j2len : gmap nat nat) : Prop :=
  forall j k, j2len !! j = Some k -> k <= n /\ blo + k <= j + 1 /\ j < bhi.

(** What a queue entry can still contribute, and the passes it can cost. *)
Definition region_ok (r : region) : Prop :=
  let '(alo, ahi, blo, bhi) := r in alo <= ahi /\ blo <= bhi.
Definition span_a (r : region) : nat := let '(alo, ahi, _, _) := r in ahi - alo.
Definition span_b (r : region) : nat := let '(_, _, blo, bhi) := r in bhi - blo.
Definition passes (r : region) : nat := 2 * span_a r + 1.

(** The positions of [x] in [b], ascending. *)
Definition positions (x : N) (b : pystr) : list nat :=
  filter (fun j => b !! j = Some x) (seq 0 (length b)).

(** A block whose characters agree, position by position. *)
Definition block_matches (a b : pystr) (m : Match) : Prop :=
  forall t, t < m.2 -> same_at a b (m.1.1 + t) (m.1.2 + t) = true.

(** Every run recorded in a [j2len] for the rows before [iend] is a run of
    equal characters that ends at its column. *)
Definition lens_sound (a b : pystr) (iend : nat) (j2len : gmap nat nat) : Prop :=
  forall j k, j2len !! j = Some k ->
    k <= iend /\ k <= j + 1 /\ block_matches a b (iend - k, j + 1 - k, k).

(** [a[lo:hi]] *)
Definition segment (s : pystr) (lo hi : nat) : pystr :=
  take (hi - lo) (drop lo s).

Definition region_agrees (a b : pystr) (r : region) : Prop :=
  let '(alo, ahi, blo, bhi) := r in segment a alo ahi = segment b blo bhi.

Definition b2j_sound (b : pystr) (b2j : gmap N (list nat)) : Prop :=
  forall x js j, b2j !! x = Some js -> j ∈ js -> b !! j = Some x.

(** [a[i]] is a key of [b2j]. *)
Definition indexed_at (a : pystr) (b2j : gmap N (list nat)) (i : nat) : bool :=
  match a !! i with
  | Some x => bool_decide (is_Some (b2j !! x))
  | None => false
  end.

(** The length of the run of indexed characters of [a] that ends just
    before position [n]. *)
Fixpoint run_upto (a : pystr) (b2j : gmap N (list nat)) (n : nat) : nat :=
  match n with
  | O => 0
  | S n' => if indexed_at a b2j n' then run_upto a b2j n' + 1 else 0
  end.

(** A [j2len] of [a] against itself for the rows before [iend]: no run is
    longer than the runs of indexed characters that end at its row and at
    its column, and the diagonal holds the whole run. *)
Definition row_exact (a : pystr) (b2j : gmap N (list nat)) (iend : nat)
    (j2len : gmap nat nat) : Prop :=
  (forall j k, j2len !! j = Some k ->
     k <= run_upto a b2j iend /\ k <= run_upto a b2j (j + 1)) /\
  (0 < run_upto a b2j iend ->
   j2len !! (iend - 1) = Some (run_upto a b2j iend)).

(** A best block on the diagonal that is as long as every run that ends
    before [iend]. *)
Definition best_diagonal (a : pystr) (b2j : gmap N (list nat)) (iend : nat)
    (best : Match) : Prop :=
  best.1.1 = best.1.2 /\
  forall i, i < iend -> run_upto a b2j (i + 1) <= best.2.

End BlockVocabulary.

(** ** The loop that keeps the best score *)

(** One pass of a loop that keeps the first element with the largest score
    seen so far; [Foodies.fuzzy_step] is this loop for [Foodies.fuzzy_score]. *)
Definition keep_best {A : Type} (score : A -> Q) (st : option A * Q) (x : A)
    : option A * Q :=
  if Score.gt (score x) st.2 then (Some x, score x) else st.


(** ** Overrides *)
Section OverrideVocabulary.

Import Foodies.

(** The key under which a name is looked up and compared in the override
    step. *)
Definition override_key (s : pystr) : pystr := lower (strip s).

(** The entry a row stands for, when it holds both names as strings. *)
Definition row_entry (row : gmap pystr json) : option (pystr * pystr) :=
  match row !! str "dineout_name", row !! str "vancouverfoodies_name" with
  | Some (JString key), Some (JString target) =>
      Some (lower (strip key), lower (strip target))
  | _, _ => None
  end.

Definition insert_entry (overrides : gmap pystr pystr) (kv : pystr * pystr)
    : gmap pystr pystr :=
  <[kv.1 := kv.2]> overrides.

End OverrideVocabulary.

(** ** The keyed catalog *)
Section CatalogVocabulary.

Import MapsHtml.

(** The candidate [f"{base}-{counter}"] of [unique_slug]. *)
Definition candidate (base : pystr) (counter : nat) : pystr :=
  base ++ str "-" ++ decimal counter.

(** The rows of [existing] that share the normalized name of an entry. *)
Definition same_key_rows (existing : list existing_row) (e : entry)
    : list existing_row :=
  filter (fun row => normalize_name (row_name row) = normalized e) existing.

(** What an entry adds to [ambiguous], to [matched_updates] and to
    [new_rows] (by name). *)
Definition ambiguous_of (existing : list existing_row) (e : entry)
    : option (pystr * list pystr) :=
  let rows := same_key_rows existing e in
  if 1 <? length rows then Some (entry_name e, row_name <$> rows) else None.

Definition update_of (existing : list existing_row) (e : entry)
    : option (pystr * payload) :=
  match same_key_rows existing e with
  | [m] => Some (row_id m, payload_of e)
  | _ => None
  end.

Definition insert_of (existing : list existing_row) (e : entry)
    : option pystr :=
  match same_key_rows existing e with
  | [] => Some (entry_name e)
  | _ => None
  end.

End CatalogVocabulary.

(** ** Inputs of the examples *)
Section Examples.

Import Foodies.

Definition plain_listing (listing_name : pystr) : listing :=
  {| name := listing_name;
     url := [];
     badges := [];
     halal_certified := false;
     alcohol_served := false |}.

Definition the_bar : pystr := str "The Bar".

Definition the_restaurant : listing :=
  {| name := str "The Restaurant";
     url := str "https://vancouverfoodies.ca/listing/the-restaurant/";
     badges := [];
     halal_certified := false;
     alcohol_served := false |}.

Definition joes_cafe_and_grill : pystr :=
  str "Joe's Caf" ++ [233%N] ++ str " & Grill".

Definition kebab_downtown : pystr := str "Kebab House Downtown".
Definition kebab_main_st : pystr := str "Kebab House Main St".

Definition good_row : gmap pystr json :=
  {[ str "dineout_name" := JString (str "Sula Indian Restaurant");
     str "vancouverfoodies_name" := JString (str "Sula") ]}.

Definition null_row : gmap pystr json :=
  {[ str "dineout_name" := JString (str "Nuba");
     str "vancouverfoodies_name" := JNull ]}.






End Examples.

(** ** The normalizer *)
Section NormalizerVocabulary.

Import Py.

(** A character of [[a-z0-9]]. *)
Definition lower_alnum (c : N) : bool := in_range 97 122 c || in_range 48 57 c.

(** A token: not empty, without a space. *)
Definition is_token (t : pystr) : Prop :=
  t <> [] /\ Forall (fun c => is_space c = false) t.

(** The tokens of [normalize_name] before the stop-words are dropped, from
    the lower-cased text on. *)
Definition raw_tokens (text : pystr) : list pystr :=
  split (re_sub_class not_alnum_space (str " ")
           (replace_char 38 (str " and ") text)).

(** A character that [normalize_name] leaves as it is. *)
Definition plain_char (c : N) : Prop := lower_alnum c = true \/ c = 32%N.

(** A token of [normalize_name]: not empty, of characters of [[a-z0-9]]. *)
Definition alnum_token (t : pystr) : Prop :=
  t <> [] /\ Forall (fun c => lower_alnum c = true) t.

(** [normalize_name] for a set of stop-words, from the lower-cased text. *)
Definition kept_tokens (stop : gset pystr) (text : pystr) : list pystr :=
  filter (fun t => t <> [] /\ t ∉ stop) (raw_tokens text).

(** The text [normalize_name] splits. *)
Definition prepared (text : pystr) : pystr :=
  re_sub_class not_alnum_space (str " ")
    (replace_char 38 (str " and ") (lower text)).

End NormalizerVocabulary.

(** ** Ordered dicts *)


(** The distinct elements of a list, each at the place where it comes
    first. *)
Fixpoint first_seen {K : Type} `{EqDecision K} (l : list K) : list K :=
  match l with
  | [] => []
  | k :: l => k :: filter (fun k' => k' <> k) (first_seen l)
  end.

(** [x] is the last element of [l] with its key, and the first one. *)
Definition last_of_key {A K : Type} (key : A -> K) (l : list A) (x : A) : Prop :=
  exists pre post, l = pre ++ x :: post /\ Forall (fun y => key y <> key x) post.


(** The loop [for x in l: d[key(x)] = x], from the dict [d]. *)
Definition keyed_last {A K : Type} `{EqDecision K} (key : A -> K)
    (d : odict K A) (l : list A) : odict K A :=
  foldl (fun d x => dict_set (key x) x d) d l.

(** Every item of the dict is filed under its own key. *)
Definition well_keyed {A K : Type} (key : A -> K) (d : odict K A) : Prop :=
  NoDup d.*1 /\ Forall (fun kv => kv.1 = key kv.2) d.

(** ** The loops of the two [main]s *)



(** The listing a restaurant is matched with, when the score reaches the
    threshold, and the row written for the pair. *)
Definition accepted_listing (threshold : Q) (listings : list Foodies.listing)
    (overrides : gmap pystr pystr) (r : Foodies.restaurant)
    : option (Foodies.restaurant * Foodies.listing) :=
  match Foodies.match_listing (Foodies.restaurant_name r) listings overrides with
  | (Some l, score, _) => if Score.gt threshold score then None else Some (r, l)
  | (None, _, _) => None
  end.

Definition foodies_row (rl : Foodies.restaurant * Foodies.listing)
    : Foodies.source_row :=
  {| Foodies.row_restaurant_id := Foodies.restaurant_id rl.1;
     Foodies.row_source_name := str "Vancouver Foodies";
     Foodies.row_source_url := Foodies.url rl.2;
     Foodies.row_status :=
       if Foodies.halal_certified rl.2 then str "halal_certified"
       else str "halal_listed";
     Foodies.row_evidence_snippet := Foodies.evidence_of rl.2 |}.


(** ** Consolidated entries *)

(** The entries filed under a key, in order, and the left fold of
    [merge_entry] over them. *)
Definition entries_of_key (key : pystr) (entries : list MapsHtml.entry)
    : list MapsHtml.entry :=
  filter (fun e => MapsHtml.normalized e = key) entries.

Definition merged_of (entries : list MapsHtml.entry) (key : pystr)
    : option MapsHtml.entry :=
  match entries_of_key key entries with
  | [] => None
  | e :: es => Some (foldl MapsHtml.merge_entry e es)
  end.

(** The non-empty keys of a list of entries, in order of first
    appearance. *)
Definition entry_keys (entries : list MapsHtml.entry) : list pystr :=
  first_seen (filter (fun k => k <> []) (MapsHtml.normalized <$> entries)).

(** The fields of an entry that only [current.update(entry)] changes. *)
Definition entry_core (e : MapsHtml.entry) : pystr * option Q * option Z :=
  (MapsHtml.entry_name e, MapsHtml.rating e, MapsHtml.reviews_count e).

(** What [dict_upsert] is given in [consolidate_step]. *)
Definition merge_into (e : MapsHtml.entry) (current : option MapsHtml.entry)
    : MapsHtml.entry :=
  match current with
  | None => e
  | Some current => MapsHtml.merge_entry current e
  end.

(** ** Slugs *)

(** A character of a slug: of [[a-z0-9]], or a dash. *)
Definition slug_char (c : N) : bool := lower_alnum c || (c =? 45)%N.

(** The shape of a slug: not empty, of slug characters, without a dash at
    either end and without two dashes in a row. *)
Definition slug_shaped (s : pystr) : Prop :=
  s <> [] /\ Forall (fun c => slug_char c = true) s /\
  startswith (str "-") s = false /\ startswith (str "-") (rev s) = false /\
  contains (str "--") s = false.

(** The slugs of the rows of the catalog that have one. *)
Definition slugs_of (existing : list MapsHtml.existing_row) : list pystr :=
  omap (fun row => match MapsHtml.row_slug row with
                   | Some (c :: slug) => Some (c :: slug)
                   | _ => None
                   end) existing.

(** What the loop of [main] keeps true of the slugs it hands out. *)
Definition slugs_fresh (taken0 : gset pystr) (st : MapsHtml.plan) : Prop :=
  NoDup (MapsHtml.new_slug <$> MapsHtml.new_rows st)
  /\ (forall slug, slug ∈ MapsHtml.slugs_in_use st
        <-> slug ∈ taken0 \/ slug ∈ MapsHtml.new_slug <$> MapsHtml.new_rows st)
  /\ Forall (fun row =>
               (MapsHtml.new_slug row ∉ taken0) /\
               (MapsHtml.new_slug row = MapsHtml.slugify (MapsHtml.new_name row)
                \/ exists n, 2 <= n /\
                     MapsHtml.new_slug row = candidate (MapsHtml.slugify (MapsHtml.new_name row)) n))
            (MapsHtml.new_rows st).

(** ** A small catalog *)

Definition zab_rows : list MapsHtml.existing_row :=
  [ {| MapsHtml.row_id := str "17";
       MapsHtml.row_name := str "Zab Bite";
       MapsHtml.row_slug := Some (str "zab-bite") |};
    {| MapsHtml.row_id := str "18";
       MapsHtml.row_name := str "Mumbai Local";
       MapsHtml.row_slug := None |} ].

Definition list_entry (entry_name : pystr) (reviews : option Z)
    : MapsHtml.entry :=
  {| MapsHtml.entry_name := entry_name;
     MapsHtml.normalized := MapsHtml.normalize_name entry_name;
     MapsHtml.rating := None;
     MapsHtml.reviews_count := reviews;
     MapsHtml.price := None;
     MapsHtml.category_name := None;
     MapsHtml.image_url := None;
     MapsHtml.permanently_closed := false |}.

Definition zab_entries : list MapsHtml.entry :=
  [ list_entry (str "Zab Bite") (Some 12%Z);
    list_entry (str "ZAB BITE") (Some 40%Z);
    list_entry (str "Tamam") None ].

(** ** The info line of a list entry *)

(** The parts of an info line: the pieces between the middle dots,
    stripped, without the empty ones. *)
Definition info_parts (info_line : pystr) : list pystr :=
  filter (fun part => part <> []) (strip <$> split_on 183 info_line).

(** ["$" in part] *)
Definition has_dollar (part : pystr) : Prop := contains (str "$") part = true.

(** A line without a price and a category. *)
Definition no_info (info_line : pystr) : Prop :=
  info_line = [] \/ contains (str "Permanently closed") info_line = true.

(** ** Restaurants of the examples *)

Definition tide_restaurants : list MapsList.restaurant :=
  [ {| MapsList.id := str "1"; MapsList.name := str "diet" |};
    {| MapsList.id := str "2"; MapsList.name := str "tied" |};
    {| MapsList.id := str "3"; MapsList.name := str "tidy" |} ].

(** ** Blocks inside the two strings *)

(** A block of equal characters that lies inside [a] and [b]. *)
Definition block_ok (a b : pystr) (m : Difflib.Match) : Prop :=
  block_matches a b m /\ m.1.1 + m.2 <= length a /\ m.1.2 + m.2 <= length b.

(** A queue entry that lies inside [a] and [b]. *)
Definition region_in (a b : pystr) (r : Difflib.region) : Prop :=
  let '(alo, ahi, blo, bhi) := r in
  alo <= ahi /\ ahi <= length a /\ blo <= bhi /\ bhi <= length b.

(** ** Two names that share their first two tokens *)

Definition kebab_town : Foodies.restaurant :=
  {| Foodies.restaurant_id := str "42";
     Foodies.restaurant_name := str "Kebab Town Downtown" |}.

Definition kebab_town_express : Foodies.listing :=
  plain_listing (str "Kebab Town Express").

(** * Properties *)

(** ** The matching blocks of difflib *)
Section DifflibFacts.

Import Difflib.

Implicit Types (a b : pystr) (b2j : gmap N (list nat)).
Implicit Types (alo ahi blo bhi : nat) (m : Match).

Lemma lens_within_empty blo bhi n : lens_within blo bhi n ∅.
Proof. intros j k H. by rewrite lookup_empty in H. Qed.

Lemma j2lenget_pred_within blo bhi n j2len j :
  lens_within blo bhi n j2len -> blo <= j ->
  j2lenget_pred j2len j <= n /\ blo + j2lenget_pred j2len j <= j.
Proof.
  intros Hl Hj. destruct j as [|j']; simpl; [lia|].
  destruct (j2len !! j') as [k|] eqn:E; simpl; [|lia].
  destruct (Hl _ _ E) as (? & ? & ?). lia.
Qed.

Lemma scan_row_within alo blo bhi n j2len js :
  lens_within blo bhi n j2len ->
  forall newj2len best,
    lens_within blo bhi (n + 1) newj2len ->
    block_within alo (alo + n + 1) blo bhi best ->
    let r := scan_row (alo + n) blo bhi j2len js newj2len best in
    lens_within blo bhi (n + 1) r.1 /\ block_within alo (alo + n + 1) blo bhi r.2.
Proof.
  intros Hprev. induction js as [|j js IH]; intros new best Hnew Hbest; simpl.
  - done.
  - destruct (Nat.ltb_spec j blo) as [Hlt|Hge]; [by apply IH|].
    destruct (Nat.leb_spec bhi j) as [Hhi|Hin]; [done|].
    destruct (j2lenget_pred_within blo bhi n j2len j Hprev Hge) as [Hk1 Hk2].
    apply IH.
    + intros j0 k0. rewrite lookup_insert.
      case_decide as Hj; [|by apply Hnew].
      intros [= <-]. subst j0. lia.
    + destruct (Nat.ltb_spec (size_of best) (j2lenget_pred j2len j + 1));
        [|done].
      unfold block_within; simpl. lia.
Qed.

Lemma rows_within a b2j alo blo bhi n :
  blo <= bhi ->
  let st := foldl (row_step a b2j blo bhi) (∅, (alo, blo, 0)) (seq alo n) in
  lens_within blo bhi n st.1 /\ block_within alo (alo + n) blo bhi st.2.
Proof.
  intros Hb. induction n as [|n IH]; cbv zeta.
  - split; [apply lens_within_empty|]. unfold block_within; simpl; lia.
  - rewrite seq_S, foldl_app. cbv zeta in IH. simpl foldl.
    destruct IH as [IH1 IH2]. unfold row_step at 1.
    replace (alo + S n) with (alo + n + 1) by lia.
    replace (S n) with (n + 1) by lia.
    apply scan_row_within; [done|apply lens_within_empty|].
    unfold block_within in *. lia.
Qed.

Lemma extend_back_within junk a b alo blo besti bestj bestsize :
  alo <= besti -> blo <= bestj ->
  let m := extend_back junk a b alo blo besti bestj bestsize in
  alo <= m.1.1 /\ blo <= m.1.2 /\
  m.1.1 + m.2 = besti + bestsize /\ m.1.2 + m.2 = bestj + bestsize.
Proof.
  revert bestj bestsize.
  induction besti as [|i' IH]; intros bestj bestsize Hi Hj; simpl.
  - destruct bestj; simpl; lia.
  - destruct bestj as [|j']; simpl; [lia|].
    destruct (_ && _) eqn:E; simpl; [|lia].
    rewrite !andb_true_iff in E. destruct E as [[[Ha Hb] _] _].
    apply Nat.ltb_lt in Ha, Hb.
    destruct (IH j' (bestsize + 1)) as (? & ? & ? & ?); [lia..|].
    lia.
Qed.

Lemma extend_fwd_within junk a b bhi besti bestj room bestsize :
  bestj + bestsize <= bhi ->
  let k := extend_fwd junk a b bhi besti bestj room bestsize in
  bestsize <= k /\ k <= bestsize + room /\ bestj + k <= bhi.
Proof.
  revert bestsize. induction room as [|room IH]; intros bestsize Hj; simpl.
  - lia.
  - destruct (_ && _) eqn:E; [|lia].
    rewrite !andb_true_iff in E. destruct E as [[Hb _] _].
    apply Nat.ltb_lt in Hb.
    destruct (IH (bestsize + 1)); lia.
Qed.

Lemma extend_within junk a b alo ahi blo bhi m :
  block_within alo ahi blo bhi m ->
  block_within alo ahi blo bhi (extend junk a b alo ahi blo bhi m).
Proof.
  destruct m as [[i j] k]. intros (Hi & Hik & Hj & Hjk); simpl in *.
  unfold extend.
  pose proof (extend_back_within junk a b alo blo i j k Hi Hj) as Hback.
  destruct (extend_back junk a b alo blo i j k) as [[i1 j1] k1].
  simpl in Hback. destruct Hback as (? & ? & ? & ?).
  pose proof (extend_fwd_within junk a b bhi i1 j1 (ahi - (i1 + k1)) k1) as Hf.
  simpl in Hf. unfold block_within; simpl. lia.
Qed.

(** The block of [find_longest_match] lies inside the region it was asked
    to search. *)
Lemma find_longest_match_within a b b2j alo ahi blo bhi :
  alo <= ahi -> blo <= bhi ->
  block_within alo ahi blo bhi (find_longest_match a b b2j alo ahi blo bhi).
Proof.
  intros Ha Hb. unfold find_longest_match.
  do 2 apply extend_within.
  pose proof (rows_within a b2j alo blo bhi (ahi - alo) Hb) as [_ H].
  replace (alo + (ahi - alo)) with ahi in H by lia. exact H.
Qed.

Lemma passes_eq alo ahi blo bhi :
  passes (alo, ahi, blo, bhi) = 2 * (ahi - alo) + 1.
Proof. reflexivity. Qed.

Local Arguments passes : simpl never.

(** The [while queue] loop ends within the passes its queue allows, and
    the blocks it collects fit in what is left of [a] and of [b]. *)
Lemma blocks_loop_spec a b b2j fuel :
  forall queue acc,
    Forall region_ok queue ->
    sum_list_with passes queue <= fuel ->
    exists res,
      blocks_loop a b b2j fuel queue acc = Some res /\
      sum_list_with size_of res
        <= sum_list_with size_of acc + sum_list_with span_a queue /\
      sum_list_with size_of res
        <= sum_list_with size_of acc + sum_list_with span_b queue.
Proof.
  induction fuel as [|fuel IH]; intros queue acc Hok Hfuel.
  - destruct queue as [|[[[alo ahi] blo] bhi] queue]; simpl in *.
    + exists acc. split; [done|lia].
    + rewrite passes_eq in Hfuel. lia.
  - destruct queue as [|[[[alo ahi] blo] bhi] queue]; simpl.
    { exists acc. split; [done|lia]. }
    apply Forall_cons in Hok as [[Ha Hb] Hok].
    pose proof (find_longest_match_within a b b2j alo ahi blo bhi Ha Hb) as Hm.
    destruct (find_longest_match a b b2j alo ahi blo bhi) as [[i j] k].
    destruct Hm as (Hi & Hik & Hj & Hjk); simpl in Hi, Hik, Hj, Hjk.
    simpl in Hfuel. rewrite passes_eq in Hfuel.
    destruct (Nat.eqb_spec k 0) as [->|Hk].
    { destruct (IH queue acc Hok) as (res & -> & H1 & H2); [lia|].
      exists res. split; [done|lia]. }
    destruct (Nat.ltb_spec alo i), (Nat.ltb_spec blo j),
      (Nat.ltb_spec (i + k) ahi), (Nat.ltb_spec (j + k) bhi); simpl;
      match goal with
      | |- context [blocks_loop _ _ _ _ ?q ?acc'] =>
          destruct (IH q acc') as (res & -> & HR1 & HR2);
          [ repeat (apply Forall_cons; split; [simpl; lia|]); exact Hok
          | simpl; rewrite ?passes_eq; lia
          | exists res; split; [done|];
            rewrite sum_list_with_app in HR1, HR2;
            unfold size_of in *; simpl in HR1, HR2; lia ]
      end.
Qed.

(** [get_matching_blocks] always returns. *)
Lemma blocks_loop_terminates a b :
  exists blocks,
    blocks_loop a b (chain_b b) (2 * length a + 2)
                [(0, length a, 0, length b)] [] = Some blocks /\
    sum_list_with size_of blocks <= length a /\
    sum_list_with size_of blocks <= length b.
Proof.
  destruct (blocks_loop_spec a b (chain_b b) (2 * length a + 2)
              [(0, length a, 0, length b)] []) as (res & H & H1 & H2).
  - repeat constructor; lia.
  - simpl. rewrite passes_eq. lia.
  - exists res. simpl in H1, H2. split; [done|lia].
Qed.

(** Merging adjacent blocks keeps the number of matched characters. *)
Lemma collapse_step_size st x :
  let st' := collapse_step st x in
  size_of st'.1 + sum_list_with size_of st'.2
  = size_of st.1 + sum_list_with size_of st.2 + size_of x.
Proof.
  destruct st as [[[i1 j1] k1] out], x as [[i2 j2] k2].
  unfold collapse_step, size_of; simpl.
  destruct (_ && _); simpl; [lia|].
  destruct (Nat.eqb_spec k1 0) as [->|_]; simpl; [lia|].
  rewrite sum_list_with_app; simpl. lia.
Qed.

Lemma collapse_fold_size blocks :
  forall st,
    let st' := foldl collapse_step st blocks in
    size_of st'.1 + sum_list_with size_of st'.2
    = size_of st.1 + sum_list_with size_of st.2 + sum_list_with size_of blocks.
Proof.
  induction blocks as [|x blocks IH]; intros st; simpl; [lia|].
  specialize (IH (collapse_step st x)). simpl in IH. rewrite IH.
  pose proof (collapse_step_size st x) as H. simpl in H. lia.
Qed.

Lemma collapse_size la lb blocks :
  sum_list_with size_of (collapse la lb blocks) = sum_list_with size_of blocks.
Proof.
  unfold collapse.
  pose proof (collapse_fold_size blocks ((0, 0, 0), [])) as H. simpl in H.
  destruct (foldl collapse_step _ blocks) as [[[i1 j1] k1] out].
  unfold size_of in *; simpl in *.
  destruct (Nat.eqb_spec k1 0) as [->|_];
    rewrite ?sum_list_with_app; simpl; lia.
Qed.

(** [get_matching_blocks] returns, and the sizes of its blocks add up to at
    most [len(a)] and at most [len(b)]. *)
Lemma get_matching_blocks_total a b :
  exists blocks,
    get_matching_blocks a b = Some blocks /\
    sum_list_with size_of blocks <= length a /\
    sum_list_with size_of blocks <= length b.
Proof.
  destruct (blocks_loop_terminates a b) as (raw & Hraw & H1 & H2).
  unfold get_matching_blocks. rewrite Hraw. simpl.
  eexists. split; [done|].
  rewrite collapse_size.
  by rewrite (merge_sort_Permutation Match_le raw).
Qed.

Lemma calculate_ratio_unit matches len :
  2 * matches <= len -> Score.in_unit (calculate_ratio matches len).
Proof.
  intros H. unfold calculate_ratio, Score.in_unit.
  destruct (Nat.eqb_spec len 0) as [->|Hlen].
  - split; [apply Qle_bool_iff | apply Qle_bool_iff]; reflexivity.
  - rewrite !Qred_correct. unfold Qle; simpl.
    rewrite Z.mul_1_r, Z.mul_1_l.
    assert (Z.pos (Pos.of_nat len) = Z.of_nat len) as ->.
    { lia. }
    lia.
Qed.

(** The ratio of [SequenceMatcher] lies between 0 and 1. *)
Lemma ratio_unit a b : Score.in_unit (ratio a b).
Proof.
  unfold ratio.
  destruct (get_matching_blocks_total a b) as (blocks & -> & H1 & H2); simpl.
  apply calculate_ratio_unit. lia.
Qed.

Lemma filter_ext_in {A} (P1 P2 : A -> Prop)
    `{!forall x, Decision (P1 x), !forall x, Decision (P2 x)} (l : list A) :
  (forall x, x ∈ l -> P1 x <-> P2 x) -> filter P1 l = filter P2 l.
Proof.
  induction l as [|x l IH]; intros Hext; [done|].
  assert (x ∈ x :: l) as Hin by (apply elem_of_cons; auto).
  rewrite !filter_cons, IH by (intros; apply Hext, elem_of_cons; auto).
  destruct (decide (P1 x)) as [Hx|Hx].
  - by rewrite decide_True by (by apply Hext).
  - rewrite decide_False; [done|].
    intros Hx'. by apply Hx, Hext.
Qed.

Lemma filter_none {A} (P : A -> Prop) `{!forall x, Decision (P x)} (l : list A) :
  (forall x, x ∈ l -> ~ P x) -> filter P l = [].
Proof.
  induction l as [|x l IH]; intros Hno; [done|].
  rewrite filter_cons, decide_False by (apply Hno, elem_of_cons; auto).
  apply IH. intros; apply Hno, elem_of_cons; auto.
Qed.

Lemma positions_snoc_same b c :
  positions c (b ++ [c]) = positions c b ++ [length b].
Proof.
  unfold positions. rewrite length_app. simpl.
  rewrite seq_app, filter_app. simpl. f_equal.
  - apply filter_ext_in. intros j Hj%elem_of_seq. simpl.
    unfold pystr in *. by rewrite lookup_app_l by lia.
  - unfold pystr in *. rewrite filter_cons, decide_True; [done|].
    by rewrite lookup_app_r, Nat.sub_diag by lia.
Qed.

Lemma positions_snoc_other b c x :
  x <> c -> positions x (b ++ [c]) = positions x b.
Proof.
  intros Hx. unfold positions, pystr in *. rewrite length_app. simpl.
  rewrite seq_app, filter_app. simpl.
  rewrite filter_cons, decide_False, filter_nil, app_nil_r.
  - apply filter_ext_in. intros j Hj%elem_of_seq. simpl.
    unfold pystr in *. by rewrite lookup_app_l by lia.
  - rewrite lookup_app_r, Nat.sub_diag by lia. simpl. congruence.
Qed.

Lemma positions_absent b x : x ∉ b -> positions x b = [].
Proof.
  intros Hx. unfold positions. apply filter_none.
  intros j _ Hj. apply Hx. by eapply list_elem_of_lookup_2.
Qed.

Lemma index_elements_snoc b c :
  index_elements (b ++ [c])
  = <[c := default [] (index_elements b !! c) ++ [length b]]> (index_elements b).
Proof.
  unfold index_elements. rewrite imap_app, foldl_app. simpl.
  by rewrite Nat.add_0_r.
Qed.

(** [b2j] before the popular elements are deleted. *)
Lemma index_elements_lookup b x :
  index_elements b !! x
  = if decide (x ∈ b) then Some (positions x b) else None.
Proof.
  induction b as [|c b IH] using rev_ind.
  - unfold index_elements. simpl. by rewrite lookup_empty.
  - rewrite index_elements_snoc.
    destruct (decide (x = c)) as [->|Hne].
    + rewrite lookup_insert_eq, IH.
      rewrite (decide_True (P := c ∈ b ++ [c]))
        by (apply elem_of_app; right; by apply list_elem_of_singleton).
      rewrite positions_snoc_same. f_equal. f_equal.
      case_decide as Hc; [done|]. by rewrite positions_absent.
    + rewrite lookup_insert_ne by done.
      rewrite IH, positions_snoc_other by done.
      assert (x ∈ b ++ [c] <-> x ∈ b) as Hiff.
      { rewrite elem_of_app, list_elem_of_singleton. tauto. }
      repeat case_decide; try done; tauto.
Qed.

(** The index lists of [chain_b] hold exactly the positions of their
    element. *)
Lemma chain_b_lookup b x js :
  chain_b b !! x = Some js -> js = positions x b.
Proof.
  unfold chain_b. intros H.
  assert (index_elements b !! x = Some js) as Hi.
  { destruct (200 <=? length b); [|done].
    by apply map_lookup_filter_Some in H as [H _]. }
  rewrite index_elements_lookup in Hi. by case_decide; simplify_eq.
Qed.

Lemma elem_of_positions b x j : j ∈ positions x b <-> b !! j = Some x.
Proof.
  unfold positions. rewrite list_elem_of_filter, elem_of_seq.
  split; [by intros [? _]|]. intros H. split; [done|].
  apply lookup_lt_Some in H. lia.
Qed.

Lemma block_matches_empty a b i j : block_matches a b (i, j, 0).
Proof. intros t Ht. simpl in Ht. lia. Qed.

Lemma block_matches_snoc a b i j k :
  block_matches a b (i, j, k) -> same_at a b (i + k) (j + k) = true ->
  block_matches a b (i, j, k + 1).
Proof.
  intros Hm Hs t Ht. simpl in *.
  destruct (decide (t = k)) as [->|]; [done|]. apply Hm. simpl. lia.
Qed.

Lemma block_matches_cons a b i j k :
  same_at a b i j = true -> block_matches a b (S i, S j, k) ->
  block_matches a b (i, j, k + 1).
Proof.
  intros Hs Hm t Ht. simpl in *.
  destruct t as [|t]; [by rewrite !Nat.add_0_r|].
  replace (i + S t) with (S i + t) by lia.
  replace (j + S t) with (S j + t) by lia.
  apply Hm. simpl. lia.
Qed.

Lemma lens_sound_empty a b iend : lens_sound a b iend ∅.
Proof. intros j k H. by rewrite lookup_empty in H. Qed.

Lemma scan_row_sound a b i blo bhi j2len js :
  Forall (fun j => same_at a b i j = true) js ->
  lens_sound a b i j2len ->
  forall newj2len best,
    lens_sound a b (i + 1) newj2len ->
    block_matches a b best ->
    let r := scan_row i blo bhi j2len js newj2len best in
    lens_sound a b (i + 1) r.1 /\ block_matches a b r.2.
Proof.
  intros Hjs Hprev.
  induction Hjs as [|j js Hj Hjs IH]; intros new best Hnew Hbest; simpl.
  - done.
  - destruct (j <? blo); [by apply IH|].
    destruct (bhi <=? j); [done|].
    assert (j2lenget_pred j2len j <= i /\ j2lenget_pred j2len j <= j /\
            block_matches a b (i - j2lenget_pred j2len j,
                               j - j2lenget_pred j2len j,
                               j2lenget_pred j2len j)) as (Hk1 & Hk2 & Hk3).
    { destruct j as [|j']; simpl.
      - repeat split; try lia. apply block_matches_empty.
      - destruct (j2len !! j') as [k0|] eqn:E; simpl.
        + destruct (Hprev _ _ E) as (? & ? & Hm).
          repeat split; try lia.
          by replace (S j' - k0) with (j' + 1 - k0) by lia.
        + repeat split; try lia. apply block_matches_empty. }
    assert (block_matches a b (i + 1 - (j2lenget_pred j2len j + 1),
                               j + 1 - (j2lenget_pred j2len j + 1),
                               j2lenget_pred j2len j + 1)) as Hblock.
    { replace (i + 1 - (j2lenget_pred j2len j + 1))
        with (i - j2lenget_pred j2len j) by lia.
      replace (j + 1 - (j2lenget_pred j2len j + 1))
        with (j - j2lenget_pred j2len j) by lia.
      apply block_matches_snoc; [done|].
      replace (i - j2lenget_pred j2len j + j2lenget_pred j2len j) with i by lia.
      by replace (j - j2lenget_pred j2len j + j2lenget_pred j2len j)
        with j by lia. }
    apply IH.
    + intros j0 k0. rewrite lookup_insert.
      case_decide as Hj0; [|by apply Hnew].
      intros [= <-]. subst j0. repeat split; [lia..|done].
    + by destruct (size_of best <? j2lenget_pred j2len j + 1).
Qed.

Lemma chain_b_sound b : b2j_sound b (chain_b b).
Proof.
  intros x js j Hx Hj. apply chain_b_lookup in Hx. subst js.
  by apply elem_of_positions.
Qed.

Lemma row_candidates_sound a b b2j i :
  b2j_sound b b2j ->
  Forall (fun j => same_at a b i j = true)
         (from_option (fun x => default [] (b2j !! x)) [] (a !! i)).
Proof.
  intros Hs. unfold same_at.
  destruct (a !! i) as [x|] eqn:Ea; simpl; [|constructor].
  destruct (b2j !! x) as [js|] eqn:Ex; simpl; [|constructor].
  apply Forall_forall. intros j Hj.
  rewrite (Hs _ _ _ Ex Hj). apply N.eqb_refl.
Qed.

Lemma rows_sound a b b2j alo blo bhi n :
  b2j_sound b b2j ->
  let st := foldl (row_step a b2j blo bhi) (∅, (alo, blo, 0)) (seq alo n) in
  lens_sound a b (alo + n) st.1 /\ block_matches a b st.2.
Proof.
  intros Hs. induction n as [|n IH]; cbv zeta.
  - split; [apply lens_sound_empty | apply block_matches_empty].
  - rewrite seq_S, foldl_app. cbv zeta in IH. simpl foldl.
    destruct IH as [IH1 IH2]. unfold row_step at 1.
    replace (alo + S n) with (alo + n + 1) by lia.
    apply scan_row_sound; auto using lens_sound_empty, row_candidates_sound.
Qed.

Lemma extend_back_sound junk a b alo blo besti bestj bestsize :
  block_matches a b (besti, bestj, bestsize) ->
  block_matches a b (extend_back junk a b alo blo besti bestj bestsize).
Proof.
  revert bestj bestsize.
  induction besti as [|i' IH]; intros bestj bestsize Hm; simpl.
  - by destruct bestj.
  - destruct bestj as [|j']; [done|].
    destruct (_ && _) eqn:E; [|done].
    rewrite !andb_true_iff in E. destruct E as [_ Hs].
    apply IH. by apply block_matches_cons.
Qed.

Lemma extend_fwd_sound junk a b bhi besti bestj room bestsize :
  block_matches a b (besti, bestj, bestsize) ->
  block_matches a b
    (besti, bestj, extend_fwd junk a b bhi besti bestj room bestsize).
Proof.
  revert bestsize. induction room as [|room IH]; intros bestsize Hm; simpl.
  - done.
  - destruct (_ && _) eqn:E; [|done].
    rewrite !andb_true_iff in E. destruct E as [_ Hs].
    apply IH. by apply block_matches_snoc.
Qed.

Lemma extend_sound junk a b alo ahi blo bhi m :
  block_matches a b m ->
  block_matches a b (extend junk a b alo ahi blo bhi m).
Proof.
  destruct m as [[i j] k]. intros Hm. unfold extend.
  pose proof (extend_back_sound junk a b alo blo i j k Hm) as Hback.
  destruct (extend_back junk a b alo blo i j k) as [[i1 j1] k1].
  by apply extend_fwd_sound.
Qed.

(** The block of [find_longest_match] is a common substring. *)
Lemma find_longest_match_sound a b b2j alo ahi blo bhi :
  b2j_sound b b2j ->
  block_matches a b (find_longest_match a b b2j alo ahi blo bhi).
Proof.
  intros Hs. unfold find_longest_match.
  do 2 apply extend_sound.
  by destruct (rows_sound a b b2j alo blo bhi (ahi - alo) Hs).
Qed.

Lemma segment_empty a lo hi : hi <= lo -> segment a lo hi = [].
Proof. intros H. unfold segment. by replace (hi - lo) with 0 by lia. Qed.

Lemma segment_split a lo mid hi :
  lo <= mid -> mid <= hi ->
  segment a lo hi = segment a lo mid ++ segment a mid hi.
Proof.
  intros H1 H2. unfold segment.
  replace (hi - lo) with ((mid - lo) + (hi - mid)) by lia.
  rewrite <- take_take_drop, drop_drop.
  by replace (lo + (mid - lo)) with mid by lia.
Qed.

Lemma segment_all a : segment a 0 (length a) = a.
Proof. unfold segment. rewrite drop_0, Nat.sub_0_r. by apply take_ge. Qed.

Lemma block_matches_segment a b i j k :
  block_matches a b (i, j, k) -> segment a i (i + k) = segment b j (j + k).
Proof.
  intros Hm. unfold segment.
  replace (i + k - i) with k by lia. replace (j + k - j) with k by lia.
  apply list_eq. intros t.
  specialize (Hm t). unfold same_at in Hm. simpl in Hm. unfold pystr in *.
  rewrite !lookup_take, !lookup_drop.
  case_decide as Ht; [|done]. specialize (Hm Ht).
  destruct (a !! (i + t)) as [x|], (b !! (j + t)) as [y|]; try done.
  by apply N.eqb_eq in Hm as ->.
Qed.

(** The blocks of a finished loop fit in what was left of [a] and [b]. *)
Lemma blocks_loop_bound a b b2j fuel :
  forall queue acc res,
    Forall region_ok queue ->
    blocks_loop a b b2j fuel queue acc = Some res ->
    sum_list_with size_of res
      <= sum_list_with size_of acc + sum_list_with span_a queue /\
    sum_list_with size_of res
      <= sum_list_with size_of acc + sum_list_with span_b queue.
Proof.
  induction fuel as [|fuel IH]; intros queue acc res Hok Hrun.
  - destruct queue as [|[[[alo ahi] blo] bhi] queue]; simpl in *; [|done].
    injection Hrun as <-. lia.
  - destruct queue as [|[[[alo ahi] blo] bhi] queue]; simpl in Hrun.
    { injection Hrun as <-. simpl. lia. }
    apply Forall_cons in Hok as [[Ha Hb] Hok].
    pose proof (find_longest_match_within a b b2j alo ahi blo bhi Ha Hb) as Hm.
    destruct (find_longest_match a b b2j alo ahi blo bhi) as [[i j] k].
    destruct Hm as (Hi & Hik & Hj & Hjk); simpl in Hi, Hik, Hj, Hjk.
    destruct (Nat.eqb_spec k 0) as [Hk0|Hk]; [subst k|].
    { destruct (IH _ _ _ Hok Hrun). simpl. lia. }
    revert Hrun.
    destruct (Nat.ltb_spec alo i), (Nat.ltb_spec blo j),
      (Nat.ltb_spec (i + k) ahi), (Nat.ltb_spec (j + k) bhi); simpl;
      intros Hrun; apply IH in Hrun as [HR1 HR2];
      try (repeat (apply Forall_cons; split; [simpl; lia|]); exact Hok);
      rewrite sum_list_with_app in HR1, HR2;
      unfold size_of in *; simpl in *; lia.
Qed.

(** When the blocks of a finished loop fill what was left of [a] and of
    [b], the regions that were left agree. *)
Lemma blocks_loop_tight a b b2j fuel :
  b2j_sound b b2j ->
  forall queue acc res,
    Forall region_ok queue ->
    blocks_loop a b b2j fuel queue acc = Some res ->
    sum_list_with size_of res
      = sum_list_with size_of acc + sum_list_with span_a queue ->
    sum_list_with size_of res
      = sum_list_with size_of acc + sum_list_with span_b queue ->
    Forall (region_agrees a b) queue.
Proof.
  intros Hs.
  induction fuel as [|fuel IH]; intros queue acc res Hok Hrun Hta Htb.
  - by destruct queue as [|[[[alo ahi] blo] bhi] queue].
  - destruct queue as [|[[[alo ahi] blo] bhi] queue]; [done|].
    simpl in Hrun, Hta, Htb.
    apply Forall_cons in Hok as [[Ha Hb] Hok].
    pose proof (find_longest_match_within a b b2j alo ahi blo bhi Ha Hb) as Hm.
    pose proof (find_longest_match_sound a b b2j alo ahi blo bhi Hs) as Hmatch.
    destruct (find_longest_match a b b2j alo ahi blo bhi) as [[i j] k].
    destruct Hm as (Hi & Hik & Hj & Hjk); simpl in Hi, Hik, Hj, Hjk.
    apply block_matches_segment in Hmatch.
    destruct (Nat.eqb_spec k 0) as [Hk0|Hk]; [subst k|].
    { destruct (blocks_loop_bound _ _ _ _ _ _ _ Hok Hrun) as [B1 B2].
      apply Forall_cons. split.
      - simpl. rewrite !segment_empty by lia. done.
      - eapply IH; eauto; lia. }
    assert (segment a alo ahi
            = segment a alo i ++ segment a i (i + k) ++ segment a (i + k) ahi)
      as Hsa.
    { rewrite (segment_split a alo i ahi) by lia.
      by rewrite (segment_split a i (i + k) ahi) by lia. }
    assert (segment b blo bhi
            = segment b blo j ++ segment b j (j + k) ++ segment b (j + k) bhi)
      as Hsb.
    { rewrite (segment_split b blo j bhi) by lia.
      by rewrite (segment_split b j (j + k) bhi) by lia. }
    revert Hrun.
    destruct (Nat.ltb_spec alo i), (Nat.ltb_spec blo j),
      (Nat.ltb_spec (i + k) ahi), (Nat.ltb_spec (j + k) bhi); simpl;
      intros Hrun;
      match type of Hrun with
      | blocks_loop _ _ _ _ ?q ?acc' = _ =>
          assert (Forall region_ok q) as Hok'
            by (repeat (apply Forall_cons; split; [simpl; lia|]); exact Hok);
          destruct (blocks_loop_bound _ _ _ _ _ _ _ Hok' Hrun) as [B1 B2];
          rewrite sum_list_with_app in B1, B2;
          unfold size_of in *; simpl in *;
          assert (Forall (region_agrees a b) q) as Hq
            by (eapply IH; eauto; rewrite sum_list_with_app; simpl; lia)
      end;
      repeat match goal with
             | H : Forall _ (_ :: _) |- _ => apply Forall_cons in H as [? H]
             end;
      (apply Forall_cons; split; [|done]);
      simpl in *; rewrite Hsa, Hsb, Hmatch;
      repeat match goal with
             | H : segment a _ _ = segment b _ _ |- _ => rewrite H; clear H
             end;
      rewrite ?(segment_empty a alo i), ?(segment_empty b blo j),
        ?(segment_empty a (i + k) ahi), ?(segment_empty b (j + k) bhi) by lia;
      done.
Qed.

(** Only equal strings have ratio 1. *)
Lemma ratio_one_eq a b : (ratio a b == 1)%Q -> a = b.
Proof.
  intros Hr. unfold ratio, get_matching_blocks in Hr.
  destruct (blocks_loop_terminates a b) as (raw & Hraw & H1 & H2).
  rewrite Hraw in Hr. simpl in Hr.
  rewrite collapse_size in Hr.
  rewrite (merge_sort_Permutation Match_le raw) in Hr.
  unfold calculate_ratio in Hr.
  destruct (Nat.eqb_spec (length a + length b) 0) as [Hz|Hnz].
  { destruct a, b; simpl in Hz; try lia. done. }
  rewrite Qred_correct in Hr. unfold Qeq in Hr. simpl in Hr.
  assert (sum_list_with size_of raw = length a /\
          sum_list_with size_of raw = length b) as [Ea Eb] by lia.
  pose proof (blocks_loop_tight a b (chain_b b) (2 * length a + 2)
                (chain_b_sound b)
                [(0, length a, 0, length b)] [] raw) as Ht.
  assert (Forall (region_agrees a b) [(0, length a, 0, length b)]) as Hall.
  { apply Ht; simpl; try done; try lia. repeat constructor; lia. }
  apply Forall_cons in Hall as [Hall _]. unfold region_agrees in Hall.
  by rewrite !segment_all in Hall.
Qed.

Lemma seq_sorted s n : StronglySorted lt (seq s n).
Proof.
  revert s. induction n as [|n IH]; intros s; simpl; constructor; [done|].
  apply Forall_forall. intros j Hj%elem_of_seq. lia.
Qed.

Lemma filter_sorted {A} (R : relation A) (P : A -> Prop)
    `{!forall x, Decision (P x)} (l : list A) :
  StronglySorted R l -> StronglySorted R (filter P l).
Proof.
  induction 1 as [|x l Hl IH Hx]; [constructor|].
  rewrite filter_cons. case_decide; [|done].
  constructor; [done|].
  apply Forall_forall. intros y [_ Hy]%list_elem_of_filter.
  by rewrite Forall_forall in Hx; apply Hx.
Qed.

Lemma positions_sorted x b : StronglySorted lt (positions x b).
Proof. apply filter_sorted, seq_sorted. Qed.

Lemma run_upto_succ a b2j i :
  indexed_at a b2j i = true -> run_upto a b2j (i + 1) = run_upto a b2j i + 1.
Proof. intros H. rewrite Nat.add_1_r. simpl. by rewrite H. Qed.

Lemma run_upto_succ_0 a b2j i :
  indexed_at a b2j i = false -> run_upto a b2j (i + 1) = 0.
Proof. intros H. rewrite Nat.add_1_r. simpl. by rewrite H. Qed.

Local Arguments run_upto : simpl never.

Lemma row_exact_empty a b2j iend :
  run_upto a b2j iend = 0 -> row_exact a b2j iend ∅.
Proof.
  intros H. split; [|lia]. intros j k Hk. by rewrite lookup_empty in Hk.
Qed.

(** The run the previous row hands to the cell of column [j]. *)
Lemma j2lenget_pred_exact a b2j i prev j :
  row_exact a b2j i prev ->
  j2lenget_pred prev j <= run_upto a b2j i /\
  j2lenget_pred prev j <= run_upto a b2j j /\
  (j = i -> j2lenget_pred prev j = run_upto a b2j i).
Proof.
  intros [Hb Hd]. destruct j as [|j']; simpl.
  - repeat split; try lia. by intros <-.
  - destruct (prev !! j') as [k0|] eqn:E; simpl.
    + destruct (Hb _ _ E) as [H1 H2]. rewrite Nat.add_1_r in H2.
      repeat split; try done.
      intros <-. destruct (decide (0 < run_upto a b2j (S j'))) as [Hpos|Hz].
      * specialize (Hd Hpos). replace (S j' - 1) with j' in Hd by lia.
        rewrite E in Hd. by injection Hd.
      * lia.
    + repeat split; try lia.
      intros <-. destruct (decide (0 < run_upto a b2j (S j'))) as [Hpos|Hz].
      * specialize (Hd Hpos). replace (S j' - 1) with j' in Hd by lia.
        by rewrite E in Hd.
      * lia.
Qed.

(** A row of [a] against itself, from any point of its index list on. *)
Lemma scan_row_diagonal a b2j i prev :
  indexed_at a b2j i = true ->
  row_exact a b2j i prev ->
  forall js newj2len best,
    StronglySorted lt js ->
    Forall (fun j => indexed_at a b2j j = true /\ j < length a) js ->
    (forall j k, newj2len !! j = Some k ->
       k <= run_upto a b2j (i + 1) /\ k <= run_upto a b2j (j + 1)) ->
    best_diagonal a b2j i best ->
    (i ∈ js \/ (newj2len !! i = Some (run_upto a b2j (i + 1)) /\
                run_upto a b2j (i + 1) <= best.2)) ->
    let r := scan_row i 0 (length a) prev js newj2len best in
    row_exact a b2j (i + 1) r.1 /\ best_diagonal a b2j (i + 1) r.2.
Proof.
  intros Hidx Hprev.
  induction js as [|j js IH]; intros new best Hsort Hjs Hnew Hbest Hdiag;
    simpl.
  - destruct Hdiag as [Hin | [Hd Hle]]; [by apply elem_of_nil in Hin|].
    split.
    + split; [done|]. intros _. by rewrite Nat.add_sub.
    + destruct Hbest as [Hb1 Hb2]. split; [done|].
      intros i' Hi'. destruct (decide (i' = i)) as [->|]; [done|].
      apply Hb2. lia.
  - apply StronglySorted_inv in Hsort as [Hsort Hgt].
    apply Forall_cons in Hjs as [[Hj Hjlen] Hjs].
    destruct (Nat.leb_spec (length a) j) as [|_]; [lia|].
    destruct (j2lenget_pred_exact a b2j i prev j Hprev) as (Hp1 & Hp2 & Hp3).
    assert (j2lenget_pred prev j + 1 <= run_upto a b2j (i + 1) /\
            j2lenget_pred prev j + 1 <= run_upto a b2j (j + 1)) as [Hk1 Hk2].
    { rewrite !run_upto_succ by done. lia. }
    assert (newj2len_ok :
      forall j0 k0, <[j := j2lenget_pred prev j + 1]> new !! j0 = Some k0 ->
        k0 <= run_upto a b2j (i + 1) /\ k0 <= run_upto a b2j (j0 + 1)).
    { intros j0 k0. rewrite lookup_insert. case_decide as Hj0; [|by apply Hnew].
      intros [= <-]. by subst j0. }
    destruct Hbest as [Hb1 Hb2].
    destruct (lt_eq_lt_dec j i) as [[Hlt | ->] | Hgt'].
    + (* a column before the diagonal *)
      assert ((size_of best <? j2lenget_pred prev j + 1) = false) as ->.
      { apply Nat.ltb_ge. unfold size_of.
        specialize (Hb2 j Hlt). lia. }
      apply IH; try done.
      destruct Hdiag as [Hin | [Hd Hle]].
      * left. apply elem_of_cons in Hin as [->|Hin]; [lia|done].
      * right. by rewrite lookup_insert_ne by lia.
    + (* the diagonal *)
      specialize (Hp3 eq_refl).
      assert (j2lenget_pred prev i + 1 = run_upto a b2j (i + 1)) as Hrun.
      { rewrite run_upto_succ by done. lia. }
      apply IH; try done.
      * unfold size_of. destruct (Nat.ltb_spec best.2 (j2lenget_pred prev i + 1)).
        -- split; simpl; [lia|]. intros i' Hi'. specialize (Hb2 i' Hi'). lia.
        -- by split.
      * right. rewrite lookup_insert_eq. split; [by rewrite Hrun|].
        unfold size_of.
        destruct (Nat.ltb_spec best.2 (j2lenget_pred prev i + 1)); simpl; lia.
    + (* a column after the diagonal *)
      destruct Hdiag as [Hin | [Hd Hle]].
      { apply elem_of_cons in Hin as [->|Hin]; [lia|].
        rewrite Forall_forall in Hgt. specialize (Hgt i Hin). lia. }
      assert ((size_of best <? j2lenget_pred prev j + 1) = false) as ->.
      { apply Nat.ltb_ge. unfold size_of. lia. }
      apply IH; try done.
      right. by rewrite lookup_insert_ne by lia.
Qed.

Lemma rows_diagonal a n :
  n <= length a ->
  let st := foldl (row_step a (chain_b a) 0 (length a)) (∅, (0, 0, 0))
                  (seq 0 n) in
  row_exact a (chain_b a) n st.1 /\ best_diagonal a (chain_b a) n st.2.
Proof.
  induction n as [|n IH]; intros Hn; cbv zeta.
  - split; [by apply row_exact_empty|]. split; [done|]. intros i Hi. lia.
  - rewrite seq_S, foldl_app. simpl foldl.
    destruct IH as [IH1 IH2]; [lia|].
    set (st := foldl _ _ (seq 0 n)) in *. unfold row_step.
    destruct (lookup_lt_is_Some_2 a n) as [x Hx]; [lia|].
    replace (0 + n) with n by lia. replace (S n) with (n + 1) by lia.
    unfold pystr in *. rewrite Hx. simpl.
    destruct (chain_b a !! x) as [js|] eqn:Ejs; simpl.
    + assert (indexed_at a (chain_b a) n = true) as Hidx.
      { unfold indexed_at, pystr in *. rewrite Hx. apply bool_decide_eq_true.
        by eexists. }
      apply chain_b_lookup in Ejs as Hjs. subst js.
      apply scan_row_diagonal;
        [ done | done | apply positions_sorted | |
        | done | left; by apply elem_of_positions ].
      * apply Forall_forall. intros j Hj%elem_of_positions. split.
        -- unfold indexed_at, pystr in *. rewrite Hj.
           apply bool_decide_eq_true. by eexists.
        -- by eapply lookup_lt_Some.
      * intros j k Hk. by rewrite lookup_empty in Hk.
    + assert (indexed_at a (chain_b a) n = false) as Hidx.
      { unfold indexed_at, pystr in *. rewrite Hx. apply bool_decide_eq_false.
        rewrite Ejs. by intros [? ?]. }
      split; [by apply row_exact_empty, run_upto_succ_0|].
      destruct IH2 as [Hb1 Hb2]. split; [done|].
      intros i Hi. destruct (decide (i = n)) as [->|].
      * rewrite run_upto_succ_0 by done. lia.
      * apply Hb2. lia.
Qed.

Lemma isbjunk_false c : isbjunk c = false.
Proof. apply bool_decide_eq_false. unfold bjunk. apply not_elem_of_empty. Qed.

Lemma junk_at_false b j : junk_at b j = false.
Proof. unfold junk_at. destruct (b !! j); simpl; [apply isbjunk_false|done]. Qed.

Lemma same_at_self a i : i < length a -> same_at a a i i = true.
Proof.
  intros Hi. unfold same_at.
  destruct (lookup_lt_is_Some_2 a i Hi) as [x Hx].
  unfold pystr in *. rewrite Hx. apply N.eqb_refl.
Qed.

Lemma extend_back_self a d :
  forall k, d + k <= length a ->
    extend_back false a a 0 0 d d k = (0, 0, d + k).
Proof.
  induction d as [|d IH]; intros k Hk; simpl; [done|].
  rewrite junk_at_false, same_at_self by lia. simpl.
  rewrite IH by lia. f_equal. lia.
Qed.

Lemma extend_fwd_self a room :
  forall k, k + room = length a ->
    extend_fwd false a a (length a) 0 0 room k = length a.
Proof.
  induction room as [|room IH]; intros k Hk; simpl; [lia|].
  rewrite junk_at_false, same_at_self by lia.
  destruct (Nat.ltb_spec k (length a)); [|lia]. simpl.
  apply IH. lia.
Qed.

(** Against itself a string is one block. *)
Lemma find_longest_match_self a :
  find_longest_match a a (chain_b a) 0 (length a) 0 (length a)
  = (0, 0, length a).
Proof.
  unfold find_longest_match. rewrite Nat.sub_0_r.
  destruct (rows_diagonal a (length a)) as [_ [Hdiag _]]; [done|].
  pose proof (rows_within a (chain_b a) 0 0 (length a) (length a)) as [_ Hw];
    [lia|].
  destruct (foldl _ _ _) as [j2len [[d d'] k]]. simpl in Hdiag. subst d'.
  destruct Hw as (_ & Hw & _). simpl in Hw.
  cbn [snd]. unfold extend at 2. rewrite extend_back_self by lia.
  rewrite extend_fwd_self by lia.
  unfold extend. simpl. by rewrite Nat.sub_diag.
Qed.

Lemma blocks_loop_self a fuel :
  blocks_loop a a (chain_b a) (S fuel) [(0, length a, 0, length a)] []
  = Some (if length a =? 0 then [] else [(0, 0, length a)]).
Proof.
  cbn [blocks_loop]. rewrite find_longest_match_self.
  destruct (Nat.eqb_spec (length a) 0) as [Hz|Hnz].
  - by destruct fuel.
  - rewrite !Nat.add_0_l, !Nat.ltb_irrefl. cbn [andb]. by destruct fuel.
Qed.

Lemma get_matching_blocks_self a :
  exists blocks,
    get_matching_blocks a a = Some blocks /\
    sum_list_with size_of blocks = length a.
Proof.
  unfold get_matching_blocks.
  replace (2 * length a + 2) with (S (2 * length a + 1)) by lia.
  rewrite blocks_loop_self. eexists. split; [reflexivity|].
  rewrite collapse_size, merge_sort_Permutation.
  destruct (Nat.eqb_spec (length a) 0) as [Hz|Hnz]; simpl; unfold size_of;
    simpl; lia.
Qed.

(** The ratio of a string and itself is 1. *)
Lemma ratio_self a : ratio a a = 1%Q.
Proof.
  unfold ratio.
  destruct (get_matching_blocks_self a) as (blocks & Hb & Hs).
  rewrite Hb. simpl. rewrite Hs. unfold calculate_ratio.
  destruct (Nat.eqb_spec (length a + length a) 0); [done|].
  apply (Qred_complete _ 1). unfold Qeq. simpl. lia.
Qed.

End DifflibFacts.

(** ** Scores *)
Section ScoreFacts.

Lemma gt_spec x y : Score.gt x y = true <-> (y < x)%Q.
Proof.
  unfold Score.gt. rewrite negb_true_iff, <- not_true_iff_false, Qle_bool_iff.
  split; [apply Qnot_le_lt | apply Qlt_not_le].
Qed.

Lemma gt_false x y : Score.gt x y = false <-> (x <= y)%Q.
Proof. unfold Score.gt. by rewrite negb_false_iff, Qle_bool_iff. Qed.

Lemma max3_cases x y z :
  Score.max3 x y z = x \/ Score.max3 x y z = y \/ Score.max3 x y z = z.
Proof. unfold Score.max3. repeat case_match; auto. Qed.

Lemma max3_unit x y z :
  Score.in_unit x -> Score.in_unit y -> Score.in_unit z ->
  Score.in_unit (Score.max3 x y z).
Proof. destruct (max3_cases x y z) as [-> | [-> | ->]]; auto. Qed.

Lemma in_unit_0 : Score.in_unit 0.
Proof. split; by apply Qle_bool_iff. Qed.

Lemma in_unit_1 : Score.in_unit 1.
Proof. split; by apply Qle_bool_iff. Qed.

Lemma prefix_match_score_unit a_tokens b_tokens :
  Score.in_unit (Foodies.prefix_match_score a_tokens b_tokens).
Proof.
  unfold Foodies.prefix_match_score.
  repeat case_match; split; by apply Qle_bool_iff.
Qed.

Lemma token_overlap_score_unit a_tokens b_tokens :
  Score.in_unit (Foodies.token_overlap_score a_tokens b_tokens).
Proof.
  unfold Foodies.token_overlap_score.
  repeat case_match; split; by apply Qle_bool_iff.
Qed.

Lemma pair_score_unit a b : Score.in_unit (Foodies.pair_score a b).
Proof.
  apply max3_unit;
    [apply ratio_unit | apply prefix_match_score_unit
    | apply token_overlap_score_unit].
Qed.

End ScoreFacts.

(** ** The loop that keeps the best score *)
Section FirstMax.

Context {A : Type} (score : A -> Q).

(** The loop either keeps its start, when nothing scores above it, or ends
    on the first element that reaches the largest score. *)
Lemma keep_best_first_max (l : list A) :
  forall best best_score,
    let r := foldl (keep_best score) (best, best_score) l in
    (Forall (fun x => (score x <= best_score)%Q) l /\ r = (best, best_score))
    \/ (exists pre x post,
          l = pre ++ x :: post /\ r = (Some x, score x) /\
          (best_score < score x)%Q /\
          Forall (fun y => (score y < score x)%Q) pre /\
          Forall (fun y => (score y <= score x)%Q) post).
Proof.
  induction l as [|x l IH]; intros best best_score; simpl.
  - left. by split.
  - change (keep_best score (best, best_score) x)
      with (if Score.gt (score x) best_score
            then (Some x, score x) else (best, best_score)).
    destruct (Score.gt (score x) best_score) eqn:E.
    + apply gt_spec in E. right.
      destruct (IH (Some x) (score x)) as [[Hall ->] | Hex].
      * exists [], x, l. by repeat split.
      * destruct Hex as (pre & y & post & -> & -> & Hlt & Hpre & Hpost).
        exists (x :: pre), y, post. repeat split; auto.
        by eapply Qlt_trans.
    + apply gt_false in E.
      destruct (IH best best_score) as [[Hall ->] | Hex].
      * left. split; [by constructor | done].
      * right. destruct Hex as (pre & y & post & -> & -> & Hlt & Hpre & Hpost).
        exists (x :: pre), y, post. repeat split; auto.
        constructor; [|done]. by eapply Qle_lt_trans.
Qed.

Lemma keep_best_unit (l : list A) :
  (forall x, Score.in_unit (score x)) ->
  forall best best_score,
    Score.in_unit best_score ->
    Score.in_unit (foldl (keep_best score) (best, best_score) l).2.
Proof.
  intros Hs. induction l as [|x l IH]; intros best best_score Hb; simpl.
  - done.
  - change (keep_best score (best, best_score) x)
      with (if Score.gt (score x) best_score
            then (Some x, score x) else (best, best_score)).
    case_match; by apply IH.
Qed.

End FirstMax.




(** ** The resolver of load_vancouver_foodies.py *)
Section Resolver.

Import Foodies.

Implicit Types (dineout_name target : pystr) (listings : list listing).
Implicit Types (overrides : gmap pystr pystr).

Lemma fuzzy_step_keep_best dineout_name :
  fuzzy_step dineout_name = keep_best (fuzzy_score dineout_name).
Proof. reflexivity. Qed.





(** C9. The score [match_listing] returns lies between 0 and 1. *)
Theorem match_listing_score_unit dineout_name listings overrides :
  Score.in_unit (match_listing dineout_name listings overrides).1.2.
Proof.
  unfold match_listing.
  destruct (override_hit _ _ _); simpl; [apply in_unit_1|].
  destruct (find _ listings); simpl.
  { split; by apply Qle_bool_iff. }
  pose proof (keep_best_unit (fuzzy_score dineout_name) listings
                (fun x => pair_score_unit _ _) None 0%Q in_unit_0) as H.
  rewrite <- fuzzy_step_keep_best in H.
  by destruct (foldl _ _ listings).
Qed.

End Resolver.

(** ** Ranking and symmetry *)
Section Ranking.

Import Foodies.

Implicit Types (dineout_name target : pystr) (listings : list listing).
Implicit Types (overrides : gmap pystr pystr).

Lemma prefix_match_score_lt_one (a_tokens b_tokens : list pystr) :
  (prefix_match_score a_tokens b_tokens < 1)%Q.
Proof. unfold prefix_match_score. repeat case_match; reflexivity. Qed.

Lemma token_overlap_score_lt_one (a_tokens b_tokens : list pystr) :
  (token_overlap_score a_tokens b_tokens < 1)%Q.
Proof. unfold token_overlap_score. repeat case_match; reflexivity. Qed.

(** Equal normalized names score 1, and only they do. *)
Lemma max3_ratio_self (x : pystr) (a_tokens b_tokens : list pystr) :
  Score.max3 (similarity x x) (prefix_match_score a_tokens b_tokens)
             (token_overlap_score a_tokens b_tokens) = 1%Q.
Proof.
  unfold similarity, Score.max3. rewrite ratio_self.
  rewrite (proj2 (gt_false _ 1)) by apply prefix_match_score_unit.
  by rewrite (proj2 (gt_false _ 1)) by apply token_overlap_score_unit.
Qed.

Lemma max3_ratio_lt_one (x y : pystr) (a_tokens b_tokens : list pystr) :
  x <> y ->
  (Score.max3 (similarity x y) (prefix_match_score a_tokens b_tokens)
              (token_overlap_score a_tokens b_tokens) < 1)%Q.
Proof.
  intros Hne.
  destruct (max3_cases (similarity x y)
              (prefix_match_score a_tokens b_tokens)
              (token_overlap_score a_tokens b_tokens)) as [-> | [-> | ->]].
  - destruct (ratio_unit x y) as [_ Hle].
    apply Qle_lteq in Hle as [Hlt | Heq]; [done|].
    by apply ratio_one_eq in Heq.
  - apply prefix_match_score_lt_one.
  - apply token_overlap_score_lt_one.
Qed.




(** The first two components of the score are symmetric. *)
Lemma prefix_match_score_sym (a_tokens b_tokens : list pystr) :
  prefix_match_score a_tokens b_tokens = prefix_match_score b_tokens a_tokens.
Proof.
  unfold prefix_match_score.
  rewrite (orb_comm (bool_decide (a_tokens = []))).
  destruct (_ || _); [done|].
  destruct (decide (take 3 a_tokens = take 3 b_tokens)) as [E3|N3].
  - rewrite (bool_decide_eq_true_2 _ E3).
    rewrite (bool_decide_eq_true_2 (take 3 b_tokens = take 3 a_tokens));
      [|done].
    rewrite E3. destruct (2 <=? length (take 3 b_tokens)); simpl; [done|].
    rewrite (andb_comm (2 <=? length a_tokens)).
    destruct (decide (take 2 a_tokens = take 2 b_tokens)) as [E2|N2].
    + by rewrite !bool_decide_eq_true_2.
    + by rewrite !bool_decide_eq_false_2.
  - rewrite (bool_decide_eq_false_2 _ N3).
    rewrite (bool_decide_eq_false_2 (take 3 b_tokens = take 3 a_tokens));
      [|done].
    simpl. rewrite (andb_comm (2 <=? length a_tokens)).
    destruct (decide (take 2 a_tokens = take 2 b_tokens)) as [E2|N2].
    + by rewrite !bool_decide_eq_true_2.
    + by rewrite !bool_decide_eq_false_2.
Qed.

Lemma token_overlap_score_sym (a_tokens b_tokens : list pystr) :
  token_overlap_score a_tokens b_tokens = token_overlap_score b_tokens a_tokens.
Proof.
  unfold token_overlap_score.
  rewrite (orb_comm (length a_tokens <? 2)).
  rewrite (Nat.min_comm (length a_tokens)).
  by rewrite (intersection_comm_L (list_to_set a_tokens)).
Qed.

(** C6, as the code has it. The prefix-token score and the token-overlap
    score do not depend on the order of their arguments. *)
Theorem heuristic_scores_symmetric (a_tokens b_tokens : list pystr) :
  prefix_match_score a_tokens b_tokens = prefix_match_score b_tokens a_tokens
  /\ token_overlap_score a_tokens b_tokens
     = token_overlap_score b_tokens a_tokens.
Proof. split; [apply prefix_match_score_sym | apply token_overlap_score_sym]. Qed.





(** The same rule in [match_name] of load_google_maps_list.py, whose
    exact check sits inside the loop. *)
Lemma match_name_pair_score_exact target cand_name :
  MapsList.normalize_name cand_name = MapsList.normalize_name target ->
  MapsList.pair_score target cand_name = 1%Q.
Proof.
  intros H. unfold MapsList.pair_score. rewrite H. apply max3_ratio_self.
Qed.

Lemma match_name_pair_score_lt_one target cand_name :
  MapsList.normalize_name cand_name <> MapsList.normalize_name target ->
  (MapsList.pair_score target cand_name < 1)%Q.
Proof. intros H. by apply max3_ratio_lt_one. Qed.

Lemma match_name_pair_score_unit target cand_name :
  Score.in_unit (MapsList.pair_score target cand_name).
Proof.
  apply max3_unit;
    [apply ratio_unit | apply prefix_match_score_unit
    | apply token_overlap_score_unit].
Qed.

Lemma match_name_from_first_max target (candidates : list MapsList.restaurant) :
  forall best best_score,
    (best_score < 1)%Q ->
    let score c := MapsList.pair_score target (MapsList.name c) in
    let r := MapsList.match_name_from target best best_score candidates in
    (Forall (fun c => (score c <= best_score)%Q) candidates /\
     r = (best, best_score))
    \/ (exists pre hit post,
          candidates = pre ++ hit :: post /\
          r.1 = Some hit /\
          (best_score < score hit)%Q /\
          Forall (fun c => (score c < score hit)%Q) pre /\
          Forall (fun c => (score c <= score hit)%Q) post /\
          (r.2 = score hit \/ (score hit = 1%Q /\ r.2 = (19 # 20)%Q))).
Proof.
  induction candidates as [|c candidates IH]; intros best best_score Hlt;
    cbv zeta; simpl.
  - left. by split.
  - case_bool_decide as Hexact.
    + right. exists [], c, candidates.
      pose proof (match_name_pair_score_exact _ _ Hexact) as Hone.
      rewrite Hone. repeat split; auto.
      apply Forall_forall. intros c' _. apply match_name_pair_score_unit.
    + pose proof (match_name_pair_score_lt_one _ _ Hexact) as Hc.
      destruct (Score.gt _ best_score) eqn:E.
      * apply gt_spec in E. right.
        destruct (IH (Some c) (MapsList.pair_score target (MapsList.name c)) Hc)
          as [[Hall ->] | (pre & hit & post & -> & Hr & Hgt & Hpre & Hpost & Hs)].
        -- exists [], c, candidates. repeat split; auto.
        -- exists (c :: pre), hit, post. repeat split; auto.
           by eapply Qlt_trans.
      * apply gt_false in E.
        destruct (IH best best_score Hlt)
          as [[Hall ->] | (pre & hit & post & -> & Hr & Hgt & Hpre & Hpost & Hs)].
        -- left. split; [by constructor | done].
        -- right. exists (c :: pre), hit, post. repeat split; auto.
           constructor; [|done]. by eapply Qle_lt_trans.
Qed.

(** X25. For a target whose normal form is not empty, [match_name] returns no
    restaurant when no candidate scores above 0, and otherwise the first
    candidate that reaches the largest score: every candidate before it
    scores strictly less, no candidate after it scores more. *)
Lemma match_name_first_max target (candidates : list MapsList.restaurant) :
  MapsList.normalize_name target <> [] ->
  let score c := MapsList.pair_score target (MapsList.name c) in
  (Forall (fun c => (score c <= 0)%Q) candidates /\
   MapsList.match_name target candidates = (None, 0%Q))
  \/ (exists pre hit post,
        candidates = pre ++ hit :: post /\
        (MapsList.match_name target candidates).1 = Some hit /\
        (0 < score hit)%Q /\
        Forall (fun c => (score c < score hit)%Q) pre /\
        Forall (fun c => (score c <= score hit)%Q) post).
Proof.
  intros Hne. cbv zeta. unfold MapsList.match_name.
  rewrite bool_decide_eq_false_2 by done.
  destruct (match_name_from_first_max target candidates None 0%Q)
    as [[Hall ->] | (pre & hit & post & -> & Hr & Hgt & Hpre & Hpost & _)];
    [reflexivity | by left |].
  right. by exists pre, hit, post.
Qed.

(** Against a name that normalizes to nothing, a name that does not scores
    0 in [match_listing] too. *)
Lemma blocks_loop_empty_left (y : pystr) (b2j : gmap N (list nat)) fuel :
  Difflib.blocks_loop [] y b2j (S fuel) [(0, 0, 0, length y)] [] = Some [].
Proof.
  cbn [Difflib.blocks_loop].
  assert (Difflib.find_longest_match [] y b2j 0 0 0 (length y) = (0, 0, 0))
    as -> by reflexivity.
  cbn [Nat.eqb]. by destruct fuel.
Qed.

Lemma ratio_empty_left (y : pystr) : y <> [] -> Difflib.ratio [] y = 0%Q.
Proof.
  intros Hy.
  assert (Difflib.get_matching_blocks [] y
          = Some (Difflib.collapse 0 (length y)
                    (merge_sort Difflib.Match_le []))) as Hg.
  { unfold Difflib.get_matching_blocks.
    change (2 * length (@nil N) + 2) with 2.
    change (length (@nil N)) with 0.
    by rewrite blocks_loop_empty_left. }
  unfold Difflib.ratio. rewrite Hg. cbn [from_option id].
  rewrite collapse_size, merge_sort_Permutation. cbn [sum_list_with].
  unfold Difflib.calculate_ratio.
  destruct y as [|c y]; [done|]. cbn [length Nat.add Nat.eqb].
  by apply (Qred_complete _ 0).
Qed.


End Ranking.

(** ** Names that normalize to nothing *)
Section EmptyNames.


(** C2, on the code. [match_listing] has no such guard: "The Bar" and
    "The Restaurant" both normalize to the empty string, the ratio of two
    empty strings is 1, and the listing is returned with score 1. *)
Theorem match_listing_empty_target_scores_one :
  Foodies.normalize_name the_bar = []
  /\ Foodies.normalize_name (Foodies.name the_restaurant) = []
  /\ Foodies.pair_score the_bar (Foodies.name the_restaurant) = 1%Q
  /\ Foodies.match_listing the_bar [the_restaurant] ∅
     = (Some the_restaurant, 1%Q, "fuzzy"%string).
Proof. repeat split; vm_compute; reflexivity. Qed.

End EmptyNames.

(** ** The fixtures of the specification *)
Section Fixtures.

(** C5, on the code. The accented letter is replaced by a space before the
    stop-words are filtered, so the token that is left is "caf", which is no
    stop-word: the result is "joe s caf" in all three scripts. *)
Theorem normalize_name_joes :
  Foodies.normalize_name joes_cafe_and_grill = str "joe s caf"
  /\ MapsList.normalize_name joes_cafe_and_grill = str "joe s caf"
  /\ MapsHtml.normalize_name joes_cafe_and_grill = str "joe s caf".
Proof. repeat split; vm_compute; reflexivity. Qed.

(** C4, against the specification: the score of the pair is below 0.90. *)
Lemma kebab_pair_below_090 :
  ~ ((9 # 10) <= Foodies.pair_score kebab_downtown kebab_main_st)%Q.
Proof.
  intros H. apply Qle_bool_iff in H. vm_compute in H. discriminate.
Qed.

(** C4, as the code has it. "house" is a stop-word: the token lists are
    [kebab; downtown] and [kebab; main; st], the prefix-token and
    token-overlap scores are 0, and the score of the pair is the ratio of
    "kebab downtown" and "kebab main st", 16/27. *)
Theorem kebab_house_score :
  Foodies.tokenize_name kebab_downtown = [str "kebab"; str "downtown"]
  /\ Foodies.tokenize_name kebab_main_st
     = [str "kebab"; str "main"; str "st"]
  /\ Foodies.prefix_match_score (Foodies.tokenize_name kebab_downtown)
       (Foodies.tokenize_name kebab_main_st) = 0%Q
  /\ Foodies.token_overlap_score (Foodies.tokenize_name kebab_downtown)
       (Foodies.tokenize_name kebab_main_st) = 0%Q
  /\ Foodies.pair_score kebab_downtown kebab_main_st = (16 # 27)%Q.
Proof. repeat split; vm_compute; reflexivity. Qed.

(** C6, against the specification: the ratio of [SequenceMatcher] depends on the
    order of its arguments, and so does the score of a pair. *)
Lemma pair_score_not_symmetric :
  Foodies.similarity (str "tide") (str "diet") = (1 # 4)%Q
  /\ Foodies.similarity (str "diet") (str "tide") = (1 # 2)%Q
  /\ ~ (Foodies.pair_score (str "tide") (str "diet")
        == Foodies.pair_score (str "diet") (str "tide"))%Q.
Proof.
  repeat split; try (vm_compute; reflexivity).
  intros H. apply Qeq_bool_iff in H. vm_compute in H. discriminate.
Qed.


End Fixtures.

(** ** The override table *)
Section Overrides.

Import Foodies.

Lemma row_entry_fields row :
  match row_entry row with
  | Some (key, target) =>
      field_key row (str "vancouverfoodies_name") = Ok target
      /\ field_key row (str "dineout_name") = Ok key
  | None =>
      (exists e, field_key row (str "vancouverfoodies_name") = Raise e)
      \/ (exists e, field_key row (str "dineout_name") = Raise e)
  end.
Proof.
  unfold row_entry, field_key.
  destruct (row !! str "vancouverfoodies_name") as [[| | |target]|];
    destruct (row !! str "dineout_name") as [[| | |key]|]; eauto.
Qed.

Lemma fetch_overrides_from_spec rows :
  forall overrides,
    match mapM row_entry rows with
    | Some entries =>
        fetch_overrides_from overrides rows
        = Ok (foldl insert_entry overrides entries)
    | None => exists e, fetch_overrides_from overrides rows = Raise e
    end.
Proof.
  induction rows as [|row rows IH]; intros overrides; simpl; [done|].
  pose proof (row_entry_fields row) as Hrow.
  destruct (row_entry row) as [[key target]|]; simpl.
  - destruct Hrow as [-> ->]. simpl.
    specialize (IH (<[key := target]> overrides)).
    destruct (mapM row_entry rows); simpl; exact IH.
  - destruct Hrow as [[e ->] | [e He]]; simpl; [by eexists|].
    destruct (field_key row (str "vancouverfoodies_name")); simpl;
      [rewrite He|]; by eexists.
Qed.

(** C8, as the code has it. [fetch_overrides] returns the map of all rows,
    later rows overwriting earlier ones, when every row holds both names as
    strings; as soon as one row lacks a name or holds a value that is not a
    string it raises, and no map is returned. *)
Theorem fetch_overrides_all_or_nothing (rows : list (gmap pystr json)) :
  match mapM row_entry rows with
  | Some entries => fetch_overrides rows = Ok (foldl insert_entry ∅ entries)
  | None => exists e, fetch_overrides rows = Raise e
  end.
Proof. apply fetch_overrides_from_spec. Qed.

(** C8, against the specification: a row with a null name after a well-formed row
    makes [fetch_overrides] raise; the entry of the first row is lost. *)
Lemma fetch_overrides_null_row_raises :
  fetch_overrides [good_row] = Ok {[ str "sula indian restaurant" := str "sula" ]}
  /\ fetch_overrides [good_row; null_row] = Raise AttributeError.
Proof. split; vm_compute; reflexivity. Qed.

End Overrides.

(** ** The keyed catalog of update_google_maps_from_html.py *)
Section KeyedCatalog.

Import MapsHtml.

Implicit Types (existing : list existing_row) (entries : list entry).
Implicit Types (by_key : gmap pystr (list existing_row)) (e : entry).
Implicit Types (base : pystr) (taken : gset pystr).

Lemma str_inj : Inj (=) (=) str.
Proof.
  intros s1 s2 H. unfold str in H.
  rewrite <- (string_of_list_ascii_of_string s1),
          <- (string_of_list_ascii_of_string s2).
  f_equal. revert H. generalize (list_ascii_of_string s1) as l1.
  generalize (list_ascii_of_string s2) as l2.
  induction l2 as [|c2 l2 IH]; intros [|c1 l1]; simpl; try done.
  intros [= Hc Hl]. f_equal; [|by apply IH].
  rewrite <- (ascii_N_embedding c1), <- (ascii_N_embedding c2).
  by rewrite Hc.
Qed.

Lemma decimal_inj : Inj (=) (=) decimal.
Proof. intros n1 n2 H. by apply (inj pretty), str_inj. Qed.

Lemma candidate_inj base : Inj (=) (=) (candidate base).
Proof.
  intros n1 n2 H. unfold candidate in H.
  by apply app_inv_head, app_inv_head, decimal_inj in H.
Qed.

Lemma unique_slug_from_found base taken fuel :
  forall counter n,
    n < fuel -> candidate base (counter + n) ∉ taken ->
    is_Some (unique_slug_from base taken fuel counter).
Proof.
  induction fuel as [|fuel IH]; intros counter n Hn Hfree; [lia|]. simpl.
  fold (candidate base counter).
  destruct (decide (candidate base counter ∉ taken)) as [Hc|Hc].
  - rewrite (bool_decide_eq_true_2 _ Hc). by eexists.
  - rewrite (bool_decide_eq_false_2 _ Hc).
    destruct n as [|n].
    + by rewrite Nat.add_0_r in Hfree.
    + apply (IH (counter + 1) n); [lia|].
      by replace (counter + 1 + n) with (counter + S n) by lia.
Qed.

(** Among [size taken + 1] candidates one is free. *)
Lemma candidate_free base taken counter :
  exists n, n < size taken + 1 /\ candidate base (counter + n) ∉ taken.
Proof.
  set (l := (fun n => candidate base (counter + n)) <$> seq 0 (size taken + 1)).
  destruct (decide (Forall (fun x => x ∈ taken) l)) as [Hall|Hnot].
  - exfalso.
    assert (NoDup l) as Hnd.
    { apply NoDup_fmap_2; [|apply NoDup_seq].
      intros n1 n2 H. apply candidate_inj in H. lia. }
    assert (list_to_set l ⊆ taken) as Hsub.
    { intros x Hx. apply elem_of_list_to_set in Hx.
      by rewrite Forall_forall in Hall; apply Hall. }
    apply subseteq_size in Hsub.
    rewrite (size_list_to_set l Hnd) in Hsub.
    unfold l in Hsub. rewrite length_fmap, length_seq in Hsub. lia.
  - apply not_Forall_Exists in Hnot; [|apply _].
    apply Exists_exists in Hnot as (x & Hin & Hx).
    apply list_elem_of_fmap in Hin as (n & -> & Hn).
    apply elem_of_seq in Hn. exists n. split; [lia|done].
Qed.

(** [unique_slug] always returns. *)
Lemma unique_slug_total base taken :
  is_Some (unique_slug base taken).
Proof.
  unfold unique_slug. case_bool_decide; [by eexists|].
  destruct (candidate_free base taken 2) as (n & Hn & Hfree).
  by eapply unique_slug_from_found.
Qed.

Lemma index_step_lookup existing key :
  forall st,
    default [] ((foldl index_step st existing).1 !! key)
    = default [] (st.1 !! key)
      ++ filter (fun row => normalize_name (row_name row) = key) existing.
Proof.
  induction existing as [|row existing IH]; intros st; simpl.
  - by rewrite app_nil_r.
  - rewrite IH. unfold index_step. simpl.
    rewrite filter_cons. rewrite lookup_insert.
    repeat case_decide; simplify_eq; simpl; try done.
    by rewrite <- app_assoc.
Qed.

Lemma index_existing_lookup existing e :
  default [] ((index_existing existing).1 !! normalized e)
  = same_key_rows existing e.
Proof.
  unfold index_existing. rewrite index_step_lookup. simpl.
  by rewrite lookup_empty.
Qed.

Lemma plan_loop_spec existing entries :
  forall st,
    exists st',
      plan_loop (index_existing existing).1 st entries = Some st' /\
      ambiguous st' = ambiguous st ++ omap (ambiguous_of existing) entries /\
      matched_updates st'
      = matched_updates st ++ omap (update_of existing) entries /\
      new_name <$> new_rows st'
      = (new_name <$> new_rows st) ++ omap (insert_of existing) entries.
Proof.
  induction entries as [|e entries IH]; intros st; simpl.
  - exists st. by rewrite !app_nil_r.
  - unfold plan_step. rewrite index_existing_lookup.
    unfold ambiguous_of, update_of, insert_of.
    destruct (same_key_rows existing e) as [|m [|m' rows]] eqn:E; simpl.
    + destruct (unique_slug_total (slugify (entry_name e)) (slugs_in_use st))
        as [slug ->]. simpl.
      edestruct IH as (st' & -> & Ha & Hu & Hn). exists st'.
      rewrite Ha, Hu, Hn. simpl. rewrite fmap_app. simpl.
      by rewrite <- !app_assoc.
    + edestruct IH as (st' & -> & Ha & Hu & Hn). exists st'.
      rewrite Ha, Hu, Hn. simpl. by rewrite <- !app_assoc.
    + edestruct IH as (st' & -> & Ha & Hu & Hn). exists st'.
      rewrite Ha, Hu, Hn. simpl. by rewrite <- !app_assoc.
Qed.

(** C7. [main] always ends with its three lists, and for every entry whose
    normalized name is the normalized name of more than one existing row,
    the entry is in the ambiguous list with the names of all those rows;
    the updates come from the entries with exactly one such row and the new
    rows from the entries with none, so an entry with several rows is
    neither used for an update, nor inserted, nor paired with one of its
    rows. *)
Theorem ambiguous_key_is_reported existing entries :
  exists p,
    plan_updates existing entries = Some p /\
    (forall e, e ∈ entries -> 1 < length (same_key_rows existing e) ->
       (entry_name e, row_name <$> same_key_rows existing e) ∈ ambiguous p) /\
    ambiguous p = omap (ambiguous_of existing) entries /\
    matched_updates p = omap (update_of existing) entries /\
    new_name <$> new_rows p = omap (insert_of existing) entries.
Proof.
  unfold plan_updates.
  destruct (index_existing existing) as [by_key slugs] eqn:E.
  destruct (plan_loop_spec existing entries
              {| matched_updates := []; new_rows := []; ambiguous := [];
                 slugs_in_use := slugs |}) as (p & Hp & Ha & Hu & Hn).
  rewrite E in Hp. simpl in *.
  exists p. repeat split; auto.
  intros e Hin Hlen. rewrite Ha. apply list_elem_of_omap.
  exists e. split; [done|]. unfold ambiguous_of.
  apply Nat.ltb_lt in Hlen. by rewrite Hlen.
Qed.

End KeyedCatalog.

(** ** Instances *)
Section Instances.

Import Foodies.




End Instances.

(** ** The normalizer *)
Section NormalizerFacts.

Import Py.

Lemma split_from_run (t : pystr) :
  Forall (fun c => is_space c = false) t ->
  forall cur rest, split_from cur (t ++ rest) = split_from (rev t ++ cur) rest.
Proof.
  induction 1 as [|c t Hc Ht IH]; intros cur rest; simpl; [done|].
  rewrite Hc, IH. by rewrite <- app_assoc.
Qed.

Lemma rev_token (t : pystr) :
  t <> [] -> match rev t with [] => [] | _ :: _ => [rev (rev t)] end = [t].
Proof.
  intros Hne. destruct (rev t) eqn:E.
  - apply (f_equal (@rev N)) in E. rewrite rev_involutive in E. by simpl in E.
  - by rewrite <- E, rev_involutive.
Qed.

Lemma split_from_space (cur rest : pystr) :
  split_from cur (32%N :: rest)
  = match cur with
    | [] => split_from [] rest
    | _ :: _ => rev cur :: split_from [] rest
    end.
Proof. reflexivity. Qed.

(** [" ".join(tokens).split()] gives the tokens back. *)
Lemma split_join (tokens : list pystr) :
  Forall is_token tokens -> split (join (str " ") tokens) = tokens.
Proof.
  unfold split. induction 1 as [|t tokens [Hne Ht] Htok IH]; [done|].
  destruct tokens as [|t' tokens].
  - simpl join. rewrite <- (app_nil_r t) at 1.
    rewrite split_from_run by done. simpl. rewrite app_nil_r.
    by apply rev_token.
  - change (join (str " ") (t :: t' :: tokens))
      with (t ++ 32%N :: join (str " ") (t' :: tokens)).
    rewrite split_from_run by done. rewrite app_nil_r.
    rewrite split_from_space, IH.
    pose proof (rev_token t Hne) as Hr.
    destruct (rev t); [discriminate Hr|].
    injection Hr as Hr. simpl. by rewrite Hr.
Qed.

(** What [split] returns are tokens, made of characters of the string. *)
Lemma split_from_tokens (P : N -> Prop) (s : pystr) :
  Forall P s ->
  forall cur,
    Forall (fun c => is_space c = false) cur -> Forall P cur ->
    Forall (fun t => is_token t /\ Forall P t) (split_from cur s).
Proof.
  induction 1 as [|c s Hc Hs IH]; intros cur Hcur HPcur; simpl.
  - destruct cur as [|c0 cur]; [constructor|].
    constructor; [|constructor]. repeat split.
    + intros E. apply (f_equal (@length N)) in E.
      rewrite length_rev in E. done.
    + apply Forall_rev. done.
    + by apply Forall_rev.
  - destruct (is_space c) eqn:Ec.
    + destruct cur as [|c0 cur]; [by apply IH|].
      constructor; [|by apply IH]. repeat split.
      * intros E. apply (f_equal (@length N)) in E.
        rewrite length_rev in E. done.
      * by apply Forall_rev.
      * by apply Forall_rev.
    + apply IH; by constructor.
Qed.

Lemma split_tokens (P : N -> Prop) (s : pystr) :
  Forall P s -> Forall (fun t => is_token t /\ Forall P t) (split s).
Proof. intros H. by apply split_from_tokens. Qed.

(** Comparisons of code points as linear arithmetic. *)
Ltac n_arith :=
  unfold plain_char, lower_alnum, not_alnum_space, is_space, in_range in *;
  rewrite ?negb_true_iff, ?negb_false_iff in *;
  repeat rewrite ?orb_true_iff, ?orb_false_iff, ?andb_true_iff,
    ?andb_false_iff, ?N.leb_le, ?N.leb_gt, ?N.eqb_eq, ?N.eqb_neq in *;
  lia.

Lemma lower_alnum_not_space c : lower_alnum c = true -> is_space c = false.
Proof. intros H. n_arith. Qed.

Lemma plain_char_lower c : plain_char c -> lower_cp c = [c].
Proof.
  intros H. unfold lower_cp.
  assert (in_range 65 90 c = false) as -> by n_arith.
  assert (in_range 192 222 c = false) as -> by n_arith.
  assert ((c =? 304)%N = false) as -> by n_arith.
  assert ((c =? 8490)%N = false) as -> by n_arith.
  done.
Qed.

Lemma plain_char_not_amp c : plain_char c -> (c =? 38)%N = false.
Proof. intros H. n_arith. Qed.

Lemma plain_char_kept c : plain_char c -> not_alnum_space c = false.
Proof. intros H. n_arith. Qed.

Lemma kept_char c :
  not_alnum_space c = false -> lower_alnum c = true \/ is_space c = true.
Proof.
  unfold not_alnum_space, lower_alnum. intros H%negb_false_iff.
  apply orb_true_iff in H. done.
Qed.

Lemma flat_map_id {A} (f : A -> list A) (l : list A) :
  Forall (fun x => f x = [x]) l -> flat_map f l = l.
Proof. induction 1 as [|x l Hx _ IH]; simpl; [done|]. by rewrite Hx, IH. Qed.

Lemma raw_tokens_alnum (text : pystr) : Forall alnum_token (raw_tokens text).
Proof.
  unfold raw_tokens.
  eapply Forall_impl.
  - apply (split_tokens (fun c => lower_alnum c = true \/ is_space c = true)).
    unfold re_sub_class. apply Forall_flat_map, Forall_forall.
    intros c _. destruct (not_alnum_space c) eqn:E.
    + constructor; [by right | constructor].
    + constructor; [|constructor]. by apply kept_char.
  - intros t [[Hne Hsp] Hch]. split; [done|].
    rewrite Forall_forall in *. intros c Hc.
    destruct (Hch c Hc) as [H|H]; [done|]. by rewrite (Hsp c Hc) in H.
Qed.

Lemma alnum_token_is_token t : alnum_token t -> is_token t.
Proof.
  intros [Hne Hch]. split; [done|].
  eapply Forall_impl; [exact Hch|]. apply lower_alnum_not_space.
Qed.

Lemma join_plain (tokens : list pystr) :
  Forall alnum_token tokens -> Forall plain_char (join (str " ") tokens).
Proof.
  induction 1 as [|t tokens [_ Ht] _ IH]; [constructor|].
  assert (Forall plain_char t) as Hp.
  { eapply Forall_impl; [exact Ht|]. intros c Hc. by left. }
  destruct tokens as [|t' tokens]; [done|].
  change (join (str " ") (t :: t' :: tokens))
    with (t ++ 32%N :: join (str " ") (t' :: tokens)).
  apply Forall_app. split; [done|]. constructor; [by right | done].
Qed.

(** On a string of plain characters made of tokens the steps before the
    stop-word filter do nothing. *)
Lemma raw_tokens_join (tokens : list pystr) :
  Forall alnum_token tokens ->
  raw_tokens (lower (join (str " ") tokens)) = tokens.
Proof.
  intros Htok. pose proof (join_plain tokens Htok) as Hp.
  unfold raw_tokens, lower, replace_char, re_sub_class.
  rewrite (flat_map_id lower_cp).
  2:{ eapply Forall_impl; [exact Hp|]. apply plain_char_lower. }
  rewrite (flat_map_id (fun x => if (x =? 38)%N then str " and " else [x])).
  2:{ eapply Forall_impl; [exact Hp|]. intros c Hc.
      by rewrite (plain_char_not_amp c Hc). }
  rewrite flat_map_id.
  2:{ eapply Forall_impl; [exact Hp|]. intros c Hc.
      by rewrite (plain_char_kept c Hc). }
  apply split_join. eapply Forall_impl; [exact Htok|].
  apply alnum_token_is_token.
Qed.

Lemma filter_all {A} (P : A -> Prop) `{!forall x, Decision (P x)} (l : list A) :
  Forall P l -> filter P l = l.
Proof.
  induction 1 as [|x l Hx _ IH]; [done|].
  by rewrite filter_cons, decide_True, IH.
Qed.

Lemma Forall_filter_both {A} (P Q : A -> Prop) `{!forall x, Decision (P x)}
    (l : list A) :
  Forall Q l -> Forall (fun x => P x /\ Q x) (filter P l).
Proof.
  intros HQ. apply Forall_forall. intros x [HP Hin]%list_elem_of_filter.
  split; [done|]. rewrite Forall_forall in HQ. by apply HQ.
Qed.

Lemma kept_tokens_shape (stop : gset pystr) (text : pystr) :
  Forall (fun t => alnum_token t /\ t ∉ stop) (kept_tokens stop text).
Proof.
  unfold kept_tokens.
  eapply Forall_impl.
  - apply (Forall_filter_both _ alnum_token), raw_tokens_alnum.
  - intros t [[_ Hs] Ha]. by split.
Qed.

Lemma kept_tokens_alnum (stop : gset pystr) (text : pystr) :
  Forall alnum_token (kept_tokens stop text).
Proof.
  eapply Forall_impl; [apply kept_tokens_shape|]. by intros t [? _].
Qed.

(** Splitting the normalized name gives the kept tokens back. *)
Lemma split_kept_tokens (stop : gset pystr) (text : pystr) :
  split (join (str " ") (kept_tokens stop text)) = kept_tokens stop text.
Proof.
  apply split_join. eapply Forall_impl; [apply kept_tokens_alnum|].
  apply alnum_token_is_token.
Qed.

(** Normalizing a normalized name changes nothing. *)
Lemma kept_tokens_join (stop : gset pystr) (text : pystr) :
  kept_tokens stop (lower (join (str " ") (kept_tokens stop text)))
  = kept_tokens stop text.
Proof.
  unfold kept_tokens at 1. rewrite raw_tokens_join by apply kept_tokens_alnum.
  apply filter_all. eapply Forall_impl; [apply kept_tokens_shape|].
  intros t [[Hne _] Hs]. by split.
Qed.

(** A stripped string: empty, or with a first and a last character that are
    no spaces. *)
Lemma lstrip_of_id (chars : N -> bool) (s : pystr) :
  match s with [] => True | c :: _ => chars c = false end ->
  lstrip_of chars s = s.
Proof. destruct s as [|c s]; simpl; [done|]. by intros ->. Qed.

Lemma strip_of_id (chars : N -> bool) (s : pystr) :
  match s with [] => True | c :: _ => chars c = false end ->
  match rev s with [] => True | c :: _ => chars c = false end ->
  strip_of chars s = s.
Proof.
  intros H1 H2. unfold strip_of, rstrip_of.
  rewrite (lstrip_of_id chars s H1), (lstrip_of_id chars (rev s) H2).
  apply rev_involutive.
Qed.

Lemma join_ends (tokens : list pystr) :
  Forall alnum_token tokens ->
  match join (str " ") tokens with
  | [] => True
  | c :: _ => lower_alnum c = true
  end.
Proof.
  destruct 1 as [|t tokens [Hne Ht] _]; [done|].
  destruct t as [|c t]; [done|]. apply Forall_cons in Ht as [Hc _].
  by destruct tokens.
Qed.

Lemma rev_cons_app {A} (x : A) (l : list A) : rev (x :: l) = rev l ++ [x].
Proof. reflexivity. Qed.

Lemma join_snoc (l : list pystr) (x : pystr) :
  l <> [] -> join (str " ") (l ++ [x]) = join (str " ") l ++ 32%N :: x.
Proof.
  induction l as [|y l IH]; intros Hne; [done|].
  destruct l as [|z l]; [done|].
  change (join (str " ") ((y :: z :: l) ++ [x]))
    with (y ++ 32%N :: join (str " ") ((z :: l) ++ [x])).
  rewrite IH by done.
  change (join (str " ") (y :: z :: l))
    with (y ++ 32%N :: join (str " ") (z :: l)).
  by rewrite <- app_assoc.
Qed.

Lemma rev_join (tokens : list pystr) :
  rev (join (str " ") tokens)
  = join (str " ") (rev ((fun t : pystr => rev t) <$> tokens)).
Proof.
  induction tokens as [|t tokens IH]; [done|].
  destruct tokens as [|t' tokens]; [by simpl|].
  change (join (str " ") (t :: t' :: tokens))
    with (t ++ 32%N :: join (str " ") (t' :: tokens)).
  rewrite rev_app_distr, rev_cons_app, IH.
  change ((fun t : pystr => rev t) <$> t :: t' :: tokens)
    with (rev t :: ((fun t : pystr => rev t) <$> t' :: tokens)).
  rewrite (rev_cons_app (rev t)), join_snoc.
  - by rewrite <- app_assoc.
  - change ((fun t : pystr => rev t) <$> t' :: tokens)
      with (rev t' :: ((fun t : pystr => rev t) <$> tokens)).
    rewrite rev_cons_app. intros E. by apply app_eq_nil in E as [_ E].
Qed.

Lemma alnum_token_rev t : alnum_token t -> alnum_token (rev t).
Proof.
  intros [Hne Ht]. split; [|by apply Forall_rev].
  intros E. apply Hne. apply (f_equal (@rev N)) in E.
  by rewrite rev_involutive in E.
Qed.

(** A normalized name is stripped and holds no control character. *)
Lemma clean_text_join (tokens : list pystr) :
  Forall alnum_token tokens ->
  MapsHtml.clean_text (join (str " ") tokens) = join (str " ") tokens.
Proof.
  intros Htok. unfold MapsHtml.clean_text. case_bool_decide as He; [done|].
  unfold re_sub_class. rewrite flat_map_id.
  - apply strip_of_id.
    + pose proof (join_ends tokens Htok) as H.
      destruct (join (str " ") tokens); [done|].
      by apply lower_alnum_not_space.
    + rewrite rev_join.
      assert (Forall alnum_token (rev ((fun t : pystr => rev t) <$> tokens))) as Hrev.
      { apply Forall_rev, Forall_fmap. eapply Forall_impl; [exact Htok|].
        apply alnum_token_rev. }
      pose proof (join_ends _ Hrev) as H.
      destruct (join (str " ") (rev ((fun t : pystr => rev t) <$> tokens))); [done|].
      by apply lower_alnum_not_space.
  - eapply Forall_impl; [apply (join_plain tokens Htok)|].
    intros c Hc. assert (MapsHtml.control_char c = false) as ->; [|done].
    unfold MapsHtml.control_char. n_arith.
Qed.

Lemma foodies_normalize_name_eq text :
  Foodies.normalize_name text
  = join (str " ") (kept_tokens Foodies.STOPWORDS (lower text)).
Proof. reflexivity. Qed.

Lemma maps_list_normalize_name_eq text :
  MapsList.normalize_name text
  = join (str " ") (kept_tokens MapsList.STOPWORDS (lower text)).
Proof. reflexivity. Qed.

Lemma maps_html_normalize_name_eq text :
  MapsHtml.normalize_name text
  = join (str " ")
      (kept_tokens MapsList.STOPWORDS (lower (MapsHtml.clean_text text))).
Proof. reflexivity. Qed.

(** No token of [normalize_name] is one of the two accented spellings. *)
Lemma alnum_token_stopword t :
  alnum_token t -> t ∈ Foodies.STOPWORDS <-> t ∈ MapsList.STOPWORDS.
Proof.
  intros [_ Ht]. unfold Foodies.STOPWORDS, MapsList.STOPWORDS.
  rewrite !elem_of_list_to_set, !elem_of_cons.
  assert (t <> str "caf" ++ [195%N; 169%N]) as H1.
  { intros ->. by repeat (apply Forall_cons in Ht as [? Ht]). }
  assert (t <> str "caf" ++ [233%N]) as H2.
  { intros ->. by repeat (apply Forall_cons in Ht as [? Ht]). }
  tauto.
Qed.

Lemma kept_tokens_stopwords text :
  kept_tokens Foodies.STOPWORDS text = kept_tokens MapsList.STOPWORDS text.
Proof.
  unfold kept_tokens. apply filter_ext_in. intros t Ht.
  pose proof (raw_tokens_alnum text) as Ha. rewrite Forall_forall in Ha.
  rewrite (alnum_token_stopword t (Ha t Ht)). done.
Qed.

(** X1. Every token of [tokenize_name] is non-empty, made of the characters
    a-z and 0-9, and no stop-word; [normalize_name] is these tokens joined
    by single spaces; load_google_maps_list.py computes the same tokens as
    load_vancouver_foodies.py. *)
Theorem tokenize_name_tokens text :
  Forall (fun t => t <> [] /\ Forall (fun c => lower_alnum c = true) t
                   /\ t ∉ Foodies.STOPWORDS) (Foodies.tokenize_name text)
  /\ Foodies.normalize_name text
     = join (str " ") (Foodies.tokenize_name text)
  /\ MapsList.tokenize_name text = Foodies.tokenize_name text.
Proof.
  unfold Foodies.tokenize_name, MapsList.tokenize_name.
  rewrite foodies_normalize_name_eq, maps_list_normalize_name_eq.
  rewrite <- kept_tokens_stopwords, !split_kept_tokens.
  repeat split.
  eapply Forall_impl; [apply kept_tokens_shape|].
  by intros t [[Hne Ht] Hs].
Qed.

(** X2. [normalize_name] is idempotent in the three scripts: the normal
    form of a normal form is that normal form. *)
Theorem normalize_name_idempotent text :
  Foodies.normalize_name (Foodies.normalize_name text)
  = Foodies.normalize_name text
  /\ MapsList.normalize_name (MapsList.normalize_name text)
     = MapsList.normalize_name text
  /\ MapsHtml.normalize_name (MapsHtml.normalize_name text)
     = MapsHtml.normalize_name text.
Proof.
  repeat split.
  - rewrite !foodies_normalize_name_eq. by rewrite kept_tokens_join.
  - rewrite !maps_list_normalize_name_eq. by rewrite kept_tokens_join.
  - rewrite !maps_html_normalize_name_eq.
    rewrite clean_text_join by apply kept_tokens_alnum.
    by rewrite kept_tokens_join.
Qed.

Lemma prepared_app s1 s2 : prepared (s1 ++ s2) = prepared s1 ++ prepared s2.
Proof.
  unfold prepared, re_sub_class, replace_char, lower.
  by rewrite !flat_map_app.
Qed.

Lemma space_lower c : is_space c = true -> lower_cp c = [c].
Proof.
  intros H. unfold lower_cp.
  assert (in_range 65 90 c = false) as -> by n_arith.
  assert (in_range 192 222 c = false) as -> by n_arith.
  assert ((c =? 304)%N = false) as -> by n_arith.
  assert ((c =? 8490)%N = false) as -> by n_arith.
  done.
Qed.

Lemma space_not_amp c : is_space c = true -> (c =? 38)%N = false.
Proof. intros H. n_arith. Qed.

Lemma space_kept c : is_space c = true -> not_alnum_space c = false.
Proof.
  intros H. unfold not_alnum_space. rewrite H.
  by rewrite !orb_true_r.
Qed.

Lemma prepared_spaces ws :
  Forall (fun c => is_space c = true) ws -> prepared ws = ws.
Proof.
  intros H. unfold prepared, re_sub_class, replace_char, lower.
  rewrite (flat_map_id lower_cp).
  2:{ eapply Forall_impl; [exact H|]. apply space_lower. }
  rewrite (flat_map_id (fun x => if (x =? 38)%N then str " and " else [x])).
  2:{ eapply Forall_impl; [exact H|]. intros c Hc.
      by rewrite (space_not_amp c Hc). }
  apply flat_map_id. eapply Forall_impl; [exact H|]. intros c Hc.
  by rewrite (space_kept c Hc).
Qed.

Lemma split_from_spaces ws :
  Forall (fun c => is_space c = true) ws ->
  forall rest, split_from [] (ws ++ rest) = split_from [] rest.
Proof.
  induction 1 as [|c ws Hc _ IH]; intros rest; simpl; [done|].
  by rewrite Hc.
Qed.

Lemma split_from_trailing ws :
  Forall (fun c => is_space c = true) ws ->
  forall s cur, split_from cur (s ++ ws) = split_from cur s.
Proof.
  intros Hws.
  assert (forall cur, split_from cur ws = split_from cur []) as Hbase.
  { intros cur. destruct Hws as [|c ws Hc Hws]; [done|]. simpl. rewrite Hc.
    pose proof (split_from_spaces ws Hws []) as H.
    rewrite app_nil_r in H. rewrite H. by destruct cur. }
  induction s as [|c s IH]; intros cur; simpl; [apply Hbase|].
  rewrite !IH. done.
Qed.

Lemma lstrip_of_parts chars s :
  exists ws, s = ws ++ lstrip_of chars s /\ Forall (fun c => chars c = true) ws.
Proof.
  induction s as [|c s (ws & Hs & Hws)]; simpl.
  - by exists [].
  - destruct (chars c) eqn:E.
    + exists (c :: ws). split; [by rewrite Hs at 1 | by constructor].
    + by exists [].
Qed.

Lemma strip_parts s :
  exists ws1 ws2,
    s = ws1 ++ strip s ++ ws2 /\
    Forall (fun c => is_space c = true) ws1 /\
    Forall (fun c => is_space c = true) ws2.
Proof.
  unfold strip, strip_of, rstrip_of.
  destruct (lstrip_of_parts is_space s) as (ws1 & Hs & Hws1).
  destruct (lstrip_of_parts is_space (rev (lstrip_of is_space s)))
    as (ws2 & Hr & Hws2).
  exists ws1, (rev ws2).
  split; [|split; [exact Hws1 | apply Forall_rev; exact Hws2]].
  rewrite Hs at 1. f_equal.
  rewrite <- (rev_involutive (lstrip_of is_space s)) at 1.
  rewrite Hr at 1. rewrite rev_app_distr. reflexivity.
Qed.

(** Spaces around a name do not change its tokens. *)
Lemma raw_tokens_strip text :
  raw_tokens (lower (strip text)) = raw_tokens (lower text).
Proof.
  change (split (prepared (strip text)) = split (prepared text)).
  destruct (strip_parts text) as (ws1 & ws2 & Ht & H1 & H2).
  rewrite Ht at 2. rewrite !prepared_app.
  rewrite (prepared_spaces ws1), (prepared_spaces ws2) by done.
  unfold split. rewrite split_from_spaces by done.
  by rewrite split_from_trailing.
Qed.

Lemma clean_text_plain text :
  Forall (fun c => MapsHtml.control_char c = false) text ->
  MapsHtml.clean_text text = strip text.
Proof.
  intros H. unfold MapsHtml.clean_text. case_bool_decide as He.
  - by subst text.
  - unfold re_sub_class. rewrite flat_map_id; [done|].
    eapply Forall_impl; [exact H|]. by intros c ->.
Qed.

(** X3. The normalizers of load_vancouver_foodies.py and
    load_google_maps_list.py are the same function, and the one of
    update_google_maps_from_html.py is that function after [clean_text]. *)
Theorem normalize_name_scripts_agree text :
  Foodies.normalize_name text = MapsList.normalize_name text
  /\ MapsHtml.normalize_name text
     = Foodies.normalize_name (MapsHtml.clean_text text).
Proof.
  rewrite maps_html_normalize_name_eq, !foodies_normalize_name_eq,
    maps_list_normalize_name_eq.
  by rewrite !kept_tokens_stopwords.
Qed.

(** X4. On a name without control characters, [normalize_name] of
    update_google_maps_from_html.py returns what [normalize_name] of
    load_vancouver_foodies.py returns. *)
Theorem normalize_name_html_agrees text :
  Forall (fun c => MapsHtml.control_char c = false) text ->
  MapsHtml.normalize_name text = Foodies.normalize_name text.
Proof.
  intros H.
  rewrite maps_html_normalize_name_eq, foodies_normalize_name_eq.
  rewrite clean_text_plain by done. rewrite kept_tokens_stopwords.
  unfold kept_tokens. by rewrite raw_tokens_strip.
Qed.

(** A control character inside a word joins its two halves in one script
    and separates them in the others. *)
Lemma normalize_name_control_char :
  MapsHtml.normalize_name (str "Zab" ++ [1%N] ++ str "Grill") = str "zabgrill"
  /\ Foodies.normalize_name (str "Zab" ++ [1%N] ++ str "Grill") = str "zab".
Proof. split; vm_compute; reflexivity. Qed.

End NormalizerFacts.

(** ** Ordered dicts *)

Lemma elem_of_first_seen {K} `{EqDecision K} (l : list K) (k : K) :
  k ∈ first_seen l <-> k ∈ l.
Proof.
  induction l as [|a l IH]; simpl; [done|].
  rewrite !elem_of_cons, list_elem_of_filter, IH.
  destruct (decide (k = a)); tauto.
Qed.

Lemma NoDup_first_seen {K} `{EqDecision K} (l : list K) : NoDup (first_seen l).
Proof.
  induction l as [|a l IH]; simpl; constructor.
  - rewrite list_elem_of_filter. by intros [? _].
  - by apply NoDup_filter.
Qed.

Lemma first_seen_snoc {K} `{EqDecision K} (l : list K) (k : K) :
  first_seen (l ++ [k])
  = first_seen l ++ (if decide (k ∈ l) then [] else [k]).
Proof.
  induction l as [|a l IH].
  - cbn [app first_seen filter]. case_decide as Hin; [|done].
    by apply elem_of_nil in Hin.
  - cbn [app first_seen fmap]. rewrite IH, filter_app.
    f_equal. f_equal.
    destruct (decide (k ∈ l)) as [Hin|Hin];
      destruct (decide (k ∈ a :: l)) as [Hin'|Hin']; try done.
    + exfalso. apply Hin'. by right.
    + apply elem_of_cons in Hin' as [->|?]; [|done].
      rewrite filter_cons. by rewrite decide_False by (by intros H'; apply H').
    + rewrite filter_cons. rewrite decide_True; [done|].
      intros ->. apply Hin'. left.
Qed.

Lemma first_seen_NoDup {K} `{EqDecision K} (l : list K) :
  NoDup l -> first_seen l = l.
Proof.
  induction 1 as [|a l Ha Hl IH]; simpl; [done|].
  rewrite IH. f_equal. clear IH Hl.
  induction l as [|b l IH]; [done|].
  rewrite filter_cons. rewrite not_elem_of_cons in Ha. destruct Ha as [Hab Ha].
  rewrite decide_True by done. by rewrite IH.
Qed.

Section OrderedDict.

Context {K V : Type} `{EqDecision K}.
Implicit Types (d : odict K V) (k : K) (f : option V -> V).

Lemma dict_upsert_new f k d :
  k ∉ d.*1 -> dict_upsert f k d = d ++ [(k, f None)].
Proof.
  induction d as [|[k' v] d IH]; simpl; intros Hk; [done|].
  rewrite not_elem_of_cons in Hk. destruct Hk as [Hne Hk].
  rewrite decide_False by done. by rewrite IH.
Qed.

Lemma dict_upsert_old f k d :
  k ∈ d.*1 ->
  exists d1 v d2,
    d = d1 ++ (k, v) :: d2 /\ (k ∉ d1.*1) /\
    dict_upsert f k d = d1 ++ (k, f (Some v)) :: d2.
Proof.
  induction d as [|[k' v] d IH]; simpl; intros Hk.
  - by apply elem_of_nil in Hk.
  - destruct (decide (k' = k)) as [->|Hne].
    + exists [], v, d. repeat split; auto. apply not_elem_of_nil.
    + apply elem_of_cons in Hk as [Hk|Hk]; [congruence|].
      destruct (IH Hk) as (d1 & v1 & d2 & -> & Hd1 & ->).
      exists ((k', v) :: d1), v1, d2. repeat split; auto.
      simpl. rewrite not_elem_of_cons. split; [congruence | done].
Qed.

Lemma dict_upsert_keys f k d :
  (dict_upsert f k d).*1 = d.*1 ++ (if decide (k ∈ d.*1) then [] else [k]).
Proof.
  destruct (decide (k ∈ d.*1)) as [Hk|Hk].
  - destruct (dict_upsert_old f k d Hk) as (d1 & v & d2 & -> & _ & ->).
    rewrite !fmap_app. simpl. by rewrite app_nil_r.
  - rewrite dict_upsert_new by done. by rewrite fmap_app.
Qed.

Lemma dict_upsert_NoDup f k d : NoDup d.*1 -> NoDup (dict_upsert f k d).*1.
Proof.
  intros Hd. rewrite dict_upsert_keys. destruct (decide (k ∈ d.*1)).
  - by rewrite app_nil_r.
  - apply NoDup_app. repeat split; auto.
    + intros x Hx Hx'. apply list_elem_of_singleton in Hx'. by subst.
    + apply NoDup_singleton.
Qed.

(** The items of a dict after [d[k] = f(d.get(k))]. *)
Lemma dict_upsert_items f k d (kv : K * V) :
  NoDup d.*1 ->
  kv ∈ dict_upsert f k d
  <-> (kv.1 <> k /\ kv ∈ d)
      \/ (kv.1 = k /\
          (((k ∉ d.*1) /\ kv.2 = f None)
           \/ exists v, (k, v) ∈ d /\ kv.2 = f (Some v))).
Proof.
  intros Hd. destruct (decide (k ∈ d.*1)) as [Hk|Hk].
  - destruct (dict_upsert_old f k d Hk) as (d1 & v & d2 & -> & Hd1 & ->).
    rewrite fmap_app in Hd. simpl in Hd.
    apply NoDup_app in Hd as (_ & Hx & Hd2).
    apply NoDup_cons in Hd2 as [Hd2 _].
    destruct kv as [k0 v0]. simpl.
    rewrite !elem_of_app, !elem_of_cons. split.
    + intros [Hin | [[= -> ->] | Hin]].
      * left. split; [|by left]. intros ->. apply Hd1.
        apply list_elem_of_fmap. by exists (k, v0).
      * right. split; [done|]. right. exists v.
        split; [|done]. rewrite elem_of_app, elem_of_cons. auto.
      * left. split; [|by right; right]. intros ->. apply Hd2.
        apply list_elem_of_fmap. by exists (k, v0).
    + intros [[Hne [Hin | [[= ? ?] | Hin]]] | [-> [[Hnot _] | (v' & Hin & ->)]]];
        auto; try done.
      right. left. f_equal. f_equal.
      rewrite elem_of_app, elem_of_cons in Hin.
      destruct Hin as [Hin | [[= ->] | Hin]]; [|done|].
      * exfalso. apply Hd1. apply list_elem_of_fmap. by exists (k, v').
      * exfalso. apply Hd2. apply list_elem_of_fmap. by exists (k, v').
  - rewrite dict_upsert_new by done. rewrite elem_of_app, list_elem_of_singleton.
    destruct kv as [k0 v0]. simpl. split.
    + intros [Hin | [= -> ->]].
      * left. split; [|done]. intros ->. apply Hk.
        apply list_elem_of_fmap. by exists (k, v0).
      * right. split; [done|]. by left.
    + intros [[Hne Hin] | [-> [[_ ->] | (v' & Hin & ->)]]]; auto.
      exfalso. apply Hk. apply list_elem_of_fmap. by exists (k, v').
Qed.

End OrderedDict.

Section KeyedLast.

Context {A K : Type} `{EqDecision K} (key : A -> K).
Implicit Types (d : odict K A) (l : list A).

Lemma keyed_last_snoc d l x :
  keyed_last key d (l ++ [x]) = dict_set (key x) x (keyed_last key d l).
Proof. unfold keyed_last. by rewrite foldl_app. Qed.

Lemma dict_set_well_keyed d x :
  well_keyed key d -> well_keyed key (dict_set (key x) x d).
Proof.
  intros [Hnd Hall]. split; [by apply dict_upsert_NoDup|].
  apply Forall_forall. intros kv Hin.
  apply dict_upsert_items in Hin; [|done].
  rewrite Forall_forall in Hall.
  destruct Hin as [[_ Hin] | [Hk [[_ Hv] | (v & _ & Hv)]]]; auto;
    by rewrite Hk, Hv.
Qed.

Lemma keyed_last_well_keyed l : well_keyed key (keyed_last key [] l).
Proof.
  induction l as [|x l IH] using rev_ind.
  - split; [constructor | constructor].
  - rewrite keyed_last_snoc. by apply dict_set_well_keyed.
Qed.

Lemma keyed_last_keys l :
  (keyed_last key [] l).*1 = first_seen (key <$> l).
Proof.
  induction l as [|x l IH] using rev_ind; [done|].
  rewrite keyed_last_snoc. unfold dict_set. rewrite dict_upsert_keys, IH.
  rewrite fmap_app. change (key <$> [x]) with [key x].
  rewrite first_seen_snoc. f_equal.
  destruct (decide (key x ∈ first_seen (key <$> l))) as [H1|H1],
           (decide (key x ∈ key <$> l)) as [H2|H2]; try done;
    rewrite elem_of_first_seen in H1; done.
Qed.

Lemma last_of_key_snoc l x y :
  last_of_key key (l ++ [x]) y
  <-> (y = x \/ (last_of_key key l y /\ key x <> key y)).
Proof.
  split.
  - intros (pre & post & Hl & Hpost).
    destruct post as [|z post _] using rev_ind.
    + apply app_inj_tail in Hl as [_ ->]. by left.
    + right. rewrite app_comm_cons, app_assoc in Hl.
      apply app_inj_tail in Hl as [-> ->].
      apply Forall_app in Hpost as [Hpost Hz].
      apply Forall_cons in Hz as [Hz _]. split; [|done].
      by exists pre, post.
  - intros [-> | [(pre & post & -> & Hpost) Hne]].
    + exists l, []. by split; [|constructor].
    + exists pre, (post ++ [x]). split; [by rewrite <- app_assoc|].
      apply Forall_app. split; [done|]. by constructor.
Qed.

(** An item of the dict is the last element with its key. *)
Lemma keyed_last_items l (kv : K * A) :
  kv ∈ keyed_last key [] l <-> (kv.1 = key kv.2 /\ last_of_key key l kv.2).
Proof.
  revert kv. induction l as [|x l IH] using rev_ind; intros kv.
  - split; [by intros ?%elem_of_nil|].
    intros [_ (pre & post & Hl & _)]. by destruct pre.
  - rewrite keyed_last_snoc. unfold dict_set.
    pose proof (keyed_last_well_keyed l) as [Hnd Hall].
    rewrite dict_upsert_items by done. rewrite last_of_key_snoc, IH.
    destruct kv as [k v]. simpl. split.
    + intros [[Hne [-> Hlast]] | [-> [[_ ->] | (v' & _ & ->)]]];
        [ split; [done|]; right; split; [done | congruence]
        | by auto | by auto ].
    + intros [-> [-> | [Hlast Hne]]].
      * right. split; [done|].
        destruct (decide (key x ∈ (keyed_last key [] l).*1)) as [Hin|Hin];
          [|by left].
        apply list_elem_of_fmap in Hin as ([k' v'] & Hk & Hin).
        simpl in Hk. subst. right. by exists v'.
      * left. split; [congruence|]. by split.
Qed.

Lemma keyed_last_values l (x : A) :
  x ∈ dict_values (keyed_last key [] l) <-> last_of_key key l x.
Proof.
  unfold dict_values. rewrite list_elem_of_fmap. split.
  - intros ([k v] & -> & Hin). by apply keyed_last_items in Hin as [_ Hin].
  - intros Hlast. exists (key x, x). split; [done|].
    by apply keyed_last_items.
Qed.

Lemma keyed_last_value_keys l :
  key <$> dict_values (keyed_last key [] l) = first_seen (key <$> l).
Proof.
  rewrite <- keyed_last_keys. unfold dict_values.
  pose proof (keyed_last_well_keyed l) as [_ Hall].
  revert Hall. generalize (keyed_last key [] l). intros d Hall.
  induction Hall as [|[k v] d Hkv _ IH]; [done|].
  rewrite !fmap_cons. simpl in *. by rewrite IH, Hkv.
Qed.

(** A list whose keys are distinct is left as it is. *)
Lemma keyed_last_NoDup l :
  NoDup (key <$> l) -> dict_values (keyed_last key [] l) = l.
Proof.
  induction l as [|x l IH] using rev_ind; [done|].
  rewrite fmap_app. intros Hnd. apply NoDup_app in Hnd as (Hl & Hx & _).
  rewrite keyed_last_snoc. unfold dict_set. rewrite dict_upsert_new.
  - unfold dict_values in *. rewrite fmap_app, IH by done. done.
  - rewrite keyed_last_keys, elem_of_first_seen. intros Hin.
    apply (Hx _ Hin). simpl. left.
Qed.

End KeyedLast.


(** X5. [fetch_all_listings] keeps one card for each url: the last card
    scraped with that url, at the place where the url was first seen; cards
    with distinct urls are all kept, in order. *)
Theorem fetch_all_listings_one_per_url (pages : list (list Foodies.listing)) :
  let listings := Foodies.fetch_all_listings pages in
  Foodies.url <$> listings = first_seen (Foodies.url <$> concat pages)
  /\ NoDup (Foodies.url <$> listings)
  /\ (forall l, l ∈ listings <-> last_of_key Foodies.url (concat pages) l)
  /\ (NoDup (Foodies.url <$> concat pages) -> listings = concat pages).
Proof.
  cbv zeta.
  change (Foodies.fetch_all_listings pages)
    with (dict_values (keyed_last Foodies.url [] (concat pages))).
  rewrite keyed_last_value_keys. repeat split.
  - apply NoDup_first_seen.
  - by apply keyed_last_values.
  - by apply keyed_last_values.
  - apply keyed_last_NoDup.
Qed.

Section UniqueNames.

Import MapsList.



End UniqueNames.

(** ** What the resolvers return *)
Section Found.

Import Foodies.

Implicit Types (dineout_name target : pystr) (listings : list listing).
Implicit Types (overrides : gmap pystr pystr).



End Found.

Section FoundName.

Import MapsList.

(** X8. [match_name] returns a restaurant of the list it is given, with a
    score above 0: 0.95 when the normal forms are equal, the score of the
    pair otherwise; it returns none only with score 0.0. *)
Theorem match_name_found (target : pystr) (candidates : list restaurant) :
  match match_name target candidates with
  | (Some m, score) =>
      m ∈ candidates /\ (0 < score)%Q /\ normalize_name target <> [] /\
      ((score = (19 # 20)%Q /\
        normalize_name (name m) = normalize_name target)
       \/ (score = pair_score target (name m) /\
           normalize_name (name m) <> normalize_name target))
  | (None, score) => score = 0%Q
  end.
Proof.
  unfold match_name. case_bool_decide as Hne; [done|].
  assert (forall best best_score,
    (0 <= best_score)%Q ->
    match match_name_from target best best_score candidates with
    | (Some m, score) =>
        (best = Some m /\ score = best_score)
        \/ (m ∈ candidates /\ (0 < score)%Q /\
            ((score = (19 # 20)%Q /\
              normalize_name (name m) = normalize_name target)
             \/ (score = pair_score target (name m) /\
                 normalize_name (name m) <> normalize_name target)))
    | (None, score) => best = None /\ score = best_score
    end) as Hloop.
  { induction candidates as [|c cs IH]; intros best best_score Hpos; simpl.
    - destruct best; auto.
    - case_bool_decide as Hexact.
      + right. split; [left|]. split; [done|]. left. by split.
      + destruct (Score.gt _ best_score) eqn:E.
        * apply gt_spec in E.
          assert (0 < pair_score target (name c))%Q as Hc
            by (by eapply Qle_lt_trans).
          specialize (IH (Some c) (pair_score target (name c))
                         (Qlt_le_weak _ _ Hc)).
          destruct (match_name_from target (Some c) _ cs) as [[m|] score].
          -- right. destruct IH as [[[= ->] ->] | (Hin & Hlt & Hs)].
             ++ split; [left|]. split; [done|]. right. by split.
             ++ split; [by right|]. by split.
          -- by destruct IH.
        * specialize (IH best best_score Hpos).
          destruct (match_name_from target best best_score cs) as [[m|] score].
          -- destruct IH as [? | (Hin & Hlt & Hs)]; [by left|].
             right. split; [by right|]. by split.
          -- done. }
  specialize (Hloop None 0%Q ltac:(done)).
  destruct (match_name_from target None 0%Q candidates) as [[m|] score].
  - destruct Hloop as [[? _] | (Hin & Hlt & Hs)]; [done|]. by repeat split.
  - by destruct Hloop.
Qed.

End FoundName.

(** ** The loops of the two [main]s *)



Section FoodiesMain.

Import Foodies.

Implicit Types (listings : list listing) (overrides : gmap pystr pystr).
Implicit Types (restaurants : list restaurant) (st : main_state).


Lemma foodies_main_loop_from threshold listings overrides restaurants :
  forall st,
    let st' := foldl (main_step threshold listings overrides) st restaurants in
    let accepted :=
      omap (accepted_listing threshold listings overrides) restaurants in
    rows st' = rows st ++ (foodies_row <$> accepted)
    /\ matched st' = matched st + length accepted
    /\ matched st' + length (unmatched st')
       = matched st + length (unmatched st) + length restaurants.
Proof.
  induction restaurants as [|r restaurants IH]; intros st; cbv zeta.
  - simpl. rewrite app_nil_r. split; [done | split; lia].
  - cbn [foldl omap list_omap].
    destruct (IH (main_step threshold listings overrides st r))
      as (Hrows & Hmatched & Hcount).
    rewrite Hcount, Hrows, Hmatched. clear IH Hrows Hmatched Hcount.
    unfold main_step, accepted_listing.
    destruct (match_listing (restaurant_name r) listings overrides)
      as [[[l|] score] method]; simpl.
    + destruct (Score.gt threshold score); simpl;
        rewrite ?length_app, <- ?app_assoc; simpl;
        (split; [done | split; lia]).
    + rewrite length_app. simpl. split; [done | split; lia].
Qed.


End FoodiesMain.

Section MapsListMain.

Import MapsList.

Implicit Types (restaurants : list restaurant) (st : main_state).





End MapsListMain.

(** ** Instances of the properties of the normalizer *)

(** "Joe's Grill & Bar" holds no control character. *)
Lemma normalize_name_html_agrees_witness :
  Forall (fun c => MapsHtml.control_char c = false) (str "Joe's Grill & Bar")
  /\ MapsHtml.normalize_name (str "Joe's Grill & Bar")
     = Foodies.normalize_name (str "Joe's Grill & Bar").
Proof.
  assert (Forall (fun c => MapsHtml.control_char c = false)
                 (str "Joe's Grill & Bar")) as H
    by (repeat constructor).
  split; [exact H|].
  exact (normalize_name_html_agrees (str "Joe's Grill & Bar") H).
Defined.

(** ** [consolidate_entries] *)
Section Consolidate.

Import MapsHtml.

Implicit Types (entries : list entry) (e : entry) (key : pystr).
Implicit Types (merged : odict pystr entry).

Lemma consolidate_step_eq merged e :
  consolidate_step merged e
  = if bool_decide (normalized e = []) then merged
    else dict_upsert (merge_into e) (normalized e) merged.
Proof. reflexivity. Qed.

Lemma entries_of_key_snoc key entries e :
  entries_of_key key (entries ++ [e])
  = entries_of_key key entries ++ (if decide (normalized e = key) then [e] else []).
Proof.
  unfold entries_of_key. by rewrite filter_app.
Qed.

Lemma merged_of_snoc_other entries e key :
  normalized e <> key -> merged_of (entries ++ [e]) key = merged_of entries key.
Proof.
  intros Hne. unfold merged_of. rewrite entries_of_key_snoc.
  rewrite decide_False by done. by rewrite app_nil_r.
Qed.

Lemma merged_of_snoc_same entries e :
  merged_of (entries ++ [e]) (normalized e)
  = Some (merge_into e (merged_of entries (normalized e))).
Proof.
  unfold merged_of. rewrite entries_of_key_snoc.
  rewrite decide_True by done.
  destruct (entries_of_key (normalized e) entries) as [|e0 es]; simpl; [done|].
  by rewrite foldl_app.
Qed.

Lemma entry_keys_snoc entries e :
  entry_keys (entries ++ [e])
  = entry_keys entries
    ++ (if decide (normalized e = []) then []
        else if decide (normalized e ∈ entry_keys entries) then []
        else [normalized e]).
Proof.
  unfold entry_keys. rewrite fmap_app, filter_app.
  change (normalized <$> [e]) with [normalized e]. rewrite filter_cons.
  destruct (decide (normalized e = [])) as [He|He].
  - rewrite decide_False by (by intros H'; apply H').
    by rewrite filter_nil, !app_nil_r.
  - rewrite decide_True by done. rewrite filter_nil, first_seen_snoc.
    f_equal. repeat case_decide; try done;
      exfalso; rewrite elem_of_first_seen in *; done.
Qed.

Lemma elem_of_entry_keys entries key :
  key ∈ entry_keys entries
  <-> key <> [] /\ exists e, e ∈ entries /\ normalized e = key.
Proof.
  unfold entry_keys.
  rewrite elem_of_first_seen, list_elem_of_filter, list_elem_of_fmap.
  split.
  - intros [Hne (e & -> & Hin)]. split; [done|]. by exists e.
  - intros [Hne (e & Hin & <-)]. split; [done|]. by exists e.
Qed.

Lemma merged_of_absent entries key :
  key <> [] -> key ∉ entry_keys entries -> merged_of entries key = None.
Proof.
  intros Hne Hnot. unfold merged_of.
  destruct (entries_of_key key entries) as [|e es] eqn:E; [done|].
  exfalso. apply Hnot. apply elem_of_entry_keys. split; [done|].
  assert (e ∈ entries_of_key key entries) as Hin by (rewrite E; left).
  apply list_elem_of_filter in Hin as [Hk Hin]. by exists e.
Qed.

(** The dict of the loop, after the entries have been read. *)
Lemma consolidate_loop_spec entries :
  let merged := foldl consolidate_step [] entries in
  merged.*1 = entry_keys entries
  /\ forall key v, (key, v) ∈ merged -> merged_of entries key = Some v.
Proof.
  cbv zeta. induction entries as [|e entries [Hkeys Hitems]] using rev_ind.
  - split; [done|]. by intros key v ?%elem_of_nil.
  - rewrite foldl_app. cbn [foldl].
    set (merged := foldl consolidate_step [] entries) in *.
    rewrite consolidate_step_eq, entry_keys_snoc.
    assert (NoDup merged.*1) as Hnd
      by (rewrite Hkeys; apply NoDup_first_seen).
    case_bool_decide as He.
    + rewrite decide_True by done. rewrite app_nil_r. split; [done|].
      intros key v Hin. rewrite merged_of_snoc_other; [by apply Hitems|].
      intros Hk. rewrite He in Hk. subst key.
      assert ([] ∈ entry_keys entries) as Hin'.
      { rewrite <- Hkeys. apply list_elem_of_fmap. by exists ([], v). }
      by apply elem_of_entry_keys in Hin' as [? _].
    + rewrite decide_False by done. split.
      * rewrite dict_upsert_keys, Hkeys. f_equal.
      * intros key v Hin. apply dict_upsert_items in Hin; [|done].
        simpl in Hin.
        destruct Hin as [[Hne Hin] | [-> [[Hnot ->] | (v0 & Hin & ->)]]].
        -- rewrite merged_of_snoc_other by done. by apply Hitems.
        -- rewrite merged_of_snoc_same, merged_of_absent;
             [done | done | by rewrite <- Hkeys].
        -- by rewrite merged_of_snoc_same, (Hitems _ _ Hin).
Qed.

Lemma dict_values_omap {K V} (g : K -> option V) (d : odict K V) :
  (forall k v, (k, v) ∈ d -> g k = Some v) ->
  dict_values d = omap g d.*1.
Proof.
  induction d as [|[k v] d IH]; intros Hg; [done|].
  unfold dict_values in *. rewrite !fmap_cons. cbn [omap list_omap fst snd].
  rewrite (Hg k v) by left. rewrite IH; [done|].
  intros k' v' Hin. apply Hg. by right.
Qed.

Lemma consolidate_entries_omap entries :
  consolidate_entries entries = omap (merged_of entries) (entry_keys entries).
Proof.
  destruct (consolidate_loop_spec entries) as [Hkeys Hitems].
  unfold consolidate_entries. rewrite <- Hkeys.
  by apply dict_values_omap.
Qed.

(** [merge_entry] keeps the key of a group, takes the core of the entry
    with more reviews, and the larger review count. *)
Lemma merge_entry_normalized current e key :
  normalized current = key -> normalized e = key ->
  normalized (merge_entry current e) = key.
Proof. intros H1 H2. unfold merge_entry. by case_match. Qed.

Lemma merge_entry_core current e :
  entry_core (merge_entry current e)
  = if (reviews_or_0 current <? reviews_or_0 e)%Z then entry_core e
    else entry_core current.
Proof. unfold merge_entry. by case_match. Qed.

Lemma reviews_of_core e1 e2 :
  entry_core e1 = entry_core e2 -> reviews_or_0 e1 = reviews_or_0 e2.
Proof. unfold entry_core, reviews_or_0. by intros [= _ _ ->]. Qed.

Lemma fold_merge_normalized key es :
  Forall (fun e => normalized e = key) es ->
  forall current, normalized current = key ->
    normalized (foldl merge_entry current es) = key.
Proof.
  induction 1 as [|e es He _ IH]; intros current Hc; simpl; [done|].
  apply IH. by apply merge_entry_normalized.
Qed.

(** The fold ends on the core of the first entry with the most reviews. *)
Lemma fold_merge_first_max es :
  forall current,
    let r := foldl merge_entry current es in
    (entry_core r = entry_core current /\
     Forall (fun y => (reviews_or_0 y <= reviews_or_0 current)%Z) es)
    \/ (exists pre x post,
          es = pre ++ x :: post /\ entry_core r = entry_core x /\
          (reviews_or_0 current < reviews_or_0 x)%Z /\
          Forall (fun y => (reviews_or_0 y <= reviews_or_0 x)%Z) post /\
          Forall (fun y => (reviews_or_0 y < reviews_or_0 x)%Z) pre).
Proof.
  induction es as [|e es IH]; intros current; cbv zeta; simpl.
  - left. by split.
  - pose proof (merge_entry_core current e) as Hcore.
    destruct (reviews_or_0 current <? reviews_or_0 e)%Z eqn:E.
    + apply Z.ltb_lt in E. right.
      pose proof (reviews_of_core _ _ Hcore) as Hrev.
      destruct (IH (merge_entry current e))
        as [[Hr Hall] | (pre & x & post & -> & Hr & Hlt & Hpost & Hpre)].
      * exists [], e, es. rewrite Hr, Hcore. repeat split; auto.
        eapply Forall_impl; [exact Hall|]. simpl. intros y Hy. lia.
      * exists (e :: pre), x, post. repeat split; auto; [lia|].
        constructor; [lia | done].
    + apply Z.ltb_ge in E.
      pose proof (reviews_of_core _ _ Hcore) as Hrev.
      destruct (IH (merge_entry current e))
        as [[Hr Hall] | (pre & x & post & -> & Hr & Hlt & Hpost & Hpre)].
      * left. rewrite Hr, Hcore. split; [done|]. constructor; [done|].
        eapply Forall_impl; [exact Hall|]. simpl. intros y Hy. lia.
      * right. exists (e :: pre), x, post. repeat split; auto; [lia|].
        constructor; [lia | done].
Qed.

Lemma merged_of_first_max entries key r :
  merged_of entries key = Some r ->
  normalized r = key
  /\ exists pre x post,
       entries_of_key key entries = pre ++ x :: post /\
       entry_core r = entry_core x /\
       Forall (fun y => (reviews_or_0 y < reviews_or_0 x)%Z) pre /\
       Forall (fun y => (reviews_or_0 y <= reviews_or_0 x)%Z) post.
Proof.
  unfold merged_of.
  destruct (entries_of_key key entries) as [|e0 es] eqn:E; [done|].
  intros [= <-].
  assert (Forall (fun e => normalized e = key) (e0 :: es)) as Hkey.
  { rewrite <- E. apply Forall_forall. intros e Hin.
    by apply list_elem_of_filter in Hin as [? _]. }
  apply Forall_cons in Hkey as [Hk0 Hkey]. split.
  - by apply fold_merge_normalized.
  - destruct (fold_merge_first_max es e0)
      as [[Hr Hall] | (pre & x & post & -> & Hr & Hlt & Hpost & Hpre)].
    + exists [], e0, es. by repeat split.
    + exists (e0 :: pre), x, post. repeat split; auto.
Qed.

Lemma consolidate_entries_normalized entries :
  normalized <$> consolidate_entries entries = entry_keys entries.
Proof.
  rewrite consolidate_entries_omap.
  assert (forall key, key ∈ entry_keys entries ->
            exists r, merged_of entries key = Some r /\ normalized r = key)
    as Hall.
  { intros key Hin. apply elem_of_entry_keys in Hin as [Hne (e & Hin & Hk)].
    destruct (merged_of entries key) as [r|] eqn:E.
    - exists r. split; [done|]. by apply merged_of_first_max in E as [? _].
    - exfalso. unfold merged_of in E.
      destruct (entries_of_key key entries) eqn:E'; [|done].
      assert (e ∈ entries_of_key key entries) as Hin'
        by (by apply list_elem_of_filter).
      rewrite E' in Hin'. by apply elem_of_nil in Hin'. }
  induction (entry_keys entries) as [|k ks IH]; [done|].
  cbn [omap list_omap].
  destruct (Hall k) as (r & -> & Hr); [left|].
  rewrite fmap_cons, Hr, IH; [done|].
  intros key Hin. apply Hall. by right.
Qed.

(** Entries with distinct non-empty keys are left as they are. *)
Lemma consolidate_entries_fixed entries :
  NoDup (normalized <$> entries) ->
  Forall (fun e => normalized e <> []) entries ->
  consolidate_entries entries = entries.
Proof.
  unfold consolidate_entries.
  induction entries as [|e entries IH] using rev_ind; [done|].
  rewrite fmap_app. intros Hnd Hne.
  apply NoDup_app in Hnd as (Hnd & Hfresh & _).
  apply Forall_app in Hne as [Hne He]. apply Forall_cons in He as [He _].
  rewrite foldl_app. cbn [foldl]. rewrite consolidate_step_eq.
  rewrite bool_decide_eq_false_2 by done.
  destruct (consolidate_loop_spec entries) as [Hkeys _].
  rewrite dict_upsert_new.
  - unfold dict_values in *. rewrite fmap_app. by rewrite IH.
  - rewrite Hkeys. intros Hin.
    apply elem_of_entry_keys in Hin as [_ (e' & Hin & Hk)].
    apply (Hfresh (normalized e)); [|left].
    apply list_elem_of_fmap. by exists e'.
Qed.

Lemma consolidate_entries_nonempty entries :
  Forall (fun e => normalized e <> []) (consolidate_entries entries).
Proof.
  apply Forall_forall. intros e Hin.
  assert (normalized e ∈ entry_keys entries) as Hk.
  { rewrite <- consolidate_entries_normalized.
    apply list_elem_of_fmap. by exists e. }
  by apply elem_of_entry_keys in Hk as [? _].
Qed.

(** X11. [consolidate_entries] returns one entry for each non-empty
    normalized name, in the order in which the names first appear: the left
    fold of the merge over the entries with that name.  Entries whose
    normalized name is empty are dropped. *)
Theorem consolidate_entries_by_key entries :
  consolidate_entries entries = omap (merged_of entries) (entry_keys entries)
  /\ normalized <$> consolidate_entries entries = entry_keys entries
  /\ NoDup (normalized <$> consolidate_entries entries)
  /\ Forall (fun e => normalized e <> []) (consolidate_entries entries)
  /\ (forall key, key ∈ normalized <$> consolidate_entries entries
        <-> key <> [] /\ exists e, e ∈ entries /\ normalized e = key).
Proof.
  rewrite consolidate_entries_normalized.
  split; [apply consolidate_entries_omap|]. split; [done|].
  split; [apply NoDup_first_seen|]. split.
  - apply consolidate_entries_nonempty.
  - apply elem_of_entry_keys.
Qed.

(** X12. Every entry [consolidate_entries] returns carries the name, the
    rating and the review count of the first entry with the most reviews
    among the entries with its normalized name. *)
Theorem consolidate_entries_most_reviewed entries :
  Forall (fun r =>
            exists pre x post,
              entries_of_key (normalized r) entries = pre ++ x :: post /\
              entry_name r = entry_name x /\ rating r = rating x /\
              reviews_count r = reviews_count x /\
              Forall (fun y => (reviews_or_0 y < reviews_or_0 x)%Z) pre /\
              Forall (fun y => (reviews_or_0 y <= reviews_or_0 x)%Z) post)
         (consolidate_entries entries).
Proof.
  apply Forall_forall. intros r.
  rewrite consolidate_entries_omap. intros Hin.
  apply list_elem_of_omap in Hin as (key & _ & Hr).
  apply merged_of_first_max in Hr
    as [<- (pre & x & post & Hsplit & Hcore & Hpre & Hpost)].
  exists pre, x, post. unfold entry_core in Hcore.
  injection Hcore as Hn Hra Hre. by repeat split.
Qed.

(** X13. [consolidate_entries] is idempotent, and it returns a list of
    entries with distinct non-empty normalized names as it is. *)
Theorem consolidate_entries_idempotent entries :
  consolidate_entries (consolidate_entries entries)
  = consolidate_entries entries
  /\ (NoDup (normalized <$> entries) ->
      Forall (fun e => normalized e <> []) entries ->
      consolidate_entries entries = entries).
Proof.
  split; [|apply consolidate_entries_fixed].
  apply consolidate_entries_fixed.
  - rewrite consolidate_entries_normalized. apply NoDup_first_seen.
  - apply consolidate_entries_nonempty.
Qed.

End Consolidate.

(** ** [clean_text] and [slugify] *)
Section Slugs.

Import MapsHtml.

Implicit Types (s value : pystr) (chars cls : N -> bool).

Ltac char_arith :=
  unfold slug_char, lower_alnum, not_alnum, is_dash, control_char, is_space,
    in_range in *;
  rewrite ?negb_true_iff, ?negb_false_iff in *;
  repeat rewrite ?orb_true_iff, ?orb_false_iff, ?andb_true_iff,
    ?andb_false_iff, ?N.leb_le, ?N.leb_gt, ?N.eqb_eq, ?N.eqb_neq in *;
  lia.

Lemma lstrip_of_head chars s :
  match lstrip_of chars s with [] => True | c :: _ => chars c = false end.
Proof.
  induction s as [|c s IH]; simpl; [done|].
  destruct (chars c) eqn:E; [done|]. simpl. done.
Qed.

Lemma Forall_lstrip_of (P : N -> Prop) chars s :
  Forall P s -> Forall P (lstrip_of chars s).
Proof.
  intros H. destruct (lstrip_of_parts chars s) as (ws & Hs & _).
  rewrite Hs in H. by apply Forall_app in H as [_ ?].
Qed.

Lemma Forall_strip_of (P : N -> Prop) chars s :
  Forall P s -> Forall P (strip_of chars s).
Proof.
  intros H. unfold strip_of, rstrip_of.
  apply Forall_rev, Forall_lstrip_of, Forall_rev. by apply Forall_lstrip_of.
Qed.

Lemma rstrip_of_head chars s :
  match s with [] => True | c :: _ => chars c = false end ->
  match rstrip_of chars s with [] => True | c :: _ => chars c = false end.
Proof.
  intros Hs. unfold rstrip_of.
  destruct (lstrip_of_parts chars (rev s)) as (ws & Hrev & _).
  assert (s = rev (lstrip_of chars (rev s)) ++ rev ws) as Hsplit.
  { rewrite <- (rev_involutive s) at 1. rewrite Hrev at 1.
    by rewrite rev_app_distr. }
  destruct (rev (lstrip_of chars (rev s))) as [|c r]; [done|].
  rewrite Hsplit in Hs. exact Hs.
Qed.

Lemma strip_of_ends chars s :
  match strip_of chars s with [] => True | c :: _ => chars c = false end
  /\ match rev (strip_of chars s) with
     | [] => True
     | c :: _ => chars c = false
     end.
Proof.
  unfold strip_of. split.
  - apply rstrip_of_head, lstrip_of_head.
  - unfold rstrip_of. rewrite rev_involutive. apply lstrip_of_head.
Qed.

Lemma strip_of_idempotent chars s :
  strip_of chars (strip_of chars s) = strip_of chars s.
Proof.
  destruct (strip_of_ends chars s) as [H1 H2]. by apply strip_of_id.
Qed.

Lemma re_sub_class_removed cls s :
  Forall (fun c => cls c = false) (re_sub_class cls [] s).
Proof.
  unfold re_sub_class. induction s as [|c s IH]; simpl; [done|].
  destruct (cls c) eqn:E; simpl; [done|]. by constructor.
Qed.

(** X14. What [clean_text] returns holds no control character and no
    space at either end, and cleaning it again changes nothing. *)
Theorem clean_text_clean value :
  Forall (fun c => control_char c = false) (clean_text value)
  /\ strip (clean_text value) = clean_text value
  /\ clean_text (clean_text value) = clean_text value.
Proof.
  assert (Forall (fun c => control_char c = false) (clean_text value)
          /\ strip (clean_text value) = clean_text value) as [Hc Hs].
  { unfold clean_text. case_bool_decide as He; [by subst value|]. split.
    - apply Forall_strip_of, re_sub_class_removed.
    - apply strip_of_idempotent. }
  split; [done|]. split; [done|].
  by rewrite (clean_text_plain _ Hc).
Qed.

Lemma lower_cp_no_upper c :
  Forall (fun x => in_range 65 90 x = false) (lower_cp c).
Proof.
  unfold lower_cp.
  destruct (in_range 65 90 c) eqn:E1.
  { constructor; [|done]. char_arith. }
  destruct (in_range 192 222 c && negb (c =? 215)%N) eqn:E2.
  { constructor; [|done]. char_arith. }
  destruct (c =? 304)%N eqn:E3; [by repeat constructor|].
  destruct (c =? 8490)%N eqn:E4; [by repeat constructor|].
  by constructor.
Qed.

Lemma lower_no_upper s : Forall (fun x => in_range 65 90 x = false) (lower s).
Proof.
  unfold lower. induction s as [|c s IH]; simpl; [done|].
  apply Forall_app. split; [apply lower_cp_no_upper | done].
Qed.

Lemma re_sub_runs_from_chars (P : N -> Prop) cls new in_run s :
  Forall P new -> Forall (fun c => cls c = false -> P c) s ->
  Forall P (re_sub_runs_from cls new in_run s).
Proof.
  intros Hnew Hs. revert in_run.
  induction Hs as [|c s Hc _ IH]; intros in_run; simpl; [done|].
  destruct (cls c) eqn:E.
  - apply Forall_app. split; [by destruct in_run | apply IH].
  - constructor; [by apply Hc | apply IH].
Qed.

Lemma startswith_dash s :
  startswith (str "-") s = match s with c :: _ => (45 =? c)%N | [] => false end.
Proof. destruct s as [|c s]; [done|]. simpl. by rewrite andb_true_r. Qed.

Lemma contains_dashes_cons c s :
  contains (str "--") (c :: s)
  = ((45 =? c)%N && startswith (str "-") s) || contains (str "--") s.
Proof.
  destruct s as [|c' s]; simpl; by rewrite ?andb_true_r, ?andb_false_r.
Qed.

(** A run of dashes becomes one dash. *)
Lemma re_sub_runs_from_single cls in_run s :
  (forall c, c = 45%N -> cls c = true) ->
  let r := re_sub_runs_from cls [45%N] in_run s in
  contains (str "--") r = false
  /\ (in_run = true -> startswith (str "-") r = false).
Proof.
  intros Hcls. revert in_run.
  induction s as [|c s IH]; intros in_run; cbv zeta;
    cbn [re_sub_runs_from]; [done|].
  destruct (cls c) eqn:E.
  - destruct (IH true) as [Hno Hhead]. specialize (Hhead eq_refl).
    destruct in_run; cbn [app]; [done|].
    split; [|done].
    by rewrite contains_dashes_cons, Hhead, Hno.
  - destruct (IH false) as [Hno _].
    assert ((45 =? c)%N = false) as Hc.
    { apply N.eqb_neq. intros <-. rewrite Hcls in E; done. }
    split.
    + by rewrite contains_dashes_cons, Hc, Hno.
    + intros _. by rewrite startswith_dash.
Qed.

Lemma contains_dashes_app s1 s2 :
  contains (str "--") (s1 ++ s2) = false ->
  contains (str "--") s1 = false /\ contains (str "--") s2 = false.
Proof.
  induction s1 as [|c s1 IH]; [done|].
  rewrite <- app_comm_cons, !contains_dashes_cons.
  intros H. apply orb_false_iff in H as [Hc H].
  destruct (IH H) as [H1 H2]. split; [|done].
  rewrite H1, orb_false_r.
  destruct (45 =? c)%N; [|done]. rewrite andb_true_l in *.
  rewrite startswith_dash in *. by destruct s1.
Qed.

Lemma lstrip_of_no_dashes chars s :
  contains (str "--") s = false ->
  contains (str "--") (lstrip_of chars s) = false.
Proof.
  intros H. destruct (lstrip_of_parts chars s) as (ws & Hs & _).
  rewrite Hs in H. by apply contains_dashes_app in H as [_ ?].
Qed.

Lemma rstrip_of_no_dashes chars s :
  contains (str "--") s = false ->
  contains (str "--") (rstrip_of chars s) = false.
Proof.
  intros H. unfold rstrip_of.
  destruct (lstrip_of_parts chars (rev s)) as (ws & Hrev & _).
  assert (s = rev (lstrip_of chars (rev s)) ++ rev ws) as Hsplit.
  { rewrite <- (rev_involutive s) at 1. rewrite Hrev at 1.
    by rewrite rev_app_distr. }
  rewrite Hsplit in H. by apply contains_dashes_app in H as [? _].
Qed.

Lemma slug_shaped_restaurant : slug_shaped (str "restaurant").
Proof. repeat split; try done. by repeat constructor. Qed.

Lemma slugify_shaped value : slug_shaped (slugify value).
Proof.
  unfold slugify. cbv zeta.
  set (cleaned := re_sub_runs not_alnum (str "-") (lower (strip value))).
  set (slug := strip_of is_dash (re_sub_runs is_dash (str "-") cleaned)).
  case_bool_decide as He; [apply slug_shaped_restaurant|].
  assert (Forall (fun c => slug_char c = true) cleaned) as Hchars.
  { apply re_sub_runs_from_chars; [by repeat constructor|].
    eapply Forall_impl; [apply lower_no_upper|].
    intros c Hc Hn. simpl in Hc. char_arith. }
  split; [done|]. split; [|split; [|split]].
  - apply Forall_strip_of, re_sub_runs_from_chars; [by repeat constructor|].
    eapply Forall_impl; [exact Hchars|]. by intros c Hc _.
  - destruct (strip_of_ends is_dash (re_sub_runs is_dash (str "-") cleaned))
      as [H1 _].
    fold slug in H1. rewrite startswith_dash.
    destruct slug as [|c slug']; [done|].
    unfold is_dash in H1. by rewrite N.eqb_sym.
  - destruct (strip_of_ends is_dash (re_sub_runs is_dash (str "-") cleaned))
      as [_ H2].
    fold slug in H2. rewrite startswith_dash.
    destruct (rev slug) as [|c slug']; [done|].
    unfold is_dash in H2. by rewrite N.eqb_sym.
  - apply rstrip_of_no_dashes, lstrip_of_no_dashes.
    apply (re_sub_runs_from_single is_dash false).
    intros c ->. done.
Qed.

(** On a text of slug characters without two dashes in a row, replacing
    the runs of a class that holds the dash and no other slug character
    changes nothing. *)
Lemma re_sub_runs_from_id cls s :
  (forall c, slug_char c = true -> cls c = (c =? 45)%N) ->
  Forall (fun c => slug_char c = true) s ->
  contains (str "--") s = false ->
  forall in_run,
    (in_run = true -> startswith (str "-") s = false) ->
    re_sub_runs_from cls [45%N] in_run s = s.
Proof.
  intros Hcls Hs. induction Hs as [|c s Hc Hs IH]; intros Hno in_run Hrun;
    cbn [re_sub_runs_from]; [done|].
  rewrite contains_dashes_cons in Hno.
  apply orb_false_iff in Hno as [Hpair Hno].
  rewrite (Hcls c Hc). destruct (c =? 45)%N eqn:E.
  - apply N.eqb_eq in E. subst c.
    destruct in_run.
    { specialize (Hrun eq_refl). by rewrite startswith_dash in Hrun. }
    cbn [app]. f_equal. apply IH; [done|]. intros _. exact Hpair.
  - f_equal. apply IH; [done|]. done.
Qed.

Lemma slug_shaped_fixed s : slug_shaped s -> slugify s = s.
Proof.
  intros (Hne & Hchars & Hhead & Hlast & Hno).
  rewrite startswith_dash in Hhead, Hlast.
  assert (strip s = s) as Hstrip.
  { apply strip_of_id.
    - destruct s as [|c s']; [done|].
      apply Forall_cons in Hchars as [Hc _]. char_arith.
    - apply Forall_rev in Hchars.
      destruct (rev s) as [|c s']; [done|].
      apply Forall_cons in Hchars as [Hc _]. char_arith. }
  assert (lower s = s) as Hlower.
  { apply flat_map_id. eapply Forall_impl; [exact Hchars|].
    intros c Hc. unfold lower_cp.
    assert (in_range 65 90 c = false) as -> by char_arith.
    assert (in_range 192 222 c = false) as -> by char_arith.
    assert ((c =? 304)%N = false) as -> by char_arith.
    assert ((c =? 8490)%N = false) as -> by char_arith.
    done. }
  unfold slugify. cbv zeta. rewrite Hstrip, Hlower.
  unfold re_sub_runs.
  rewrite (re_sub_runs_from_id not_alnum s); try done.
  2:{ intros c Hc. destruct (c =? 45)%N eqn:E; char_arith. }
  rewrite (re_sub_runs_from_id is_dash s); try done.
  rewrite strip_of_id.
  - by rewrite bool_decide_eq_false_2.
  - destruct s as [|c s']; [done|]. unfold is_dash. by rewrite N.eqb_sym.
  - destruct (rev s) as [|c s']; [done|]. unfold is_dash. by rewrite N.eqb_sym.
Qed.

(** X15. A slug is never empty; it is made of the characters a-z, 0-9 and
    the dash, neither starts nor ends with a dash, and holds no two dashes
    in a row; [slugify] leaves such a text as it is, so it is idempotent. *)
Theorem slugify_slug value :
  slugify value <> []
  /\ Forall (fun c => slug_char c = true) (slugify value)
  /\ startswith (str "-") (slugify value) = false
  /\ startswith (str "-") (rev (slugify value)) = false
  /\ contains (str "--") (slugify value) = false
  /\ slugify (slugify value) = slugify value.
Proof.
  pose proof (slugify_shaped value) as Hs.
  pose proof (slug_shaped_fixed _ Hs) as Hfix.
  destruct Hs as (H1 & H2 & H3 & H4 & H5). by repeat split.
Qed.

End Slugs.

(** ** Free slugs and the rows [main] plans *)
Section FreeSlugs.

Import MapsHtml.

Implicit Types (existing : list existing_row) (entries : list entry).
Implicit Types (base slug : pystr) (taken : gset pystr) (st : plan).

Lemma unique_slug_from_spec base taken fuel :
  forall counter slug,
    unique_slug_from base taken fuel counter = Some slug ->
    exists n,
      slug = candidate base (counter + n) /\ (slug ∉ taken) /\
      forall m, m < n -> candidate base (counter + m) ∈ taken.
Proof.
  induction fuel as [|fuel IH]; intros counter slug; simpl; [done|].
  fold (candidate base counter).
  case_bool_decide as Hc.
  - intros [= <-]. exists 0. rewrite Nat.add_0_r.
    repeat split; auto. intros m Hm. lia.
  - intros H. apply IH in H as (n & -> & Hfree & Hbelow).
    exists (S n). replace (counter + S n) with (counter + 1 + n) by lia.
    repeat split; auto. intros [|m] Hm.
    + rewrite Nat.add_0_r. exact Hc.
    + replace (counter + S m) with (counter + 1 + m) by lia.
      apply Hbelow. lia.
Qed.

Lemma unique_slug_spec base taken slug :
  unique_slug base taken = Some slug ->
  (slug ∉ taken)
  /\ (((base ∉ taken) /\ slug = base)
      \/ (base ∈ taken /\
          exists n, 2 <= n /\ slug = candidate base n /\
                    forall m, 2 <= m < n -> candidate base m ∈ taken)).
Proof.
  unfold unique_slug. case_bool_decide as Hb.
  - intros [= <-]. split; [done|]. by left.
  - intros H. apply unique_slug_from_spec in H as (n & -> & Hfree & Hbelow).
    split; [done|]. right. split; [exact Hb|].
    exists (2 + n). repeat split; [lia|].
    intros m Hm. replace m with (2 + (m - 2)) by lia. apply Hbelow. lia.
Qed.

Lemma candidate_nonempty base n : candidate base n <> [].
Proof. unfold candidate. by destruct base. Qed.

(** X16. [unique_slug] returns: a slug that is not taken, the base itself
    when it is free, and otherwise the base with the smallest counter from
    2 on that gives a free slug. *)
Theorem unique_slug_smallest_free base taken :
  exists slug,
    unique_slug base taken = Some slug /\ (slug ∉ taken) /\
    (((base ∉ taken) /\ slug = base)
     \/ (base ∈ taken /\
         exists n, 2 <= n /\ slug = candidate base n /\
                   forall m, 2 <= m < n -> candidate base m ∈ taken)).
Proof.
  destruct (unique_slug_total base taken) as [slug Hs].
  exists slug. split; [done|]. by apply unique_slug_spec.
Qed.

(** The second component of [index_existing]: the non-empty slugs of the
    rows. *)
Lemma index_step_slugs existing :
  forall (st : gmap pystr (list existing_row) * gset pystr) slug,
    slug ∈ (foldl index_step st existing).2
    <-> slug ∈ st.2 \/ slug ∈ slugs_of existing.
Proof.
  induction existing as [|row existing IH]; intros st slug; simpl.
  - split; [by left|]. intros [?|H]; [done|]. by apply elem_of_nil in H.
  - rewrite IH. unfold index_step, slugs_of. cbn [snd omap list_omap].
    destruct (row_slug row) as [[|c s]|]; simpl; [done| |done].
    rewrite elem_of_union, elem_of_singleton, elem_of_cons. tauto.
Qed.

Lemma index_existing_slugs existing slug :
  slug ∈ (index_existing existing).2 <-> slug ∈ slugs_of existing.
Proof.
  unfold index_existing. rewrite index_step_slugs. simpl.
  split; [|by right]. intros [H|H]; [|done]. by apply elem_of_empty in H.
Qed.

Lemma elem_of_slugs_of existing slug :
  slug ∈ slugs_of existing
  <-> slug <> [] /\ exists row, row ∈ existing /\ row_slug row = Some slug.
Proof.
  unfold slugs_of. rewrite list_elem_of_omap. split.
  - intros (row & Hin & Hs). destruct (row_slug row) as [[|c s]|] eqn:E;
      try done. injection Hs as <-. split; [done|]. by exists row.
  - intros [Hne (row & Hin & Hs)]. exists row. split; [done|].
    rewrite Hs. by destruct slug.
Qed.

Lemma plan_step_slugs_fresh by_key taken0 st e st' :
  slugs_fresh taken0 st -> plan_step by_key st e = Some st' ->
  slugs_fresh taken0 st'.
Proof.
  intros (Hnd & Huse & Hrows). unfold plan_step.
  destruct (default [] (by_key !! normalized e)) as [|m [|m' ms]];
    [|by intros [= <-]|by intros [= <-]].
  destruct (unique_slug (slugify (entry_name e)) (slugs_in_use st))
    as [slug|] eqn:Eslug; [|done].
  simpl. intros [= <-]. simpl.
  apply unique_slug_spec in Eslug as [Hfree Hshape].
  assert ((slug ∉ taken0) /\ (slug ∉ new_slug <$> new_rows st)) as [Hnew1 Hnew2].
  { split; intros Hin; apply Hfree, Huse; auto. }
  unfold slugs_fresh. cbn [new_rows slugs_in_use].
  rewrite fmap_app. change (new_slug <$> [_]) with [slug].
  repeat split.
  - apply NoDup_app. repeat split; [done| |].
    + intros x Hx Hx'. apply list_elem_of_singleton in Hx'. by subst.
    + apply NoDup_singleton.
  - rewrite elem_of_union, elem_of_singleton, elem_of_app,
      list_elem_of_singleton, Huse. tauto.
  - rewrite elem_of_union, elem_of_singleton, elem_of_app,
      list_elem_of_singleton, Huse. tauto.
  - apply Forall_app. split; [done|]. constructor; [|done]. simpl.
    split; [done|].
    destruct Hshape as [[_ ->] | [_ (n & Hn & -> & _)]]; [by left|].
    right. by exists n.
Qed.

Lemma plan_loop_slugs_fresh by_key taken0 entries :
  forall st st',
    slugs_fresh taken0 st -> plan_loop by_key st entries = Some st' ->
    slugs_fresh taken0 st'.
Proof.
  induction entries as [|e entries IH]; intros st st' Hst; simpl.
  - by intros [= <-].
  - destruct (plan_step by_key st e) as [st1|] eqn:E; [|done]. simpl.
    apply IH. by eapply plan_step_slugs_fresh.
Qed.

(** X17. The rows [main] plans to insert have pairwise distinct slugs,
    none of them the slug of a row of the catalog or empty; each is the
    slug of the name of its entry, or that slug with a counter from 2 on. *)
Theorem new_rows_fresh_slugs existing entries :
  exists p,
    plan_updates existing entries = Some p
    /\ NoDup (new_slug <$> new_rows p)
    /\ Forall (fun row =>
                 new_slug row <> []
                 /\ (forall old, old ∈ existing ->
                       row_slug old <> Some (new_slug row))
                 /\ (new_slug row = slugify (new_name row)
                     \/ exists n, 2 <= n /\
                          new_slug row = candidate (slugify (new_name row)) n))
              (new_rows p).
Proof.
  unfold plan_updates.
  destruct (index_existing existing) as [by_key taken0] eqn:E.
  set (st0 := {| matched_updates := []; new_rows := []; ambiguous := [];
                 slugs_in_use := taken0 |}).
  destruct (plan_loop_spec existing entries st0) as (p & Hp & _).
  rewrite E in Hp. simpl in Hp. exists p. split; [done|].
  assert (slugs_fresh taken0 st0) as H0.
  { unfold slugs_fresh, st0. cbn [new_rows slugs_in_use].
    split; [constructor|]. split; [|constructor].
    intros slug. split; [by left|].
    intros [?|H]; [done|]. by apply elem_of_nil in H. }
  destruct (plan_loop_slugs_fresh _ _ _ _ _ H0 Hp) as (Hnd & _ & Hrows).
  split; [done|]. eapply Forall_impl; [exact Hrows|].
  intros row [Hfree Hshape]. simpl.
  assert (new_slug row <> []) as Hne.
  { destruct Hshape as [-> | (n & _ & ->)].
    - pose proof (slugify_shaped (new_name row)) as [? _]. done.
    - apply candidate_nonempty. }
  repeat split; auto.
  intros old Hold Hs. apply Hfree.
  assert (taken0 = (index_existing existing).2) as -> by (by rewrite E).
  apply index_existing_slugs, elem_of_slugs_of. split; [done|]. by exists old.
Qed.

Lemma NoDup_fmap_inj {A B} (f : A -> B) (l : list A) (x y : A) :
  NoDup (f <$> l) -> x ∈ l -> y ∈ l -> f x = f y -> x = y.
Proof.
  induction l as [|a l IH]; intros Hnd Hx Hy Hf.
  - by apply elem_of_nil in Hx.
  - rewrite fmap_cons in Hnd. apply NoDup_cons in Hnd as [Ha Hnd].
    apply elem_of_cons in Hx as [->|Hx]; apply elem_of_cons in Hy as [->|Hy];
      auto.
    + exfalso. apply Ha. rewrite Hf. apply list_elem_of_fmap. by exists y.
    + exfalso. apply Ha. rewrite <- Hf. apply list_elem_of_fmap. by exists x.
Qed.

Lemma update_of_row existing e id fields :
  update_of existing e = Some (id, fields) ->
  exists m, m ∈ existing /\ row_id m = id /\
            normalize_name (row_name m) = normalized e.
Proof.
  unfold update_of.
  destruct (same_key_rows existing e) as [|m [|m' ms]] eqn:E; try done.
  intros [= <- _]. exists m.
  assert (m ∈ same_key_rows existing e) as Hin by (rewrite E; left).
  apply list_elem_of_filter in Hin as [Hk Hin]. by repeat split.
Qed.

(** With distinct keys of the entries and distinct ids of the rows, no row
    is updated twice. *)
Lemma updates_distinct existing entries :
  NoDup (row_id <$> existing) -> NoDup (normalized <$> entries) ->
  NoDup (omap (update_of existing) entries).*1.
Proof.
  intros Hids. induction entries as [|e entries IH]; intros Hkeys; simpl.
  - constructor.
  - rewrite fmap_cons in Hkeys. apply NoDup_cons in Hkeys as [He Hkeys].
    destruct (update_of existing e) as [[id fields]|] eqn:E; [|by apply IH].
    rewrite fmap_cons. apply NoDup_cons. split; [|by apply IH].
    simpl. intros Hin.
    apply list_elem_of_fmap in Hin as ([id' fields'] & Hid & Hin).
    simpl in Hid. subst id'.
    apply list_elem_of_omap in Hin as (e' & Hin' & E').
    apply update_of_row in E as (m & Hm & Hmid & Hmk).
    apply update_of_row in E' as (m' & Hm' & Hmid' & Hmk').
    assert (m = m') as <-.
    { apply (NoDup_fmap_inj row_id existing); auto. congruence. }
    apply He. rewrite <- Hmk, Hmk'. apply list_elem_of_fmap. by exists e'.
Qed.

(** X18. When the ids of the rows of the catalog are distinct, [main]
    plans at most one update for each row: the consolidated entries have
    distinct normalized names, so no row is patched twice. *)
Theorem consolidated_updates_distinct existing entries :
  NoDup (row_id <$> existing) ->
  exists p,
    plan_updates existing (consolidate_entries entries) = Some p
    /\ NoDup (matched_updates p).*1.
Proof.
  intros Hids. unfold plan_updates.
  destruct (index_existing existing) as [by_key taken0] eqn:E.
  destruct (plan_loop_spec existing (consolidate_entries entries)
              {| matched_updates := []; new_rows := []; ambiguous := [];
                 slugs_in_use := taken0 |}) as (p & Hp & _ & Hu & _).
  rewrite E in Hp. simpl in Hp, Hu. exists p. split; [done|].
  rewrite Hu. apply updates_distinct; [done|].
  rewrite consolidate_entries_normalized. apply NoDup_first_seen.
Qed.

End FreeSlugs.

(** ** Instances for the catalog *)

(** Two list entries for "Zab Bite" give one update of row 17. *)
Lemma consolidated_updates_distinct_witness :
  NoDup (MapsHtml.row_id <$> zab_rows)
  /\ exists p,
       MapsHtml.plan_updates zab_rows (MapsHtml.consolidate_entries zab_entries)
       = Some p
       /\ NoDup (MapsHtml.matched_updates p).*1.
Proof.
  assert (NoDup (MapsHtml.row_id <$> zab_rows)) as H.
  { apply NoDup_cons. split; [|apply NoDup_singleton].
    intros Hin. apply list_elem_of_singleton in Hin. vm_compute in Hin.
    discriminate. }
  split; [exact H|].
  exact (consolidated_updates_distinct zab_rows zab_entries H).
Defined.

(** ** [parse_price_and_category] and the batches of the upserts *)
Section InfoLine.

Import MapsHtml.

Lemma last_filter_cons {A} (P : A -> Prop) `{!forall x, Decision (P x)}
    (x : A) (l : list A) :
  last (filter P (x :: l))
  = match last (filter P l) with
    | Some y => Some y
    | None => if decide (P x) then Some x else None
    end.
Proof.
  rewrite filter_cons. destruct (decide (P x)); [|by destruct (last _)].
  destruct (filter P l) as [|y l'] eqn:E; [done|].
  rewrite last_cons. by destruct (last (y :: l')).
Qed.

Lemma parts_loop (parts : list pystr) :
  forall st : option pystr * option pystr,
    foldl (fun (st : option pystr * option pystr) part =>
             if contains (str "$") part then (Some part, st.2)
             else (st.1, Some part)) st parts
    = (match last (filter has_dollar parts) with
       | Some p => Some p
       | None => st.1
       end,
       match last (filter (fun part => ~ has_dollar part) parts) with
       | Some c => Some c
       | None => st.2
       end).
Proof.
  induction parts as [|x parts IH]; intros [p c]; [done|].
  cbn [foldl]. rewrite IH, !last_filter_cons.
  destruct (decide (has_dollar x)) as [Hd|Hd].
  - rewrite (decide_False (P := ~ has_dollar x)) by (by intros H'; apply H').
    unfold has_dollar in Hd. rewrite Hd. simpl.
    by destruct (last _), (last _).
  - rewrite (decide_True (P := ~ has_dollar x)) by done.
    unfold has_dollar in Hd. apply not_true_is_false in Hd. rewrite Hd.
    simpl. by destruct (last _), (last _).
Qed.

Lemma info_parts_stripped info_line :
  Forall (fun part => part <> [] /\ strip part = part) (info_parts info_line).
Proof.
  unfold info_parts. apply Forall_forall. intros part Hin.
  apply list_elem_of_filter in Hin as [Hne Hin]. split; [done|].
  apply list_elem_of_fmap in Hin as (piece & -> & _).
  apply strip_of_idempotent.
Qed.

Lemma last_elem_of {A} (l : list A) (x : A) : last l = Some x -> x ∈ l.
Proof.
  intros H. apply last_Some in H as [l' ->].
  rewrite elem_of_app, list_elem_of_singleton. by right.
Qed.

(** X19. [parse_price_and_category] gives no price and no category for an
    empty line and for a line that says "Permanently closed"; otherwise the
    price is the last part with a dollar sign and the category is the last
    part without one, the parts being the non-empty stripped pieces between
    the middle dots.  So a price holds a dollar sign, a category holds none,
    and neither is empty or has a space at either end. *)
Theorem parse_price_and_category_parts (info_line : pystr) :
  (no_info info_line -> parse_price_and_category info_line = (None, None))
  /\ (~ no_info info_line ->
      parse_price_and_category info_line
      = (last (filter has_dollar (info_parts info_line)),
         last (filter (fun part => ~ has_dollar part) (info_parts info_line))))
  /\ (forall p, (parse_price_and_category info_line).1 = Some p ->
        has_dollar p /\ p <> [] /\ strip p = p)
  /\ (forall c, (parse_price_and_category info_line).2 = Some c ->
        ~ has_dollar c /\ c <> [] /\ strip c = c).
Proof.
  assert (~ no_info info_line ->
          parse_price_and_category info_line
          = (last (filter has_dollar (info_parts info_line)),
             last (filter (fun part => ~ has_dollar part)
                          (info_parts info_line)))) as Hparts.
  { intros Hinfo. unfold parse_price_and_category.
    case_bool_decide as He; [exfalso; apply Hinfo; by left|].
    destruct (contains (str "Permanently closed") info_line) eqn:Ec;
      [exfalso; apply Hinfo; by right|].
    fold (info_parts info_line). rewrite parts_loop. simpl.
    by destruct (last _), (last _). }
  assert (no_info info_line ->
          parse_price_and_category info_line = (None, None)) as Hnone.
  { intros [-> | Hc]; [done|]. unfold parse_price_and_category.
    case_bool_decide; [done|]. by rewrite Hc. }
  split; [done|]. split; [done|].
  pose proof (info_parts_stripped info_line) as Hshape.
  rewrite Forall_forall in Hshape.
  destruct (decide (no_info info_line)) as [Hinfo|Hinfo].
  { rewrite (Hnone Hinfo). by split. }
  rewrite (Hparts Hinfo). simpl. split.
  - intros p Hp. apply last_elem_of, list_elem_of_filter in Hp as [Hd Hin].
    split; [done|]. by apply Hshape.
  - intros c Hc. apply last_elem_of, list_elem_of_filter in Hc as [Hd Hin].
    split; [done|]. by apply Hshape.
Qed.

End InfoLine.

Section Batches.

Context {A : Type}.

Implicit Types (rows : list A) (size : nat).

Lemma range_step_succ stop size :
  0 < size -> 0 < stop ->
  range_step stop size
  = 0 :: ((fun i => size + i) <$> range_step (stop - size) size).
Proof.
  intros Hsize Hstop. unfold range_step.
  assert ((stop + size - 1) / size = S ((stop - size + size - 1) / size))
    as ->.
  { destruct (decide (stop <= size)) as [Hle|Hgt].
    - replace (stop - size) with 0 by lia.
      rewrite (Nat.div_small (0 + size - 1)) by lia.
      symmetry. apply (Nat.div_unique _ _ _ (stop - 1)); lia.
    - replace (stop + size - 1) with (stop - size + size - 1 + 1 * size)
        by lia.
      rewrite Nat.div_add by lia. lia. }
  cbn [seq fmap list_fmap]. f_equal.
  rewrite <- fmap_S_seq, <- !list_fmap_compose.
  apply list_fmap_ext. intros _ q _. simpl. lia.
Qed.

Lemma batches_nil size : batches size ([] : list A) = [].
Proof.
  unfold batches, range_step. simpl.
  destruct size as [|size]; [done|].
  replace (S size - 1) with size by lia.
  by rewrite Nat.div_small by lia.
Qed.

Lemma batches_cons size rows :
  0 < size -> rows <> [] ->
  batches size rows = take size rows :: batches size (drop size rows).
Proof.
  intros Hsize Hne. unfold batches.
  rewrite range_step_succ; [|done|by destruct rows; simpl; [|lia]].
  rewrite fmap_cons, drop_0, length_drop. f_equal.
  rewrite <- list_fmap_compose. apply list_fmap_ext. intros _ i _. simpl.
  by rewrite drop_drop.
Qed.

Lemma batches_spec size :
  0 < size ->
  forall n rows,
    length rows <= n ->
    concat (batches size rows) = rows
    /\ Forall (fun batch => 1 <= length batch <= size) (batches size rows)
    /\ length (batches size rows) = (length rows + size - 1) / size.
Proof.
  intros Hsize. induction n as [|n IH]; intros rows Hlen.
  - destruct rows; [|simpl in Hlen; lia]. rewrite batches_nil.
    repeat split; [constructor|]. simpl.
    by rewrite Nat.div_small by lia.
  - destruct rows as [|x rows'] eqn:Erows.
    { rewrite batches_nil. repeat split; [constructor|]. simpl.
      by rewrite Nat.div_small by lia. }
    rewrite <- Erows in *. assert (rows <> []) as Hne by (by subst).
    assert (0 < length rows) as Hpos by (subst; simpl; lia).
    rewrite batches_cons by done.
    destruct (IH (drop size rows)) as (Hcat & Hall & Hcount).
    { rewrite length_drop. lia. }
    repeat split.
    + cbn [concat]. rewrite Hcat. apply take_drop.
    + constructor; [|done]. rewrite length_take. lia.
    + cbn [length]. rewrite Hcount, length_drop.
      destruct (decide (length rows <= size)) as [Hle|Hgt].
      * replace (length rows - size) with 0 by lia.
        rewrite (Nat.div_small (0 + size - 1)) by lia.
        apply (Nat.div_unique _ _ _ (length rows - 1)); lia.
      * replace (length rows + size - 1)
          with (length rows - size + size - 1 + 1 * size) by lia.
        rewrite Nat.div_add by lia. lia.
Qed.

End Batches.

(** X20. The upserts post every row once, in order, in batches that are
    never empty and hold at most 100 rows (50 in
    load_google_maps_list.py); an empty list of rows posts nothing. *)
Theorem upsert_batches_cover (foodies_rows : list Foodies.source_row)
    (list_rows : list MapsList.source_row) (new_rows : list MapsHtml.new_row) :
  (concat (Foodies.upsert_halal_sources foodies_rows) = foodies_rows
   /\ Forall (fun batch => 1 <= length batch <= 100)
             (Foodies.upsert_halal_sources foodies_rows)
   /\ length (Foodies.upsert_halal_sources foodies_rows)
      = (length foodies_rows + 99) / 100)
  /\ (concat (MapsList.upsert_halal_sources list_rows) = list_rows
      /\ Forall (fun batch => 1 <= length batch <= 50)
                (MapsList.upsert_halal_sources list_rows)
      /\ length (MapsList.upsert_halal_sources list_rows)
         = (length list_rows + 49) / 50)
  /\ (concat (MapsHtml.upsert_rows new_rows) = new_rows
      /\ Forall (fun batch => 1 <= length batch <= 100)
                (MapsHtml.upsert_rows new_rows)
      /\ length (MapsHtml.upsert_rows new_rows)
         = (length new_rows + 99) / 100).
Proof.
  unfold Foodies.upsert_halal_sources, MapsList.upsert_halal_sources,
    MapsHtml.upsert_rows.
  split; [|split].
  - destruct (batches_spec 100 ltac:(lia) _ foodies_rows (le_n _))
      as (H1 & H2 & H3).
    split; [done|]. split; [done|]. rewrite H3. f_equal. lia.
  - destruct (batches_spec 50 ltac:(lia) _ list_rows (le_n _))
      as (H1 & H2 & H3).
    split; [done|]. split; [done|]. rewrite H3. f_equal. lia.
  - destruct (batches_spec 100 ltac:(lia) _ new_rows (le_n _))
      as (H1 & H2 & H3).
    split; [done|]. split; [done|]. rewrite H3. f_equal. lia.
Qed.

(** ** The scores *)
Section Scores.

Import Foodies.

(** X21. [similarity] lies between 0 and 1, it is 1 for equal strings and
    for no others, and it is 0 for an empty string against a string that is
    not empty. *)
Theorem similarity_one_iff (a b : pystr) :
  Score.in_unit (similarity a b)
  /\ (similarity a b = 1%Q <-> a = b)
  /\ (b <> [] -> similarity [] b = 0%Q).
Proof.
  unfold similarity. split; [apply ratio_unit|]. split.
  - split.
    + intros H. apply ratio_one_eq. by rewrite H.
    + intros ->. apply ratio_self.
  - apply ratio_empty_left.
Qed.

(** X22. [token_overlap_score] does not depend on the order of the tokens
    of either name. *)
Theorem token_overlap_score_perm (a_tokens a_tokens' b_tokens b_tokens' : list pystr) :
  a_tokens ≡ₚ a_tokens' -> b_tokens ≡ₚ b_tokens' ->
  token_overlap_score a_tokens b_tokens
  = token_overlap_score a_tokens' b_tokens'.
Proof.
  intros Ha Hb. unfold token_overlap_score.
  rewrite (Permutation_length Ha), (Permutation_length Hb).
  by rewrite (list_to_set_perm_L _ _ Ha), (list_to_set_perm_L _ _ Hb).
Qed.

End Scores.

(** ** Names that normalize to nothing, in general *)
Section EmptyNormalForms.

Import Foodies.

Lemma normalizers_agree text :
  MapsList.normalize_name text = normalize_name text.
Proof.
  rewrite maps_list_normalize_name_eq, foodies_normalize_name_eq.
  by rewrite kept_tokens_stopwords.
Qed.



End EmptyNormalForms.

(** ** The override map, by key *)
Section OverridesByKey.

Import Foodies.



End OverridesByKey.

(** ** Instances for the scores and the resolvers *)

(** "kebab town" and "town kebab" against "town kebab cafe". *)
Lemma token_overlap_score_perm_witness :
  Foodies.token_overlap_score [str "kebab"; str "town"]
                              [str "town"; str "kebab"; str "cafe"]
  = Foodies.token_overlap_score [str "town"; str "kebab"]
                                [str "town"; str "kebab"; str "cafe"].
Proof.
  apply (token_overlap_score_perm
           [str "kebab"; str "town"] [str "town"; str "kebab"]
           [str "town"; str "kebab"; str "cafe"]
           [str "town"; str "kebab"; str "cafe"]).
  - apply perm_swap.
  - apply Permutation_refl.
Defined.



(** "tied" and "tidy" both score 3/4 against "tide"; "tied" comes first. *)
Lemma match_name_first_max_witness :
  (Forall (fun c => (MapsList.pair_score (str "tide") (MapsList.name c) <= 0)%Q)
          tide_restaurants /\
   MapsList.match_name (str "tide") tide_restaurants = (None, 0%Q))
  \/ (exists pre hit post,
        tide_restaurants = pre ++ hit :: post /\
        (MapsList.match_name (str "tide") tide_restaurants).1 = Some hit /\
        (0 < MapsList.pair_score (str "tide") (MapsList.name hit))%Q /\
        Forall (fun c => (MapsList.pair_score (str "tide") (MapsList.name c)
                          < MapsList.pair_score (str "tide") (MapsList.name hit))%Q)
               pre /\
        Forall (fun c => (MapsList.pair_score (str "tide") (MapsList.name c)
                          <= MapsList.pair_score (str "tide") (MapsList.name hit))%Q)
               post).
Proof.
  apply (match_name_first_max (str "tide") tide_restaurants).
  intros H. vm_compute in H. discriminate.
Defined.

(** ** The matching blocks are common substrings *)
Section MatchingBlocks.

Import Difflib.

Implicit Types (a b : pystr) (b2j : gmap N (list nat)) (m : Match).

Lemma blocks_loop_sound a b b2j fuel :
  b2j_sound b b2j ->
  forall queue acc res,
    Forall (region_in a b) queue -> Forall (block_ok a b) acc ->
    blocks_loop a b b2j fuel queue acc = Some res ->
    Forall (block_ok a b) res.
Proof.
  intros Hb2j. induction fuel as [|fuel IH]; intros queue acc res Hq Hacc.
  - destruct queue as [|[[[alo ahi] blo] bhi] queue]; simpl; [|done].
    by intros [= <-].
  - destruct queue as [|[[[alo ahi] blo] bhi] queue]; simpl.
    { by intros [= <-]. }
    apply Forall_cons in Hq as [(H1 & H2 & H3 & H4) Hq].
    pose proof (find_longest_match_within a b b2j alo ahi blo bhi H1 H3)
      as Hin.
    pose proof (find_longest_match_sound a b b2j alo ahi blo bhi Hb2j) as Hm.
    destruct (find_longest_match a b b2j alo ahi blo bhi) as [[i j] k].
    destruct Hin as (Hi1 & Hi2 & Hj1 & Hj2). simpl in Hi1, Hi2, Hj1, Hj2.
    destruct (k =? 0); [by apply IH|].
    apply IH.
    + repeat case_match; repeat constructor; simpl; auto; lia.
    + apply Forall_app. split; [done|]. constructor; [|done].
      split; [done|]. simpl. lia.
Qed.

Lemma block_ok_join a b i j k1 k2 :
  block_ok a b (i, j, k1) -> block_ok a b (i + k1, j + k1, k2) ->
  block_ok a b (i, j, k1 + k2).
Proof.
  intros (Hm1 & _ & _) (Hm2 & Ha & Hb). simpl in *.
  split; [|simpl; lia]. intros t Ht. simpl in *.
  destruct (decide (t < k1)) as [Hlt|Hge]; [by apply Hm1|].
  specialize (Hm2 (t - k1)). simpl in Hm2.
  replace (i + k1 + (t - k1)) with (i + t) in Hm2 by lia.
  replace (j + k1 + (t - k1)) with (j + t) in Hm2 by lia.
  apply Hm2. lia.
Qed.

Lemma collapse_fold_sound a b blocks :
  forall st : Match * list Match,
    block_ok a b st.1 -> Forall (block_ok a b) st.2 ->
    Forall (block_ok a b) blocks ->
    block_ok a b (foldl collapse_step st blocks).1
    /\ Forall (block_ok a b) (foldl collapse_step st blocks).2.
Proof.
  induction blocks as [|[[i2 j2] k2] blocks IH];
    intros [[[i1 j1] k1] non_adjacent] Hcur Hnon Hall; [done|].
  apply Forall_cons in Hall as [Hx Hall]. cbn [foldl]. apply IH; [| |done].
  - unfold collapse_step. simpl in *.
    destruct ((i1 + k1 =? i2) && (j1 + k1 =? j2)) eqn:E; simpl; [|done].
    apply andb_true_iff in E as [Ei Ej].
    apply Nat.eqb_eq in Ei. apply Nat.eqb_eq in Ej. subst i2 j2.
    by apply block_ok_join.
  - unfold collapse_step. simpl in *.
    destruct ((i1 + k1 =? i2) && (j1 + k1 =? j2)); simpl; [done|].
    destruct (k1 =? 0); [done|]. apply Forall_app. split; [done|].
    by constructor.
Qed.

Lemma collapse_sound a b blocks :
  Forall (block_ok a b) blocks ->
  Forall (block_ok a b) (collapse (length a) (length b) blocks)
  /\ last (collapse (length a) (length b) blocks)
     = Some (length a, length b, 0).
Proof.
  intros Hall. unfold collapse.
  destruct (collapse_fold_sound a b blocks ((0, 0, 0), [])) as [Hcur Hnon];
    [|constructor|done|].
  { split; [apply block_matches_empty|]. simpl. lia. }
  destruct (foldl collapse_step ((0, 0, 0), []) blocks)
    as [[[i1 j1] k1] non_adjacent]. simpl in Hcur, Hnon.
  split.
  - apply Forall_app. split.
    + destruct (k1 =? 0); [done|]. apply Forall_app. split; [done|].
      by constructor.
    + constructor; [|done]. split; [apply block_matches_empty|]. simpl. lia.
  - apply last_snoc.
Qed.

(** X26. The matching blocks of [SequenceMatcher(None, a, b)] are common
    substrings: for every triple [(i, j, k)], [a[i:i+k] == b[j:j+k]] inside
    the two strings; the last triple is [(len(a), len(b), 0)]. *)
Theorem get_matching_blocks_sound a b :
  exists blocks,
    get_matching_blocks a b = Some blocks
    /\ Forall (fun m =>
                 m.1.1 + m.2 <= length a /\ m.1.2 + m.2 <= length b /\
                 segment a m.1.1 (m.1.1 + m.2)
                 = segment b m.1.2 (m.1.2 + m.2)) blocks
    /\ last blocks = Some (length a, length b, 0).
Proof.
  destruct (blocks_loop_terminates a b) as (found & Hloop & _).
  unfold get_matching_blocks. cbv zeta. rewrite Hloop. simpl.
  eexists. split; [reflexivity|].
  assert (Forall (block_ok a b) found) as Hfound.
  { eapply (blocks_loop_sound a b (chain_b b)); [apply chain_b_sound| | |exact Hloop].
    - constructor; [|done]. simpl. lia.
    - constructor. }
  assert (Forall (block_ok a b) (merge_sort Match_le found)) as Hsorted.
  { eapply Permutation_Forall; [|exact Hfound].
    symmetry. apply merge_sort_Permutation. }
  destruct (collapse_sound a b _ Hsorted) as [Hall Hlast].
  split; [|done]. eapply Forall_impl; [exact Hall|].
  intros [[i j] k] (Hm & Ha & Hb). simpl in *.
  split; [done|]. split; [done|]. by apply block_matches_segment.
Qed.

End MatchingBlocks.

(** ** Shared tokens and normal forms in the resolvers *)
Section SharedTokens.

Import Foodies.

Implicit Types (dineout_name : pystr) (listings : list listing).
Implicit Types (overrides : gmap pystr pystr) (l : listing).

Lemma max3_upper x y z :
  (x <= Score.max3 x y z)%Q /\ (y <= Score.max3 x y z)%Q
  /\ (z <= Score.max3 x y z)%Q.
Proof.
  unfold Score.max3.
  destruct (Score.gt y x) eqn:E1; [apply gt_spec in E1|apply gt_false in E1];
    (destruct (Score.gt z _) eqn:E2;
       [apply gt_spec in E2|apply gt_false in E2]);
    repeat split; try apply Qle_refl; try done;
    try (by apply Qlt_le_weak);
    try (eapply Qle_trans; [|apply Qlt_le_weak; exact E2]; try done;
         by apply Qlt_le_weak).
Qed.

Lemma prefix_match_score_positive (a_tokens b_tokens : list pystr) :
  (0 < prefix_match_score a_tokens b_tokens)%Q ->
  (9 # 10 <= prefix_match_score a_tokens b_tokens)%Q.
Proof. unfold prefix_match_score. by repeat case_match. Qed.

Lemma token_overlap_score_positive (a_tokens b_tokens : list pystr) :
  (0 < token_overlap_score a_tokens b_tokens)%Q ->
  (9 # 10 <= token_overlap_score a_tokens b_tokens)%Q.
Proof. unfold token_overlap_score. by repeat case_match. Qed.

(** A listing that scores 0.9 or more makes [match_listing] return a
    listing with 0.9 or more. *)
Lemma match_listing_reaches dineout_name listings overrides l :
  l ∈ listings -> (9 # 10 <= fuzzy_score dineout_name l)%Q ->
  exists best score method,
    match_listing dineout_name listings overrides = (Some best, score, method)
    /\ (9 # 10 <= score)%Q.
Proof.
  intros Hin Hl. unfold match_listing.
  destruct (override_hit dineout_name listings overrides) as [hit|].
  { by exists hit, 1%Q, "override"%string. }
  destruct (find _ listings) as [hit|].
  { by exists hit, (19 # 20)%Q, "exact"%string. }
  rewrite fuzzy_step_keep_best.
  destruct (keep_best_first_max (fuzzy_score dineout_name) listings None 0%Q)
    as [[Hall Hr] | (pre & best & post & Hsplit & Hr & Hlt & Hpre & Hpost)];
    simpl in Hr; rewrite Hr.
  - exfalso. rewrite Forall_forall in Hall. specialize (Hall l Hin).
    assert (9 # 10 <= 0)%Q as Habs by (by eapply Qle_trans). done.
  - exists best, (fuzzy_score dineout_name best), "fuzzy"%string.
    split; [done|]. eapply Qle_trans; [exact Hl|].
    rewrite Hsplit in Hin. apply elem_of_app in Hin as [Hin|Hin].
    + rewrite Forall_forall in Hpre. by apply Qlt_le_weak, Hpre.
    + apply elem_of_cons in Hin as [->|Hin]; [apply Qle_refl|].
      rewrite Forall_forall in Hpost. by apply Hpost.
Qed.

(** X27. With a threshold of 0.9 or less (the default is 0.86), a
    restaurant gets a row as soon as some listing shares its first two
    tokens with it, or three quarters of its tokens: the prefix and the
    overlap score are 0.9 or more when they are not 0. *)
Theorem main_links_shared_tokens (threshold : Q) listings overrides
    (restaurants : list restaurant) (r : restaurant) l :
  (threshold <= 9 # 10)%Q -> r ∈ restaurants -> l ∈ listings ->
  (0 < prefix_match_score (tokenize_name (restaurant_name r))
                          (tokenize_name (name l)))%Q
  \/ (0 < token_overlap_score (tokenize_name (restaurant_name r))
                              (tokenize_name (name l)))%Q ->
  exists row,
    row ∈ rows (main_loop threshold listings overrides restaurants)
    /\ row_restaurant_id row = restaurant_id r.
Proof.
  intros Ht Hr Hl Hshared.
  assert (9 # 10 <= fuzzy_score (restaurant_name r) l)%Q as Hscore.
  { unfold fuzzy_score, pair_score.
    destruct (max3_upper
                (similarity (normalize_name (restaurant_name r))
                            (normalize_name (name l)))
                (prefix_match_score (tokenize_name (restaurant_name r))
                                    (tokenize_name (name l)))
                (token_overlap_score (tokenize_name (restaurant_name r))
                                     (tokenize_name (name l))))
      as (_ & Hp & Ho).
    destruct Hshared as [H|H].
    - eapply Qle_trans; [|exact Hp]. by apply prefix_match_score_positive.
    - eapply Qle_trans; [|exact Ho]. by apply token_overlap_score_positive. }
  destruct (match_listing_reaches (restaurant_name r) listings overrides l
              Hl Hscore) as (best & score & method & Hm & Hs).
  destruct (foodies_main_loop_from threshold listings overrides restaurants
              {| matched := 0; unmatched := []; rows := [] |})
    as (Hrows & _). simpl in Hrows.
  unfold main_loop. rewrite Hrows.
  exists (foodies_row (r, best)). split; [|done].
  apply list_elem_of_fmap. exists (r, best). split; [done|].
  apply list_elem_of_omap. exists r. split; [done|].
  unfold accepted_listing. rewrite Hm.
  assert (Score.gt threshold score = false) as ->; [|done].
  apply gt_false. by eapply Qle_trans.
Qed.

Lemma normalize_name_twice text :
  normalize_name (normalize_name text) = normalize_name text.
Proof. rewrite !foodies_normalize_name_eq. by rewrite kept_tokens_join. Qed.

Lemma fuzzy_score_normal_form dineout_name l :
  fuzzy_score (normalize_name dineout_name) l = fuzzy_score dineout_name l.
Proof.
  unfold fuzzy_score, pair_score, tokenize_name.
  by rewrite normalize_name_twice.
Qed.

Lemma fuzzy_fold_normal_form dineout_name listings :
  forall st,
    foldl (fuzzy_step (normalize_name dineout_name)) st listings
    = foldl (fuzzy_step dineout_name) st listings.
Proof.
  induction listings as [|l listings IH]; intros st; [done|].
  cbn [foldl]. rewrite IH. f_equal. unfold fuzzy_step.
  by rewrite fuzzy_score_normal_form.
Qed.

Lemma match_name_from_normal_form target (candidates : list MapsList.restaurant) :
  forall best best_score,
    MapsList.match_name_from (MapsList.normalize_name target) best best_score
                             candidates
    = MapsList.match_name_from target best best_score candidates.
Proof.
  assert (MapsList.normalize_name (MapsList.normalize_name target)
          = MapsList.normalize_name target) as Htwice.
  { rewrite !normalizers_agree. apply normalize_name_twice. }
  induction candidates as [|c cs IH]; intros best best_score; [done|].
  cbn [MapsList.match_name_from]. rewrite Htwice, !IH.
  unfold MapsList.pair_score, MapsList.tokenize_name. by rewrite Htwice.
Qed.

(** X28. Without overrides the resolvers see the target through its normal
    form only: looking up the normal form of a name gives what looking up
    the name gives, so case, punctuation and stop-words of the target never
    change the match. *)
Theorem match_by_normal_form dineout_name listings
    (candidates : list MapsList.restaurant) :
  match_listing (normalize_name dineout_name) listings ∅
  = match_listing dineout_name listings ∅
  /\ MapsList.match_name (MapsList.normalize_name dineout_name) candidates
     = MapsList.match_name dineout_name candidates.
Proof.
  split.
  - unfold match_listing, override_hit. rewrite !lookup_empty.
    rewrite normalize_name_twice, fuzzy_fold_normal_form. done.
  - unfold MapsList.match_name. rewrite match_name_from_normal_form.
    assert (MapsList.normalize_name (MapsList.normalize_name dineout_name)
            = MapsList.normalize_name dineout_name) as ->; [|done].
    rewrite !normalizers_agree. apply normalize_name_twice.
Qed.

End SharedTokens.

(** ** An instance for the default threshold *)

(** "Kebab Town Downtown" is linked at the threshold 0.86 when the list
    holds "Kebab Town Express". *)
Lemma main_links_shared_tokens_witness :
  exists row,
    row ∈ Foodies.rows
            (Foodies.main_loop (86 # 100) [kebab_town_express] ∅ [kebab_town])
    /\ Foodies.row_restaurant_id row = Foodies.restaurant_id kebab_town.
Proof.
  apply (main_links_shared_tokens (86 # 100) [kebab_town_express] ∅
           [kebab_town] kebab_town kebab_town_express).
  - vm_compute. discriminate.
  - apply list_elem_of_singleton. reflexivity.
  - apply list_elem_of_singleton. reflexivity.
  - left. vm_compute. reflexivity.
Defined.
